(** * financial_indicators.core.petroleum: petroleum economics metrics

    A shallow embedding of the ten formula functions of
    [src/financial_indicators/core/petroleum.py] together with the part of
    Python's [decimal] arithmetic they run on, followed by the properties
    the specification states about them.

    The formulas are written on [decimal.Decimal] values and use the
    operators [+], [-], [/], [*] and (inside the validator) [>].  These are
    modelled after the reference implementation of the [decimal] module for
    finite numbers, in the context the package runs in: the default one
    (28 significant digits, ROUND_HALF_EVEN, exponents between -999999 and
    999999, clamp 0, the signals InvalidOperation, DivisionByZero and
    Overflow trapped).  With these traps every operation on finite numbers
    either returns a finite number or raises, so NaN and the infinities
    never arise from finite arguments; they are outside this model.  The
    formulas are run in this default context first, without the signal
    flags a context accumulates (nothing in the package reads them), and
    then, in the module [ambient], in the context of the calling thread,
    whatever its precision and exponent limits, with the flags that the
    operations set.

    Layout: the [decimal] module; exceptions, and the monad in which the
    formulas run (it threads a log of the comparisons and arithmetic
    operations a call goes through); the validator; the formulas; the
    definitions the statements are written with (the rational number a
    Decimal denotes, correct rounding, fixed-point grids); the formulas in
    the context of the thread; the supporting
    lemmas, of which the main ones are that [__truediv__] is correctly
    rounded ([truediv_rounds]), that [__add__] is exact on a fixed-point
    grid ([add_exact]) and that [__eq__] is equality of the numbers denoted
    ([eq_spec]); the claims of the specification, C1 to C10; and further
    properties of the formulas, X1 to X21, which rest on the facts that
    the values returned fit the context ([fix_fits]), that [__add__],
    [__sub__] and [__mul__] are correctly rounded too ([add_rounds],
    [sub_rounds], [mul_rounds]) and that correct rounding is monotone
    ([rounds_to_mono]). *)

From Stdlib Require Import ZArith NArith QArith Qpower Qabs Lia Lqa Bool List
  String.
Import ListNotations.

Local Open Scope Z_scope.

(** ** The [decimal] module *)

Module decimal.

(** A finite [Decimal]: [_sign] is [true] for Python's sign 1 (negative),
    [_int] is the coefficient (Python keeps its digit string, without
    leading zeros) and [_exp] the exponent: the number is
    [(-1)^_sign * _int * 10^_exp]. *)
Record Decimal : Type := _dec_from_triple
  { _sign : bool; _int : N; _exp : Z }.

(** The signals that the default context traps. *)
Inductive Signal : Type :=
  | InvalidOperation
  | DivisionByZero
  | Overflow.

(** Outcome of an operation: a value, or a trapped signal raised as an
    exception. *)
Inductive result (A : Type) : Type :=
  | Value (a : A)
  | Trap (s : Signal).
Arguments Value {A} a.
Arguments Trap {A} s.

(** The fields of [Context] that arithmetic on finite numbers reads.  The
    rounding mode is ROUND_HALF_EVEN and clamp is 0 throughout. *)
Record Context : Type := mkContext
  { prec : Z; Emin : Z; Emax : Z }.

Definition DefaultContext : Context :=
  {| prec := 28; Emin := -999999; Emax := 999999 |}.

Definition getcontext : Context := DefaultContext.

Definition Etiny (context : Context) : Z :=
  Emin context - prec context + 1.

Definition Etop (context : Context) : Z :=
  Emax context - prec context + 1.

(** [len(str(n))]: the number of decimal digits of [n]; 1 for 0. *)
Fixpoint len_fuel (fuel : nat) (n : N) : Z :=
  match fuel with
  | O => 1
  | S fuel' => if (n <? 10)%N then 1 else 1 + len_fuel fuel' (n / 10)%N
  end.

Definition len (n : N) : Z := len_fuel (N.to_nat (N.size n)) n.

Definition pow10 (k : Z) : N := (10 ^ Z.to_N k)%N.

Definition Decimal_of_int (n : Z) : Decimal :=
  _dec_from_triple (n <? 0) (Z.abs_N n) 0.

Definition __bool__ (self : Decimal) : bool := negb (_int self =? 0)%N.

Definition adjusted (self : Decimal) : Z := _exp self + len (_int self) - 1.

Definition copy_negate (self : Decimal) : Decimal :=
  _dec_from_triple (negb (_sign self)) (_int self) (_exp self).

(** [(-1)**sign] *)
Definition minus_one_pow (sign : bool) : Z := if sign then -1 else 1.

(** [_cmp]: -1, 0 or 1 as [self] is below, equal to or above [other]. *)
Definition _cmp (self other : Decimal) : Z :=
  if negb (__bool__ self) then
    if negb (__bool__ other) then 0
    else - minus_one_pow (_sign other)
  else if negb (__bool__ other) then minus_one_pow (_sign self)
  else if andb (_sign self) (negb (_sign other)) then -1
  else if andb (negb (_sign self)) (_sign other) then 1
  else
    let self_adjusted := adjusted self in
    let other_adjusted := adjusted other in
    if self_adjusted =? other_adjusted then
      let self_padded := (_int self * pow10 (_exp self - _exp other))%N in
      let other_padded := (_int other * pow10 (_exp other - _exp self))%N in
      if (self_padded =? other_padded)%N then 0
      else if (self_padded <? other_padded)%N
           then - minus_one_pow (_sign self)
           else minus_one_pow (_sign self)
    else if self_adjusted >? other_adjusted then minus_one_pow (_sign self)
    else - minus_one_pow (_sign self).

Definition __eq__ (self other : Decimal) : bool := _cmp self other =? 0.
Definition __gt__ (self other : Decimal) : bool := _cmp self other >? 0.

(** [_round_half_even(self, prec)] on the coefficient [n]: 1 to round up,
    0 when the digits dropped are all zero, -1 when nonzero digits are
    truncated.  [digits] (Python's [prec] argument) is the number of
    leading digits kept, [0 <= digits < len n]. *)
Definition _all_zeros (n : N) (digits : Z) : bool :=
  (n mod pow10 (len n - digits) =? 0)%N.

Definition _exact_half (n : N) (digits : Z) : bool :=
  (n mod pow10 (len n - digits) =? 5 * pow10 (len n - digits - 1))%N.

Definition digit_at (n : N) (digits : Z) : N :=
  ((n / pow10 (len n - digits - 1)) mod 10)%N.

Definition _round_half_up (n : N) (digits : Z) : Z :=
  if (5 <=? digit_at n digits)%N then 1
  else if _all_zeros n digits then 0
  else -1.

Definition _round_half_even (n : N) (digits : Z) : Z :=
  if andb (_exact_half n digits)
          (orb (digits =? 0) (N.even (n / pow10 (len n - digits))))
  then -1
  else _round_half_up n digits.

(** [self._int[:digits] or '0'] *)
Definition take_digits (n : N) (digits : Z) : N :=
  (n / pow10 (len n - digits))%N.

Definition _rescale (self : Decimal) (exp : Z) : Decimal :=
  if negb (__bool__ self) then _dec_from_triple (_sign self) 0 exp
  else if _exp self >=? exp then
    _dec_from_triple (_sign self) (_int self * pow10 (_exp self - exp)) exp
  else
    let digits := len (_int self) + _exp self - exp in
    let '(int, digits) :=
      if digits <? 0 then (1%N, 0) else (_int self, digits) in
    let changed := _round_half_even int digits in
    let coeff := take_digits int digits in
    let coeff := if changed =? 1 then (coeff + 1)%N else coeff in
    _dec_from_triple (_sign self) coeff exp.

(** [_fix]: round [self] to the precision and exponent range of the
    context. *)
Definition _fix (self : Decimal) (context : Context) : result Decimal :=
  let Etiny := Etiny context in
  let Etop := Etop context in
  if negb (__bool__ self) then
    let new_exp := Z.min (Z.max (_exp self) Etiny) (Emax context) in
    if negb (new_exp =? _exp self)
    then Value (_dec_from_triple (_sign self) 0 new_exp)
    else Value self
  else
    let exp_min := len (_int self) + _exp self - prec context in
    if exp_min >? Etop then Trap Overflow
    else
      let self_is_subnormal := exp_min <? Etiny in
      let exp_min := if self_is_subnormal then Etiny else exp_min in
      if _exp self <? exp_min then
        let digits := len (_int self) + _exp self - exp_min in
        let '(int, digits) :=
          if digits <? 0 then (1%N, 0) else (_int self, digits) in
        let changed := _round_half_even int digits in
        let coeff := take_digits int digits in
        let '(coeff, exp_min) :=
          if changed >? 0 then
            let coeff := (coeff + 1)%N in
            if len coeff >? prec context
            then ((coeff / 10)%N, exp_min + 1)
            else (coeff, exp_min)
          else (coeff, exp_min) in
        if exp_min >? Etop then Trap Overflow
        else Value (_dec_from_triple (_sign self) coeff exp_min)
      else Value self.

(** [_normalize] on the working representations (sign, int, exp) of the
    two operands of an addition. *)
Definition _normalize (op1 op2 : Decimal) (prec : Z) : Decimal * Decimal :=
  let swap := _exp op1 <? _exp op2 in
  let tmp := if swap then op2 else op1 in
  let other := if swap then op1 else op2 in
  let tmp_len := len (_int tmp) in
  let other_len := len (_int other) in
  let exp := _exp tmp + Z.min (-1) (tmp_len - prec - 2) in
  let other :=
    if other_len + _exp other - 1 <? exp
    then _dec_from_triple (_sign other) 1 exp
    else other in
  let tmp :=
    _dec_from_triple (_sign tmp)
      (_int tmp * pow10 (_exp tmp - _exp other)) (_exp other) in
  if swap then (other, tmp) else (tmp, other).

Definition __add__ (self other : Decimal) (context : Context)
  : result Decimal :=
  let exp := Z.min (_exp self) (_exp other) in
  if andb (negb (__bool__ self)) (negb (__bool__ other)) then
    let sign := andb (_sign self) (_sign other) in
    _fix (_dec_from_triple sign 0 exp) context
  else if negb (__bool__ self) then
    let exp := Z.max exp (_exp other - prec context - 1) in
    _fix (_rescale other exp) context
  else if negb (__bool__ other) then
    let exp := Z.max exp (_exp self - prec context - 1) in
    _fix (_rescale self exp) context
  else
    let '(op1, op2) := _normalize self other (prec context) in
    if negb (Bool.eqb (_sign op1) (_sign op2)) then
      if (_int op1 =? _int op2)%N then
        _fix (_dec_from_triple false 0 exp) context
      else
        let '(op1, op2) :=
          if (_int op1 <? _int op2)%N then (op2, op1) else (op1, op2) in
        _fix (_dec_from_triple (_sign op1) (_int op1 - _int op2) (_exp op1))
             context
    else
      _fix (_dec_from_triple (_sign op1) (_int op1 + _int op2) (_exp op1))
           context.

Definition __sub__ (self other : Decimal) (context : Context)
  : result Decimal :=
  __add__ self (copy_negate other) context.

Definition __mul__ (self other : Decimal) (context : Context)
  : result Decimal :=
  let resultsign := xorb (_sign self) (_sign other) in
  let resultexp := _exp self + _exp other in
  if orb (negb (__bool__ self)) (negb (__bool__ other)) then
    _fix (_dec_from_triple resultsign 0 resultexp) context
  else if (_int self =? 1)%N then
    _fix (_dec_from_triple resultsign (_int other) resultexp) context
  else if (_int other =? 1)%N then
    _fix (_dec_from_triple resultsign (_int self) resultexp) context
  else
    _fix (_dec_from_triple resultsign (_int self * _int other) resultexp)
         context.

(** The loop of [__truediv__] that strips trailing zeros of an exact
    quotient while [exp < ideal_exp]; [fuel] is [ideal_exp - exp]. *)
Fixpoint strip_zeros (fuel : nat) (coeff : N) (exp : Z) : N * Z :=
  match fuel with
  | O => (coeff, exp)
  | S fuel' =>
      if (coeff mod 10 =? 0)%N
      then strip_zeros fuel' (coeff / 10)%N (exp + 1)
      else (coeff, exp)
  end.

Definition __truediv__ (self other : Decimal) (context : Context)
  : result Decimal :=
  let sign := xorb (_sign self) (_sign other) in
  if negb (__bool__ other) then
    if negb (__bool__ self) then Trap InvalidOperation
    else Trap DivisionByZero
  else
    let '(coeff, exp) :=
      if negb (__bool__ self) then (0%N, _exp self - _exp other)
      else
        let shift :=
          len (_int other) - len (_int self) + prec context + 1 in
        let exp := _exp self - _exp other - shift in
        let '(coeff, remainder) :=
          if shift >=? 0
          then N.div_eucl (_int self * pow10 shift) (_int other)
          else N.div_eucl (_int self) (_int other * pow10 (- shift)) in
        if negb (remainder =? 0)%N then
          ((if (coeff mod 5 =? 0)%N then coeff + 1 else coeff)%N, exp)
        else
          let ideal_exp := _exp self - _exp other in
          strip_zeros (Z.to_nat (ideal_exp - exp)) coeff exp in
    _fix (_dec_from_triple sign coeff exp) context.

End decimal.

Import decimal.

(** ** Exceptions and the execution monad *)

Module exceptions.

(** Modelled from the spec: [financial_indicators.exceptions] is not among
    the sources.  The specification names a single error kind of the
    package, "invalid input", which carries the parameter name and the
    offending value.  The second constructor is the exception that the
    [decimal] module raises for a trapped signal. *)
Inductive Exception : Type :=
  | InvalidInputError (name : string) (value : Decimal)
  | DecimalException (signal : Signal).

End exceptions.
Import exceptions.

(** What a call does: it returns or it raises. *)
Inductive Outcome (A : Type) : Type :=
  | Returned (a : A)
  | Raised (e : Exception).
Arguments Returned {A} a.
Arguments Raised {A} e.

(** The operations on the arguments that a call goes through, in the order
    they are evaluated.  The log is an observer of the evaluation: no
    function reads it. *)
Inductive Operator : Type := Add | Sub | Mul | TrueDiv.

Inductive Event : Type :=
  | Compared (value other : Decimal)
  | Computed (op : Operator) (a b : Decimal).

Definition Exec (A : Type) : Type := list Event -> Outcome A * list Event.

Definition ret {A : Type} (a : A) : Exec A := fun log => (Returned a, log).

Definition bind {A B : Type} (m : Exec A) (k : A -> Exec B) : Exec B :=
  fun log =>
    match m log with
    | (Returned a, log') => k a log'
    | (Raised e, log') => (Raised e, log')
    end.

Definition raise {A : Type} (e : Exception) : Exec A :=
  fun log => (Raised e, log).

Definition emit (ev : Event) : Exec unit :=
  fun log => (Returned tt, log ++ [ev]).

Declare Scope exec_scope.
Delimit Scope exec_scope with exec.
Notation "x <- m ;; k" := (bind m (fun x => k))
  (at level 100, m at next level, right associativity) : exec_scope.
Notation "m ;; k" := (bind m (fun _ => k))
  (at level 100, right associativity) : exec_scope.

Definition of_result {A : Type} (r : result A) : Exec A :=
  match r with
  | Value a => ret a
  | Trap s => raise (DecimalException s)
  end.

Definition apply_operator (op : Operator) (a b : Decimal) : result Decimal :=
  match op with
  | Add => __add__ a b getcontext
  | Sub => __sub__ a b getcontext
  | Mul => __mul__ a b getcontext
  | TrueDiv => __truediv__ a b getcontext
  end.

(** A binary operator applied to two Decimals, in the ambient context. *)
Definition binop (op : Operator) (a b : Decimal) : Exec Decimal :=
  (emit (Computed op a b) ;; of_result (apply_operator op a b))%exec.

(** The outcome of a call, and the operations it went through. *)
Definition call {A : Type} (m : Exec A) : Outcome A := fst (m []).
Definition trace {A : Type} (m : Exec A) : list Event := snd (m []).

Definition is_arithmetic (ev : Event) : bool :=
  match ev with
  | Computed _ _ _ => true
  | Compared _ _ => false
  end.

(** ** The positivity validator *)

Module validation.

(** Modelled from the spec: [financial_indicators.validation] is not among
    the sources.  Section 4.1: given a decimal value and a name label, the
    validator succeeds silently if the value is strictly greater than
    zero; otherwise it fails with an "invalid input" error identifying the
    offending parameter name and the bad value. *)
Definition validate_positive (value : Decimal) (name : string) : Exec unit :=
  (emit (Compared value (Decimal_of_int 0)) ;;
   if __gt__ value (Decimal_of_int 0) then ret tt
   else raise (InvalidInputError name value))%exec.

End validation.
Import validation.

(** ** The formula functions *)

Module petroleum.

Local Open Scope exec_scope.
Local Open Scope string_scope.

Local Notation "a + b" := (binop Add a b) : exec_scope.
Local Notation "a - b" := (binop Sub a b) : exec_scope.
Local Notation "a * b" := (binop Mul a b) : exec_scope.
Local Notation "a / b" := (binop TrueDiv a b) : exec_scope.

Definition finding_development_cost
  (exploration_costs development_costs reserves_added : Decimal)
  : Exec Decimal :=
  validate_positive reserves_added "reserves_added" ;;
  total <- exploration_costs + development_costs ;;
  fd_cost <- total / reserves_added ;;
  ret fd_cost.

Definition reserve_replacement_ratio (reserves_added production : Decimal)
  : Exec Decimal :=
  validate_positive production "production" ;;
  rrr <- reserves_added / production ;;
  ret rrr.

Definition reserve_life_index (proved_reserves annual_production : Decimal)
  : Exec Decimal :=
  validate_positive proved_reserves "proved_reserves" ;;
  validate_positive annual_production "annual_production" ;;
  rli <- proved_reserves / annual_production ;;
  ret rli.

Definition reserves_per_share
  (total_proved_reserves shares_outstanding : Decimal) : Exec Decimal :=
  validate_positive total_proved_reserves "total_proved_reserves" ;;
  validate_positive shares_outstanding "shares_outstanding" ;;
  rps <- total_proved_reserves / shares_outstanding ;;
  ret rps.

Definition lifting_cost (total_operating_costs total_production : Decimal)
  : Exec Decimal :=
  validate_positive total_production "total_production" ;;
  lc <- total_operating_costs / total_production ;;
  ret lc.

Definition netback
  (oil_price royalties transportation operating_costs : Decimal)
  : Exec Decimal :=
  d1 <- oil_price - royalties ;;
  d2 <- d1 - transportation ;;
  nb <- d2 - operating_costs ;;
  ret nb.

Definition breakeven_price (total_costs total_production : Decimal)
  : Exec Decimal :=
  validate_positive total_production "total_production" ;;
  be <- total_costs / total_production ;;
  ret be.

Definition operating_netback_margin (netback oil_price : Decimal)
  : Exec Decimal :=
  validate_positive oil_price "oil_price" ;;
  quotient <- netback / oil_price ;;
  margin <- quotient * Decimal_of_int 100 ;;
  ret margin.

Definition capital_efficiency (production_added capital_expenditure : Decimal)
  : Exec Decimal :=
  validate_positive production_added "production_added" ;;
  validate_positive capital_expenditure "capital_expenditure" ;;
  ce <- production_added / capital_expenditure ;;
  ret ce.

Definition recycle_ratio (operating_netback finding_development_cost : Decimal)
  : Exec Decimal :=
  validate_positive finding_development_cost "finding_development_cost" ;;
  ratio <- operating_netback / finding_development_cost ;;
  ret ratio.

End petroleum.

Import petroleum.

(** A call of one of the ten formula functions with its arguments. *)
Inductive Formula : Type :=
  | FindingDevelopmentCost
      (exploration_costs development_costs reserves_added : Decimal)
  | ReserveReplacementRatio (reserves_added production : Decimal)
  | ReserveLifeIndex (proved_reserves annual_production : Decimal)
  | ReservesPerShare (total_proved_reserves shares_outstanding : Decimal)
  | LiftingCost (total_operating_costs total_production : Decimal)
  | Netback (oil_price royalties transportation operating_costs : Decimal)
  | BreakevenPrice (total_costs total_production : Decimal)
  | OperatingNetbackMargin (netback oil_price : Decimal)
  | CapitalEfficiency (production_added capital_expenditure : Decimal)
  | RecycleRatio (operating_netback finding_development_cost : Decimal).

Definition evaluate (f : Formula) : Exec Decimal :=
  match f with
  | FindingDevelopmentCost e d r => finding_development_cost e d r
  | ReserveReplacementRatio a p => reserve_replacement_ratio a p
  | ReserveLifeIndex r p => reserve_life_index r p
  | ReservesPerShare r s => reserves_per_share r s
  | LiftingCost c p => lifting_cost c p
  | Netback p r t o => netback p r t o
  | BreakevenPrice c p => breakeven_price c p
  | OperatingNetbackMargin n p => operating_netback_margin n p
  | CapitalEfficiency p c => capital_efficiency p c
  | RecycleRatio n c => recycle_ratio n c
  end.

(** ** The number a Decimal denotes *)

Definition signed_int (d : Decimal) : Z :=
  minus_one_pow (_sign d) * Z.of_N (_int d).

Definition to_Q (d : Decimal) : Q :=
  inject_Z (signed_int d) * Qpower (10 # 1) (_exp d).

(** [Decimal(string)] for the literals of the examples: [units] hundredths. *)
Definition hundredths (units : Z) : Decimal :=
  _dec_from_triple (units <? 0) (Z.abs_N units) (-2).

(** The call raises the package's error for parameter [name] with [value]. *)
Definition raises_invalid_input {A : Type} (m : Exec A)
  (name : string) (value : Decimal) : Prop :=
  call m = Raised (InvalidInputError name value).

(** [m] raises "invalid input" exactly when one of the parameters [params]
    (name and argument) is zero or negative, and the error then carries the
    name and the value of such a parameter. *)
Definition invalid_input_iff_nonpositive {A : Type} (m : Exec A)
  (params : list (string * Decimal)) : Prop :=
  ((exists name value, raises_invalid_input m name value) <->
   Exists (fun p => (to_Q (snd p) <= 0)%Q) params) /\
  (forall name value, raises_invalid_input m name value ->
     In (name, value) params /\ (to_Q value <= 0)%Q).

(** * Specification-level definitions *)

(** [C / 10^k] rounded to the nearest integer, half-way cases to the even
    one: what [_fix] computes from a coefficient [C] when it drops the last
    [k] digits under ROUND_HALF_EVEN. *)
Definition rne_int (C k : Z) : Z :=
  let P := 10 ^ k in
  let q := C / P in
  let r := C mod P in
  if orb (2 * r >? P) (andb (2 * r =? P) (Z.odd q)) then q + 1 else q.

(** The constraints of Python's [Context] on its fields. *)
Definition valid_context (context : Context) : Prop :=
  1 <= prec context /\ Emin context <= 0 /\ 0 <= Emax context.

(** The exponent [_fix] gives to the result for the number [C * 10^e]
    ([exp_min] in the source), and the coefficient it rounds to. *)
Definition grid (context : Context) (C : N) (e : Z) : Z :=
  Z.max (len C + e - prec context) (Etiny context).

Definition rounded (context : Context) (C : N) (e : Z) : Z :=
  let g := grid context C e in
  if e >=? g then Z.of_N C * 10 ^ (e - g)
  else if len C + e - g <? 0 then 0
  else rne_int (Z.of_N C) (g - e).

(** [m] is the integer nearest to [y], the even one of the two when [y] lies
    half-way between consecutive integers. *)
Definition nearest_even (y : Q) (m : Z) : Prop :=
  (Qabs (inject_Z m - y) <= 1 # 2)%Q /\
  (Qabs (inject_Z m - y) == 1 # 2 -> Z.even m = true)%Q.

(** The exponent of the last digit kept when [x] is written with
    [prec] significant digits, not below [Etiny]. *)
Definition grid_exponent (context : Context) (x : Q) (g : Z) : Prop :=
  (g = Etiny context /\
   (Qabs x < 10 ^ (Etiny context + prec context - 1))%Q) \/
  (Etiny context <= g /\
   (10 ^ (g + prec context - 1) <= Qabs x)%Q /\
   (Qabs x < 10 ^ (g + prec context))%Q).

(** The outcome [o] is the number [x] rounded to the precision of the
    context, half-way cases to even: a value when the rounded number is
    below [10^(Emax+1)], and the Overflow trap otherwise. *)
Definition rounds_to (context : Context) (x : Q) (o : result Decimal)
  : Prop :=
  exists g m,
    grid_exponent context x g /\
    nearest_even (x / 10 ^ g) m /\
    match o with
    | Value d =>
        (to_Q d == inject_Z m * 10 ^ g)%Q /\
        (Qabs (inject_Z m * 10 ^ g) < 10 ^ (Emax context + 1))%Q
    | Trap s =>
        s = Overflow /\
        (10 ^ (Emax context + 1) <= Qabs (inject_Z m * 10 ^ g))%Q
    end.

(** Two outcomes denote the same number, or are the same trap. *)
Definition same_number (o1 o2 : result Decimal) : Prop :=
  match o1, o2 with
  | Value d1, Value d2 => to_Q d1 == to_Q d2
  | Trap s1, Trap s2 => s1 = s2
  | _, _ => False
  end.

(** The number [d] counted in units of [10^-q]; an integer when [d] has at
    most [q] decimal places. *)
Definition scaled (q : Z) (d : Decimal) : Z :=
  signed_int d * 10 ^ (_exp d + q).

(** [d] has at most [q] decimal places and is below [bound] units of
    [10^-q] in magnitude. *)
Definition fixed_point (q bound : Z) (d : Decimal) : Prop :=
  - q <= _exp d /\ Z.abs (scaled q d) < bound.

(** The context leaves room for [q] decimal places. *)
Definition places_fit (context : Context) (q : Z) : Prop :=
  0 <= q /\ Etiny context <= - q /\ prec context - 1 <= Emax context.

(** A trapped signal surfaces as the exception of the decimal module. *)
Definition outcome_of (r : result Decimal) : Outcome Decimal :=
  match r with
  | Value d => Returned d
  | Trap s => Raised (DecimalException s)
  end.

(** The call returns [x] rounded half-even to the 28 significant digits of
    the context, or raises Overflow when the rounded number is out of the
    exponent range. *)
Definition returns_rounded (x : Q) (o : Outcome Decimal) : Prop :=
  exists r, o = outcome_of r /\ rounds_to getcontext x r.

(** Two calls agree: both return, and values that are [==], or both raise
    the same exception. *)
Definition same_outcome (o1 o2 : Outcome Decimal) : Prop :=
  match o1, o2 with
  | Returned d1, Returned d2 => __eq__ d1 d2 = true
  | Raised e1, Raised e2 => e1 = e2
  | _, _ => False
  end.

(** The sum of the magnitudes of [ds], in units of [10^-q]. *)
Definition total_units (q : Z) (ds : list Decimal) : Z :=
  fold_right (fun d acc => Z.abs (scaled q d) + acc) 0 ds.

(** Every number of [ds] has at most [q] decimal places, and sums and
    differences of them need no more digits than the context keeps. *)
Definition within_precision (q : Z) (ds : list Decimal) : Prop :=
  0 <= q <= - Etiny getcontext /\
  Forall (fun d => - q <= _exp d) ds /\
  total_units q ds < 10 ^ prec getcontext.

(** [ka] is the product [k * a], computed without rounding. *)
Definition exact_product (k a ka : Decimal) : Prop :=
  __mul__ k a getcontext = Value ka /\ (to_Q ka == to_Q k * to_Q a)%Q.

(** [f(k*a, k*b)]: both arguments multiplied by [k] before the call. *)
Definition rescaled (f : Decimal -> Decimal -> Exec Decimal)
  (k a b : Decimal) : Exec Decimal :=
  (ka <- binop Mul k a ;; kb <- binop Mul k b ;; f ka kb)%exec.

(** [netback(...) + delta] and [netback(...) - delta]. *)
Definition netback_plus (p r t o delta : Decimal) : Exec Decimal :=
  (nb <- netback p r t o ;; binop Add nb delta)%exec.

Definition netback_minus (p r t o delta : Decimal) : Exec Decimal :=
  (nb <- netback p r t o ;; binop Sub nb delta)%exec.

(** Both calls return, and values that are [==]. *)
Definition both_return_same (m1 m2 : Exec Decimal) : Prop :=
  exists v w, call m1 = Returned v /\ call m2 = Returned w /\
              __eq__ v w = true.

(** [d] needs no rounding in the context: its coefficient has at most
    [prec] digits, its exponent is at least [Etiny] and its adjusted
    exponent at most [Emax]. *)
Definition fits (context : Context) (d : Decimal) : Prop :=
  len (_int d) <= prec context /\
  Etiny context <= _exp d /\
  adjusted d <= Emax context.

(** [m * 10^g] is [x] rounded to the precision of the context: [g] is the
    exponent of the last digit kept and [m] the nearest integer to
    [x / 10^g], the even one on a tie. *)
Definition rounding (context : Context) (x : Q) (g m : Z) : Prop :=
  grid_exponent context x g /\ nearest_even (x / 10 ^ g) m.

(** The least magnitude that rounds to [10^(Emax+1)], and so overflows. *)
Definition overflow_threshold (context : Context) : Q :=
  (10 ^ (Emax context + 1)
   - (1 # 2) * 10 ^ (Emax context + 1 - prec context))%Q.

(** The seven formulas that are a single division. *)
Definition pure_ratios : list (Decimal -> Decimal -> Exec Decimal) :=
  [reserve_replacement_ratio; reserve_life_index; reserves_per_share;
   lifting_cost; breakeven_price; capital_efficiency; recycle_ratio].

(** [operating_netback_margin(netback(p, r, t, o), p)]: the margin of the
    netback at the same price. *)
Definition netback_margin (p r t o : Decimal) : Exec Decimal :=
  (nb <- netback p r t o ;; operating_netback_margin nb p)%exec.

(** * The ambient context *)

(** The formulas take no context argument: every operator of [Decimal]
    calls [getcontext()] and works in the context of the current thread.
    It reads the settings of that context and sets its signal flags.  The
    definitions above run the formulas in the default context and leave
    the flags out; the ones below run them in whatever context is current
    and keep the flags.  The rounding mode (ROUND_HALF_EVEN), clamp (0) and
    the traps (InvalidOperation, DivisionByZero, Overflow) are those of the
    default context throughout. *)

(** The conditions an operation signals: one of the three trapped
    signals, on which it raises, or one of the five that only set their
    flag.  (With a trapped Overflow the C implementation of the module
    sets the flags Inexact and Rounded as well; the Python one, followed
    here, raises at once.) *)
Inductive Condition : Type :=
  | Trapped (s : Signal)
  | Clamped
  | Inexact
  | Rounded
  | Subnormal
  | Underflow.

(** The conditions that [_fix] passes to [context._raise_error], in order.
    A trapped one is the last: [_raise_error] sets its flag and raises. *)
Definition _fix_conditions (self : Decimal) (context : Context)
  : list Condition :=
  let Etiny := Etiny context in
  let Etop := Etop context in
  if negb (__bool__ self) then
    let new_exp := Z.min (Z.max (_exp self) Etiny) (Emax context) in
    if negb (new_exp =? _exp self) then [Clamped] else []
  else
    let exp_min := len (_int self) + _exp self - prec context in
    if exp_min >? Etop then [Trapped Overflow]
    else
      let self_is_subnormal := exp_min <? Etiny in
      let exp_min := if self_is_subnormal then Etiny else exp_min in
      if _exp self <? exp_min then
        let digits := len (_int self) + _exp self - exp_min in
        let '(int, digits) :=
          if digits <? 0 then (1%N, 0) else (_int self, digits) in
        let changed := _round_half_even int digits in
        let coeff := take_digits int digits in
        let '(coeff, exp_min) :=
          if changed >? 0 then
            let coeff := (coeff + 1)%N in
            if len coeff >? prec context
            then ((coeff / 10)%N, exp_min + 1)
            else (coeff, exp_min)
          else (coeff, exp_min) in
        if exp_min >? Etop then [Trapped Overflow]
        else
          (if andb (negb (changed =? 0)) self_is_subnormal
           then [Underflow] else [])
          ++ (if self_is_subnormal then [Subnormal] else [])
          ++ (if negb (changed =? 0) then [Inexact] else [])
          ++ [Rounded]
          ++ (if (coeff =? 0)%N then [Clamped] else [])
      else if self_is_subnormal then [Subnormal] else [].

(** [ans] of [__add__], [__mul__] and [__truediv__] before the final
    [ans._fix(context)]. *)
Definition add_ans (self other : Decimal) (context : Context) : Decimal :=
  let exp := Z.min (_exp self) (_exp other) in
  if andb (negb (__bool__ self)) (negb (__bool__ other)) then
    _dec_from_triple (andb (_sign self) (_sign other)) 0 exp
  else if negb (__bool__ self) then
    _rescale other (Z.max exp (_exp other - prec context - 1))
  else if negb (__bool__ other) then
    _rescale self (Z.max exp (_exp self - prec context - 1))
  else
    let '(op1, op2) := _normalize self other (prec context) in
    if negb (Bool.eqb (_sign op1) (_sign op2)) then
      if (_int op1 =? _int op2)%N then _dec_from_triple false 0 exp
      else
        let '(op1, op2) :=
          if (_int op1 <? _int op2)%N then (op2, op1) else (op1, op2) in
        _dec_from_triple (_sign op1) (_int op1 - _int op2) (_exp op1)
    else _dec_from_triple (_sign op1) (_int op1 + _int op2) (_exp op1).

Definition mul_ans (self other : Decimal) : Decimal :=
  let resultsign := xorb (_sign self) (_sign other) in
  let resultexp := _exp self + _exp other in
  if orb (negb (__bool__ self)) (negb (__bool__ other)) then
    _dec_from_triple resultsign 0 resultexp
  else if (_int self =? 1)%N then
    _dec_from_triple resultsign (_int other) resultexp
  else if (_int other =? 1)%N then
    _dec_from_triple resultsign (_int self) resultexp
  else _dec_from_triple resultsign (_int self * _int other) resultexp.

(** For a nonzero divisor. *)
Definition truediv_ans (self other : Decimal) (context : Context) : Decimal :=
  let sign := xorb (_sign self) (_sign other) in
  let '(coeff, exp) :=
    if negb (__bool__ self) then (0%N, _exp self - _exp other)
    else
      let shift := len (_int other) - len (_int self) + prec context + 1 in
      let exp := _exp self - _exp other - shift in
      let '(coeff, remainder) :=
        if shift >=? 0
        then N.div_eucl (_int self * pow10 shift) (_int other)
        else N.div_eucl (_int self) (_int other * pow10 (- shift)) in
      if negb (remainder =? 0)%N then
        ((if (coeff mod 5 =? 0)%N then coeff + 1 else coeff)%N, exp)
      else
        let ideal_exp := _exp self - _exp other in
        strip_zeros (Z.to_nat (ideal_exp - exp)) coeff exp in
  _dec_from_triple sign coeff exp.

(** An operator in a given context: its result, and the conditions it
    signals. *)
Definition apply_in (context : Context) (op : Operator) (a b : Decimal)
  : result Decimal :=
  match op with
  | Add => __add__ a b context
  | Sub => __sub__ a b context
  | Mul => __mul__ a b context
  | TrueDiv => __truediv__ a b context
  end.

Definition conditions (context : Context) (op : Operator) (a b : Decimal)
  : list Condition :=
  match op with
  | Add => _fix_conditions (add_ans a b context) context
  | Sub => _fix_conditions (add_ans a (copy_negate b) context) context
  | Mul => _fix_conditions (mul_ans a b) context
  | TrueDiv =>
      if negb (__bool__ b) then
        if negb (__bool__ a) then [Trapped InvalidOperation]
        else [Trapped DivisionByZero]
      else _fix_conditions (truediv_ans a b context) context
  end.

(** The context of the current thread: the settings that arithmetic reads
    and the conditions flagged so far.  A flag is set when its condition
    occurs in [flags]. *)
Record Ambient : Type := mkAmbient
  { settings : Context; flags : list Condition }.

Definition clear_flags (s : Ambient) : Ambient :=
  {| settings := settings s; flags := [] |}.

(** A computation in the context of the thread. *)
Definition Run (A : Type) : Type := Ambient -> Outcome A * Ambient.

Module ambient.

Definition ret {A : Type} (a : A) : Run A := fun s => (Returned a, s).

Definition bind {A B : Type} (m : Run A) (k : A -> Run B) : Run B :=
  fun s =>
    match m s with
    | (Returned a, s') => k a s'
    | (Raised e, s') => (Raised e, s')
    end.

Definition raise {A : Type} (e : Exception) : Run A :=
  fun s => (Raised e, s).

(** [a op b] with [context = getcontext()]: the operator reads the
    settings, flags the conditions it signals, and returns or raises. *)
Definition binop (op : Operator) (a b : Decimal) : Run Decimal :=
  fun s =>
    let context := settings s in
    (outcome_of (apply_in context op a b),
     {| settings := context;
        flags := flags s ++ conditions context op a b |}).

(** Modelled from the spec: the validator of section 4.1, as above; the
    comparison of finite numbers signals nothing. *)
Definition validate_positive (value : Decimal) (name : string) : Run unit :=
  if __gt__ value (Decimal_of_int 0) then ret tt
  else raise (InvalidInputError name value).

Declare Scope run_scope.
Delimit Scope run_scope with run.
Notation "x <- m ;; k" := (bind m (fun x => k))
  (at level 100, m at next level, right associativity) : run_scope.
Notation "m ;; k" := (bind m (fun _ => k))
  (at level 100, right associativity) : run_scope.

Local Open Scope run_scope.
Local Open Scope string_scope.

Local Notation "a + b" := (binop Add a b) : run_scope.
Local Notation "a - b" := (binop Sub a b) : run_scope.
Local Notation "a * b" := (binop Mul a b) : run_scope.
Local Notation "a / b" := (binop TrueDiv a b) : run_scope.

Definition finding_development_cost
  (exploration_costs development_costs reserves_added : Decimal)
  : Run Decimal :=
  validate_positive reserves_added "reserves_added" ;;
  total <- exploration_costs + development_costs ;;
  fd_cost <- total / reserves_added ;;
  ret fd_cost.

Definition reserve_replacement_ratio (reserves_added production : Decimal)
  : Run Decimal :=
  validate_positive production "production" ;;
  rrr <- reserves_added / production ;;
  ret rrr.

Definition reserve_life_index (proved_reserves annual_production : Decimal)
  : Run Decimal :=
  validate_positive proved_reserves "proved_reserves" ;;
  validate_positive annual_production "annual_production" ;;
  rli <- proved_reserves / annual_production ;;
  ret rli.

Definition reserves_per_share
  (total_proved_reserves shares_outstanding : Decimal) : Run Decimal :=
  validate_positive total_proved_reserves "total_proved_reserves" ;;
  validate_positive shares_outstanding "shares_outstanding" ;;
  rps <- total_proved_reserves / shares_outstanding ;;
  ret rps.

Definition lifting_cost (total_operating_costs total_production : Decimal)
  : Run Decimal :=
  validate_positive total_production "total_production" ;;
  lc <- total_operating_costs / total_production ;;
  ret lc.

Definition netback
  (oil_price royalties transportation operating_costs : Decimal)
  : Run Decimal :=
  d1 <- oil_price - royalties ;;
  d2 <- d1 - transportation ;;
  nb <- d2 - operating_costs ;;
  ret nb.

Definition breakeven_price (total_costs total_production : Decimal)
  : Run Decimal :=
  validate_positive total_production "total_production" ;;
  be <- total_costs / total_production ;;
  ret be.

Definition operating_netback_margin (netback oil_price : Decimal)
  : Run Decimal :=
  validate_positive oil_price "oil_price" ;;
  quotient <- netback / oil_price ;;
  margin <- quotient * Decimal_of_int 100 ;;
  ret margin.

Definition capital_efficiency (production_added capital_expenditure : Decimal)
  : Run Decimal :=
  validate_positive production_added "production_added" ;;
  validate_positive capital_expenditure "capital_expenditure" ;;
  ce <- production_added / capital_expenditure ;;
  ret ce.

Definition recycle_ratio (operating_netback finding_development_cost : Decimal)
  : Run Decimal :=
  validate_positive finding_development_cost "finding_development_cost" ;;
  ratio <- operating_netback / finding_development_cost ;;
  ret ratio.

(** The call [f] made in the context of the thread. *)
Definition evaluate (f : Formula) : Run Decimal :=
  match f with
  | FindingDevelopmentCost e d r => finding_development_cost e d r
  | ReserveReplacementRatio a p => reserve_replacement_ratio a p
  | ReserveLifeIndex r p => reserve_life_index r p
  | ReservesPerShare r s => reserves_per_share r s
  | LiftingCost c p => lifting_cost c p
  | Netback p r t o => netback p r t o
  | BreakevenPrice c p => breakeven_price c p
  | OperatingNetbackMargin n p => operating_netback_margin n p
  | CapitalEfficiency p c => capital_efficiency p c
  | RecycleRatio n c => recycle_ratio n c
  end.

End ambient.

(** The conditions the call [f] flags under the settings [context]. *)
Definition signalled (f : Formula) (context : Context) : list Condition :=
  flags (snd (ambient.evaluate f {| settings := context; flags := [] |})).

(** [m] reads nothing of the thread's context but its settings, leaves the
    settings as they are, and only adds to the flags. *)
Definition framed {A : Type} (m : Run A) : Prop :=
  forall s : Ambient,
    fst (m s) = fst (m (clear_flags s)) /\
    settings (snd (m s)) = settings s /\
    flags (snd (m s)) = flags s ++ flags (snd (m (clear_flags s))).

(** [m], run under the default settings, has the outcome of [e]. *)
Definition agrees {A : Type} (m : Run A) (e : Exec A) : Prop :=
  forall (s : Ambient) (log : list Event),
    settings s = getcontext -> fst (m s) = fst (e log).

(** * Supporting lemmas *)

(** ** Integer rounding, digit counts and [_fix] *)

Ltac div_lia := Z.to_euclidean_division_equations; lia.

Lemma pow10_pos_Z (k : Z) : 0 <= k -> 0 < 10 ^ k.
Proof. intros. apply Z.pow_pos_nonneg; lia. Qed.

Lemma rne_int_nearest (C k : Z) :
  0 <= C -> 0 <= k ->
  2 * Z.abs (rne_int C k * 10 ^ k - C) <= 10 ^ k /\
  (2 * Z.abs (rne_int C k * 10 ^ k - C) = 10 ^ k ->
   Z.even (rne_int C k) = true).
Proof.
  intros HC Hk. unfold rne_int.
  pose proof (pow10_pos_Z k Hk) as HP.
  set (P := 10 ^ k) in *.
  pose proof (Z.div_mod C P ltac:(lia)) as Hdm.
  pose proof (Z.mod_pos_bound C P HP) as Hr.
  set (q := C / P) in *. set (r := C mod P) in *.
  assert (E1 : (q + 1) * P - C = P - r) by lia.
  assert (E0 : q * P - C = - r) by lia.
  destruct (Z.gtb_spec (2 * r) P) as [Hgt|Hle]; cbn [orb andb].
  - rewrite E1. split; [lia | intros; exfalso; lia].
  - destruct (Z.eqb_spec (2 * r) P) as [Heq|Hne]; cbn [orb andb].
    + destruct (Z.odd q) eqn:Hodd.
      * rewrite E1. split; [lia |]. intros _.
        rewrite Z.add_1_r, Z.even_succ. exact Hodd.
      * rewrite E0. split; [lia |]. intros _.
        rewrite <- Z.negb_odd, Hodd. reflexivity.
    + rewrite E0. split; [lia | intros; exfalso; lia].
Qed.

Lemma rne_int_sticky (N D C0 R k : Z) :
  N = C0 * D + R -> 0 < R < D -> 0 <= C0 -> 1 <= k ->
  2 * Z.abs (rne_int (if C0 mod 5 =? 0 then C0 + 1 else C0) k * 10 ^ k * D - N)
  < 10 ^ k * D.
Proof.
  intros HN HR HC0 Hk.
  assert (HC : exists C, C = (if C0 mod 5 =? 0 then C0 + 1 else C0) /\
             (C0 mod 5 = 0 /\ C = C0 + 1 \/ C0 mod 5 <> 0 /\ C = C0)).
  { eexists; split; [reflexivity|].
    destruct (Z.eqb_spec (C0 mod 5) 0); [left | right]; split; auto. }
  destruct HC as (C & <- & HC). unfold rne_int.
  assert (HP' : 0 < 10 ^ (k - 1)) by (apply pow10_pos_Z; lia).
  assert (HPe : 10 ^ k = 10 * 10 ^ (k - 1)).
  { replace k with (1 + (k - 1)) at 1 by lia.
    rewrite Z.pow_add_r by lia. reflexivity. }
  generalize dependent (10 ^ k). intros P HPe.
  generalize dependent (10 ^ (k - 1)). intros P' HP' HPe.
  assert (HP : 0 < P) by lia.
  assert (HCnn : 0 <= C) by lia.
  pose proof (Z.div_mod C P ltac:(lia)) as Hdm.
  pose proof (Z.mod_pos_bound C P HP) as Hr.
  assert (Hq : 0 <= C / P) by (apply Z.div_pos; lia).
  generalize dependent (C / P). intros q Hdm Hq.
  generalize dependent (C mod P). intros r Hdm Hr.
  assert (Hw : exists w, P * q = 10 * w) by (exists (P' * q); nia).
  destruct Hw as [w Hw].
  destruct HC as [[H5 HC]|[H5 HC]].
  - (* C = C0 + 1 *)
    assert (Hr1 : r mod 5 = 1) by div_lia.
    assert (Hne : 2 * r <> P) by div_lia.
    assert (E1 : (q + 1) * P * D - N = (P - r + 1) * D - R) by nia.
    assert (E0 : q * P * D - N = - ((r - 1) * D + R)) by nia.
    destruct (Z.gtb_spec (2 * r) P) as [Hgt|Hle]; cbn [orb andb].
    + assert (2 * r >= P + 2) by lia. rewrite E1. nia.
    + destruct (Z.eqb_spec (2 * r) P); [lia|]. cbn [orb andb].
      assert (1 <= r) by div_lia. rewrite E0. nia.
  - assert (Hr1 : r mod 5 <> 0) by div_lia.
    assert (Hne : 2 * r <> P) by div_lia.
    assert (E1 : (q + 1) * P * D - N = (P - r) * D - R) by nia.
    assert (E0 : q * P * D - N = - (r * D + R)) by nia.
    destruct (Z.gtb_spec (2 * r) P) as [Hgt|Hle]; cbn [orb andb].
    + assert (2 * r >= P + 2) by lia. rewrite E1. nia.
    + destruct (Z.eqb_spec (2 * r) P); [lia|]. cbn [orb andb].
      assert (2 * r + 2 <= P) by lia. rewrite E0. nia.
Qed.

Lemma len_fuel_spec (fuel : nat) : forall n : N,
  (n < 2 ^ N.of_nat fuel)%N ->
  1 <= len_fuel fuel n /\
  Z.of_N n < 10 ^ len_fuel fuel n /\
  (n <> 0%N -> 10 ^ (len_fuel fuel n - 1) <= Z.of_N n).
Proof.
  induction fuel as [|fuel IH]; intros n Hn.
  - simpl in *. assert (n = 0%N) by lia. subst. simpl. repeat split; lia.
  - cbn [len_fuel]. destruct (N.ltb_spec n 10) as [Hlt|Hge].
    + repeat split; lia.
    + assert (Hdiv : (n / 10 < 2 ^ N.of_nat fuel)%N).
      { rewrite Nat2N.inj_succ, N.pow_succ_r' in Hn.
        apply N.Div0.div_lt_upper_bound. lia. }
      destruct (IH _ Hdiv) as (H1 & H2 & H3).
      assert (Hnz : (n / 10 <> 0)%N).
      { intros E. apply N.div_small_iff in E; lia. }
      specialize (H3 Hnz).
      set (l := len_fuel fuel (n / 10)) in *.
      replace (1 + l - 1) with l by lia.
      rewrite Z.pow_add_r, Z.pow_1_r by lia.
      assert (Hz : Z.of_N (n / 10) = Z.of_N n / 10) by (apply N2Z.inj_div).
      assert (Hp : 10 ^ l = 10 * 10 ^ (l - 1)).
      { replace l with (1 + (l - 1)) at 1 by lia.
        rewrite Z.pow_add_r by lia. reflexivity. }
      rewrite Hz in *. repeat split; try lia; intros; div_lia.
Qed.

Lemma len_spec (n : N) :
  1 <= len n /\ Z.of_N n < 10 ^ len n /\
  (n <> 0%N -> 10 ^ (len n - 1) <= Z.of_N n).
Proof.
  unfold len. apply len_fuel_spec. rewrite N2Nat.id. apply N.size_gt.
Qed.

Lemma len_pos (n : N) : 1 <= len n.
Proof. apply len_spec. Qed.

Lemma len_upper (n : N) : Z.of_N n < 10 ^ len n.
Proof. apply len_spec. Qed.

Lemma len_lower (n : N) : n <> 0%N -> 10 ^ (len n - 1) <= Z.of_N n.
Proof. apply len_spec. Qed.

Lemma pow10_lt_inv (a b : Z) : 0 <= a -> 0 <= b -> 10 ^ a < 10 ^ b -> a < b.
Proof. intros Ha Hb H. apply (Z.pow_lt_mono_r_iff 10); lia. Qed.

Lemma pow10_le (a b : Z) : 0 <= a <= b -> 10 ^ a <= 10 ^ b.
Proof. intros. apply Z.pow_le_mono_r; lia. Qed.

Lemma pow10_lt (a b : Z) : 0 <= a < b -> 10 ^ a < 10 ^ b.
Proof. intros. apply Z.pow_lt_mono_r; lia. Qed.

(** The number of digits is determined by the decade. *)
Lemma len_unique (n : N) (l : Z) :
  1 <= l -> 10 ^ (l - 1) <= Z.of_N n < 10 ^ l -> len n = l.
Proof.
  intros Hl [Hlo Hhi].
  assert (Hn : n <> 0%N).
  { intros ->. pose proof (pow10_pos_Z (l - 1) ltac:(lia)). simpl in Hlo. lia. }
  destruct (len_spec n) as (H1 & H2 & H3). specialize (H3 Hn).
  assert (l - 1 < len n) by (apply pow10_lt_inv; lia).
  assert (len n - 1 < l) by (apply pow10_lt_inv; lia).
  lia.
Qed.

Lemma pow10_Z (k : Z) : 0 <= k -> Z.of_N (pow10 k) = 10 ^ k.
Proof.
  intros Hk. unfold pow10. rewrite N2Z.inj_pow, Z2N.id by lia. reflexivity.
Qed.

Lemma pow10_neg (k : Z) : k <= 0 -> pow10 k = 1%N.
Proof.
  intros Hk. unfold pow10. replace (Z.to_N k) with 0%N by lia. reflexivity.
Qed.

Lemma pow10_succ (k : Z) : 1 <= k -> 10 ^ k = 10 * 10 ^ (k - 1).
Proof.
  intros Hk. replace k with (1 + (k - 1)) at 1 by lia.
  rewrite Z.pow_add_r by lia. reflexivity.
Qed.

(** The digit that follows the [k] last ones decides [2 * r >= 10^k]. *)
Lemma leading_dropped_digit (C k : Z) :
  0 <= C -> 1 <= k ->
  (5 <= (C / 10 ^ (k - 1)) mod 10 <-> 10 ^ k <= 2 * (C mod 10 ^ k)).
Proof.
  intros HC Hk. pose proof (pow10_succ k Hk) as HP.
  assert (HP' : 0 < 10 ^ (k - 1)) by (apply pow10_pos_Z; lia).
  remember (10 ^ k) as P eqn:EP. remember (10 ^ (k - 1)) as P' eqn:EP'.
  clear EP EP'.
  pose proof (Z.div_mod C P' ltac:(lia)) as Hd.
  pose proof (Z.mod_pos_bound C P' HP') as Hu.
  remember (C / P') as d eqn:Ed. remember (C mod P') as u eqn:Eu.
  clear Ed Eu.
  pose proof (Z.div_mod d 10 ltac:(lia)) as Ht.
  pose proof (Z.mod_pos_bound d 10 ltac:(lia)) as Htb.
  remember (d / 10) as q' eqn:Eq'. remember (d mod 10) as t eqn:Et.
  clear Eq' Et.
  pose proof (Z.div_mod C P ltac:(lia)) as Hq.
  pose proof (Z.mod_pos_bound C P ltac:(lia)) as Hr.
  destruct (Z.div_mod_unique P q' (C / P) (P' * t + u) (C mod P)) as [_ Er].
  - left. nia.
  - left. lia.
  - nia.
  - rewrite <- Er. nia.
Qed.

Lemma round_half_even_spec (C : N) (digits : Z) :
  C <> 0%N -> 0 <= digits < len C ->
  Z.of_N (take_digits C digits)
  + (if _round_half_even C digits >? 0 then 1 else 0)
  = rne_int (Z.of_N C) (len C - digits).
Proof.
  intros HC Hd.
  unfold _round_half_even, _round_half_up, _exact_half, _all_zeros,
    digit_at, take_digits, rne_int.
  set (k := len C - digits) in *.
  assert (Hk : 1 <= k) by lia.
  pose proof (pow10_succ k Hk) as HP.
  pose proof (leading_dropped_digit (Z.of_N C) k ltac:(lia) Hk) as Hdig.
  assert (HP' : 0 < 10 ^ (k - 1)) by (apply pow10_pos_Z; lia).
  assert (Eq : Z.of_N (C / pow10 k) = Z.of_N C / 10 ^ k).
  { rewrite N2Z.inj_div, pow10_Z by lia. reflexivity. }
  assert (Er : Z.of_N (C mod pow10 k) = Z.of_N C mod 10 ^ k).
  { rewrite N2Z.inj_mod, pow10_Z by lia. reflexivity. }
  assert (Ed : Z.of_N ((C / pow10 (k - 1)) mod 10)
               = (Z.of_N C / 10 ^ (k - 1)) mod 10).
  { rewrite N2Z.inj_mod, N2Z.inj_div, pow10_Z by lia. reflexivity. }
  assert (Eh : Z.of_N (5 * pow10 (k - 1)) = 5 * 10 ^ (k - 1)).
  { rewrite N2Z.inj_mul, pow10_Z by lia. reflexivity. }
  assert (Ezero : digits = 0 -> Z.of_N C / 10 ^ k = 0).
  { intros E0. apply Z.div_small. split; [lia|].
    replace k with (len C) by lia. apply len_upper. }
  assert (Eeven : N.even (C / pow10 k) = Z.even (Z.of_N C / 10 ^ k)).
  { rewrite <- Eq. destruct (C / pow10 k)%N as [|[p|p|]]; reflexivity. }
  rewrite Eeven, Eq.
  pose proof (Z.mod_pos_bound (Z.of_N C) (10 ^ k) ltac:(lia)) as Hr.
  generalize dependent (Z.of_N C / 10 ^ k). intros q Eq Ezero Eeven.
  rewrite <- Z.negb_even.
  destruct (N.eqb_spec (C mod pow10 k) (5 * pow10 (k - 1))) as [Hh|Hh];
    destruct (N.leb_spec 5 ((C / pow10 (k - 1)) mod 10)) as [H5|H5];
    destruct (N.eqb_spec (C mod pow10 k) 0) as [H0|H0];
    destruct (Z.eqb_spec digits 0) as [Hz|Hz];
    destruct (Z.even q) eqn:Hev;
    destruct (Z.gtb_spec (2 * (Z.of_N C mod 10 ^ k)) (10 ^ k)) as [Hg|Hg];
    destruct (Z.eqb_spec (2 * (Z.of_N C mod 10 ^ k)) (10 ^ k)) as [He|He];
    cbn [andb orb negb Z.gtb Z.compare]; try reflexivity; try lia;
    try (exfalso; rewrite (Ezero Hz) in Hev; simpl in Hev; discriminate Hev).
Qed.

Lemma len_gt_iff (n : N) (p : Z) :
  n <> 0%N -> 0 <= p -> (p < len n <-> 10 ^ p <= Z.of_N n).
Proof.
  intros Hn Hp. destruct (len_spec n) as (H1 & H2 & H3). split.
  - intros Hlt. specialize (H3 Hn).
    assert (10 ^ p <= 10 ^ (len n - 1)) by (apply pow10_le; lia). lia.
  - intros Hle. apply pow10_lt_inv; lia.
Qed.

Lemma div_pow10_lt (C L k : Z) :
  0 <= C < 10 ^ L -> 0 <= k <= L -> C / 10 ^ k < 10 ^ (L - k).
Proof.
  intros HC Hk. apply Z.div_lt_upper_bound.
  - apply pow10_pos_Z; lia.
  - rewrite <- Z.pow_add_r by lia. replace (k + (L - k)) with L by lia. lia.
Qed.

Lemma div_pow10_ge (C L k : Z) :
  10 ^ (L - 1) <= C -> 0 <= k <= L - 1 -> 10 ^ (L - 1 - k) <= C / 10 ^ k.
Proof.
  intros HC Hk. apply Z.div_le_lower_bound.
  - apply pow10_pos_Z; lia.
  - rewrite <- Z.pow_add_r by lia. replace (k + (L - 1 - k)) with (L - 1) by lia.
    lia.
Qed.

Lemma rne_int_ge_quot (C k : Z) : C / 10 ^ k <= rne_int C k <= C / 10 ^ k + 1.
Proof.
  unfold rne_int.
  destruct (orb _ _); lia.
Qed.

Lemma geb_false (a b : Z) : a < b -> (a >=? b) = false.
Proof. intros. rewrite Z.geb_leb. apply Z.leb_gt. lia. Qed.

Lemma geb_true (a b : Z) : b <= a -> (a >=? b) = true.
Proof. intros. rewrite Z.geb_leb. apply Z.leb_le. lia. Qed.

Lemma gtb_false (a b : Z) : a <= b -> (a >? b) = false.
Proof. intros. rewrite Z.gtb_ltb. apply Z.ltb_ge. lia. Qed.

Lemma gtb_true (a b : Z) : b < a -> (a >? b) = true.
Proof. intros. rewrite Z.gtb_ltb. apply Z.ltb_lt. lia. Qed.

Lemma fix_spec (context : Context) (s : bool) (C : N) (e : Z) :
  valid_context context -> C <> 0%N ->
  let g := grid context C e in
  let m := rounded context C e in
  match _fix (_dec_from_triple s C e) context with
  | Trap sig =>
      sig = Overflow /\
      ((Etop context < g /\ 10 ^ (prec context - 1) <= m) \/
       (g = Etop context /\ m = 10 ^ prec context))
  | Value d =>
      _sign d = s /\ g <= _exp d /\
      Z.of_N (_int d) * 10 ^ (_exp d - g) = m /\
      ((m < 10 ^ prec context /\ g <= Etop context) \/
       (m = 10 ^ prec context /\ g < Etop context))
  end.
Proof.
  intros (Hprec & Hmin & Hmax) HC g m.
  assert (Htt : Etiny context <= Etop context) by (unfold Etiny, Etop; lia).
  destruct (len_spec C) as (HL1 & HLu & HLl). specialize (HLl HC).
  unfold _fix, __bool__. cbn [_int _exp _sign].
  replace (C =? 0)%N with false by (symmetry; apply N.eqb_neq; exact HC).
  cbn [negb].
  unfold m, rounded. fold g. unfold g, grid.
  set (L := len C) in *. set (p := prec context) in *.
  set (Et := Etiny context) in *. set (Eo := Etop context) in *.
  destruct (Z.gtb_spec (L + e - p) Eo) as [Hov|Hov]; cbv beta iota zeta.
  - (* above Emax *)
    split; [reflexivity|]. left.
    rewrite Z.max_l by lia. split; [lia|].
    destruct (Z.geb_spec e (L + e - p)) as [Hge|Hlt].
    + replace (e - (L + e - p)) with (p - L) by lia.
      replace (p - 1) with ((L - 1) + (p - L)) by lia.
      rewrite Z.pow_add_r by lia.
      apply Z.mul_le_mono_nonneg_r; [apply Z.lt_le_incl, pow10_pos_Z; lia | lia].
    + replace (L + e - (L + e - p) <? 0) with false by (symmetry; apply Z.ltb_ge; lia).
      replace (L + e - p - e) with (L - p) by lia.
      pose proof (rne_int_ge_quot (Z.of_N C) (L - p)).
      pose proof (div_pow10_ge (Z.of_N C) L (L - p) HLl ltac:(lia)).
      replace (L - 1 - (L - p)) with (p - 1) in * by lia. lia.
  - assert (Eg : (if L + e - p <? Et then Et else L + e - p)
                 = Z.max (L + e - p) Et).
    { destruct (Z.ltb_spec (L + e - p) Et); lia. }
    rewrite Eg. set (g0 := Z.max (L + e - p) Et) in *.
    assert (Hg0 : g0 <= Eo) by lia.
    destruct (Z.ltb_spec e g0) as [Hlt|Hge]; cbv beta iota zeta.
    + (* rounding *)
      rewrite (geb_false e g0) by lia.
      destruct (Z.ltb_spec (L + e - g0) 0) as [Hneg|Hdig]; cbv beta iota zeta.
      * (* all digits and more are dropped *)
        replace (_round_half_even 1 0 >? 0) with false by reflexivity.
        replace (take_digits 1 0) with 0%N by reflexivity.
        rewrite (gtb_false g0 Eo) by lia.
        cbn [_sign _int _exp].
        split; [reflexivity|]. split; [lia|]. split; [lia|].
        left. split; [apply pow10_pos_Z; lia | lia].
      * pose proof (round_half_even_spec C (L + e - g0) HC ltac:(fold L; lia))
          as Hrne. fold L in Hrne.
        replace (L - (L + e - g0)) with (g0 - e) in Hrne by lia.
        assert (Hq : Z.of_N (take_digits C (L + e - g0)) < 10 ^ (L + e - g0)).
        { unfold take_digits. fold L.
          rewrite N2Z.inj_div, pow10_Z by lia.
          replace (L + e - g0) with (L - (L - (L + e - g0))) at 2 by lia.
          apply div_pow10_lt; lia. }
        assert (Hdp : 10 ^ (L + e - g0) <= 10 ^ p) by (apply pow10_le; lia).
        set (q := take_digits C (L + e - g0)) in *.
        destruct (_round_half_even C (L + e - g0) >? 0); cbv beta iota zeta.
        -- assert (Hq1 : (q + 1)%N <> 0%N) by lia.
           pose proof (len_gt_iff (q + 1)%N p Hq1 ltac:(lia)) as Hlen.
           destruct (Z.gtb_spec (len (q + 1)%N) p) as [Hc|Hc]; cbv beta iota zeta.
           ++ apply Hlen in Hc.
              assert (Em : rne_int (Z.of_N C) (g0 - e) = 10 ^ p) by lia.
              assert (Eg0 : g0 = L + e - p).
              { destruct (Z.eq_dec (L + e - g0) p); [lia|].
                assert (10 ^ (L + e - g0) < 10 ^ p) by (apply pow10_lt; lia).
                lia. }
              pose proof (pow10_succ p ltac:(lia)) as Hps.
              destruct (Z.gtb_spec (g0 + 1) Eo) as [Ho|Ho]; cbv beta iota zeta.
              ** split; [reflexivity|]. right. split; lia.
              ** cbn [_sign _int _exp]. rewrite Em.
                 replace (g0 + 1 - g0) with 1 by lia. rewrite Z.pow_1_r.
                 rewrite N2Z.inj_div. change (Z.of_N 10) with 10.
                 repeat split; try lia.
                 { assert (Z.of_N (q + 1) = 10 * 10 ^ (p - 1)) by lia.
                   div_lia. }
           ++ assert (Hlt' : Z.of_N (q + 1) < 10 ^ p) by lia.
              rewrite (gtb_false g0 Eo) by lia.
              cbn [_sign _int _exp]. rewrite Z.sub_diag, Z.pow_0_r.
              repeat split; try lia.
        -- rewrite (gtb_false g0 Eo) by lia.
           cbn [_sign _int _exp]. rewrite Z.sub_diag, Z.pow_0_r.
           repeat split; try lia.
    + (* representable as it is *)
      rewrite (geb_true e g0) by lia.
      cbn [_sign _int _exp]. repeat split; try lia.
      left. split; [|lia].
      assert (Z.of_N C * 10 ^ (e - g0) < 10 ^ L * 10 ^ (e - g0)).
      { apply Z.mul_lt_mono_pos_r; [apply pow10_pos_Z; lia | lia]. }
      rewrite <- Z.pow_add_r in H by lia.
      assert (10 ^ (L + (e - g0)) <= 10 ^ p) by (apply pow10_le; lia).
      lia.
Qed.

(** ** Rounding over the rationals: division is correctly rounded *)

Local Open Scope Q_scope.

Lemma Qp_pos (e : Z) : 0 < 10 ^ e.
Proof. apply Qpower_0_lt. reflexivity. Qed.

Lemma Qp_add (a b : Z) : 10 ^ (a + b) == 10 ^ a * 10 ^ b.
Proof. apply Qpower_plus. discriminate. Qed.

Lemma Qp_sub (a b : Z) : 10 ^ (a - b) == 10 ^ a / 10 ^ b.
Proof.
  unfold Z.sub. rewrite Qp_add, Qpower_opp. reflexivity.
Qed.

Lemma Qp_inject (k : Z) : (0 <= k)%Z -> inject_Z (10 ^ k) == 10 ^ k.
Proof. intros Hk. rewrite Zpower_Qpower by exact Hk. reflexivity. Qed.

Lemma Qp_le (a b : Z) : (a <= b)%Z -> 10 ^ a <= 10 ^ b.
Proof. intros H. apply Qpower_le_compat_l; [exact H | discriminate]. Qed.

Lemma Qp_lt (a b : Z) : (a < b)%Z -> 10 ^ a < 10 ^ b.
Proof. intros H. apply Qpower_lt_compat_l; [exact H | reflexivity]. Qed.

Lemma Qp_lt_inv (a b : Z) : 10 ^ a < 10 ^ b -> (a < b)%Z.
Proof. intros H. apply (Qpower_lt_compat_l_inv (10 # 1)); [exact H | reflexivity]. Qed.

Lemma Qp_le_inv (a b : Z) : 10 ^ a <= 10 ^ b -> (a <= b)%Z.
Proof. intros H. apply (Qpower_le_compat_l_inv (10 # 1)); [exact H | reflexivity]. Qed.

Lemma Qle_inject (a b : Z) : (a <= b)%Z -> inject_Z a <= inject_Z b.
Proof. intros H. rewrite <- Zle_Qle. exact H. Qed.

Lemma Qlt_inject (a b : Z) : (a < b)%Z -> inject_Z a < inject_Z b.
Proof. intros H. rewrite <- Zlt_Qlt. exact H. Qed.

Lemma Qle_inject_inv (a b : Z) : inject_Z a <= inject_Z b -> (a <= b)%Z.
Proof. intros H. rewrite Zle_Qle. exact H. Qed.

Lemma Qlt_inject_inv (a b : Z) : inject_Z a < inject_Z b -> (a < b)%Z.
Proof. intros H. rewrite Zlt_Qlt. exact H. Qed.

Lemma nearest_even_wd (y y' : Q) (m : Z) :
  y == y' -> nearest_even y m -> nearest_even y' m.
Proof.
  intros E [H1 H2]. split.
  - rewrite <- E. exact H1.
  - intros H. apply H2. rewrite E. exact H.
Qed.

Lemma nearest_even_opp (y : Q) (m : Z) :
  nearest_even y m -> nearest_even (- y) (- m).
Proof.
  intros [H1 H2].
  assert (E : Qabs (inject_Z (- m) - - y) == Qabs (inject_Z m - y)).
  { rewrite <- (Qabs_opp (inject_Z m - y)). apply Qabs_wd.
    rewrite inject_Z_opp. ring. }
  split.
  - rewrite E. exact H1.
  - intros H. rewrite Z.even_opp. apply H2. rewrite <- E. exact H.
Qed.

Lemma nearest_even_exact (m : Z) : nearest_even (inject_Z m) m.
Proof.
  assert (E : Qabs (inject_Z m - inject_Z m) == 0).
  { setoid_replace (inject_Z m - inject_Z m) with 0 by ring. reflexivity. }
  split.
  - rewrite E. discriminate.
  - rewrite E. intros H. discriminate H.
Qed.

(** Uniqueness of the nearest-even integer. *)
Lemma nearest_even_unique (y : Q) (m1 m2 : Z) :
  nearest_even y m1 -> nearest_even y m2 -> m1 = m2.
Proof.
  intros [H1 E1] [H2 E2].
  apply Qabs_Qle_condition in H1, H2.
  destruct (Z.eq_dec m1 m2) as [|Hne]; [assumption|exfalso].
  assert (Hd : (m1 + 1 <= m2)%Z \/ (m2 + 1 <= m1)%Z) by lia.
  destruct Hd as [Hd|Hd]; apply Qle_inject in Hd;
    rewrite inject_Z_plus in Hd; change (inject_Z 1) with 1 in Hd.
  - assert (Ea : inject_Z m1 - y == - (1 # 2)) by lra.
    assert (Eb : inject_Z m2 - y == 1 # 2) by lra.
    assert (Ec : inject_Z m2 == inject_Z (m1 + 1)).
    { rewrite inject_Z_plus. change (inject_Z 1) with 1. lra. }
    apply (proj1 (inject_Z_injective _ _)) in Ec.
    assert (Z.even m1 = true).
    { apply E1. rewrite Ea. reflexivity. }
    assert (Z.even m2 = true).
    { apply E2. rewrite Eb. reflexivity. }
    subst m2. rewrite Z.add_1_r, Z.even_succ, <- Z.negb_even in H0.
    rewrite H in H0. discriminate.
  - assert (Ea : inject_Z m2 - y == - (1 # 2)) by lra.
    assert (Eb : inject_Z m1 - y == 1 # 2) by lra.
    assert (Ec : inject_Z m1 == inject_Z (m2 + 1)).
    { rewrite inject_Z_plus. change (inject_Z 1) with 1. lra. }
    apply (proj1 (inject_Z_injective _ _)) in Ec.
    assert (Z.even m1 = true).
    { apply E1. rewrite Eb. reflexivity. }
    assert (Z.even m2 = true).
    { apply E2. rewrite Ea. reflexivity. }
    subst m1. rewrite Z.add_1_r, Z.even_succ, <- Z.negb_even in H.
    rewrite H0 in H. discriminate.
Qed.

Ltac push_inject :=
  unfold Z.sub;
  repeat (rewrite inject_Z_plus || rewrite inject_Z_mult
          || rewrite inject_Z_opp).

Ltac push_inject_in H :=
  unfold Z.sub in H;
  repeat (rewrite inject_Z_plus in H || rewrite inject_Z_mult in H
          || rewrite inject_Z_opp in H).

Lemma nearest_even_frac (m A B : Z) :
  (0 < B)%Z ->
  (2 * Z.abs (m * B - A) <= B)%Z ->
  ((2 * Z.abs (m * B - A) = B)%Z -> Z.even m = true) ->
  nearest_even (inject_Z A / inject_Z B) m.
Proof.
  intros HB Hle Htie.
  assert (Hb : 0 < inject_Z B) by (apply (Qlt_inject 0); exact HB).
  assert (Hz : inject_Z A / inject_Z B * inject_Z B == inject_Z A).
  { field. intros E. rewrite E in Hb. discriminate Hb. }
  set (z := inject_Z A / inject_Z B) in *.
  assert (Hlo : (- B <= 2 * (m * B - A))%Z) by lia.
  assert (Hhi : (2 * (m * B - A) <= B)%Z) by lia.
  apply Qle_inject in Hlo, Hhi.
  push_inject_in Hlo. push_inject_in Hhi.
  change (inject_Z 2) with 2 in *.
  split.
  - rewrite <- Hz in Hlo, Hhi.
    apply Qabs_Qle_condition.
    split; apply (Qmult_le_r _ _ (inject_Z B) Hb); lra.
  - intros Hhalf. apply Htie.
    assert (Hcase : inject_Z m - z == 1 # 2 \/ inject_Z m - z == - (1 # 2)).
    { revert Hhalf. apply Qabs_case; intros Hs Hh; [left | right]; lra. }
    destruct Hcase as [Hc|Hc].
    + assert (E : inject_Z (2 * (m * B - A)) == inject_Z B).
      { push_inject. change (inject_Z 2) with 2. rewrite <- Hz.
        setoid_replace (inject_Z m) with (z + (1 # 2)) by lra. ring. }
      apply (proj1 (inject_Z_injective _ _)) in E. lia.
    + assert (E : inject_Z (2 * (m * B - A)) == inject_Z (- B)).
      { push_inject. change (inject_Z 2) with 2. rewrite <- Hz.
        setoid_replace (inject_Z m) with (z - (1 # 2)) by lra. ring. }
      apply (proj1 (inject_Z_injective _ _)) in E. lia.
Qed.

Lemma nearest_even_frac_strict (m A B : Z) :
  (0 < B)%Z ->
  (2 * Z.abs (m * B - A) < B)%Z ->
  nearest_even (inject_Z A / inject_Z B) m.
Proof.
  intros HB Hlt. apply nearest_even_frac; [exact HB | lia | lia].
Qed.

(** The lemmas on rounding share the context and the constraints that
    Python puts on it. *)
Section Rounding.

Variable context : Context.
Hypothesis context_valid : valid_context context.

Lemma grid_exponent_unique (x : Q) (g1 g2 : Z) :
  grid_exponent context x g1 -> grid_exponent context x g2 -> g1 = g2.
Proof.
  intros [[E1 H1]|(L1 & H1 & U1)] [[E2 H2]|(L2 & H2 & U2)].
  - congruence.
  - assert (H : 10 ^ (g2 + prec context - 1)
                < 10 ^ (Etiny context + prec context - 1))
      by (eapply Qle_lt_trans; eassumption).
    apply Qp_lt_inv in H. lia.
  - assert (H : 10 ^ (g1 + prec context - 1)
                < 10 ^ (Etiny context + prec context - 1))
      by (eapply Qle_lt_trans; eassumption).
    apply Qp_lt_inv in H. lia.
  - assert (Ha : 10 ^ (g1 + prec context - 1) < 10 ^ (g2 + prec context))
      by (eapply Qle_lt_trans; eassumption).
    assert (Hb : 10 ^ (g2 + prec context - 1) < 10 ^ (g1 + prec context))
      by (eapply Qle_lt_trans; eassumption).
    apply Qp_lt_inv in Ha, Hb. lia.
Qed.

Lemma grid_exponent_wd (x x' : Q) (g : Z) :
  x == x' -> grid_exponent context x g -> grid_exponent context x' g.
Proof.
  intros E [[E1 H1]|(L1 & H1 & U1)]; [left | right].
  - split; [exact E1 | rewrite <- E; exact H1].
  - split; [exact L1 | split; rewrite <- E; assumption].
Qed.

Lemma rounded_nonneg (C : N) (e : Z) :
  (0 <= rounded context C e)%Z.
Proof.
  unfold rounded.
  destruct (e >=? grid context C e)%Z.
  - apply Z.mul_nonneg_nonneg; [lia | apply Z.pow_nonneg; lia].
  - destruct (len C + e - grid context C e <? 0)%Z; [lia|].
    pose proof (rne_int_ge_quot (Z.of_N C) (grid context C e - e)) as H.
    assert (0 <= Z.of_N C / 10 ^ (grid context C e - e))%Z.
    { destruct (Z.le_gt_cases 0 (grid context C e - e)) as [Hk|Hk].
      - apply Z.div_pos; [lia | apply pow10_pos_Z; exact Hk].
      - rewrite Z.pow_neg_r, Z.div_0_r by lia. lia. }
    lia.
Qed.

Lemma Qabs_signed (s : bool) (x : Q) :
  0 <= x -> Qabs (inject_Z (minus_one_pow s) * x) == x.
Proof.
  intros Hx. destruct s; unfold minus_one_pow.
  - setoid_replace (inject_Z (-1) * x) with (- x) by ring.
    rewrite Qabs_opp. apply Qabs_pos. exact Hx.
  - setoid_replace (inject_Z 1 * x) with x by ring.
    apply Qabs_pos. exact Hx.
Qed.

Lemma fix_rounds_core (s : bool) (C : N) (e : Z) (X : Q) :
  C <> 0%N ->
  10 ^ (len C + e - 1) <= X -> X < 10 ^ (len C + e) ->
  nearest_even (X / 10 ^ grid context C e) (rounded context C e) ->
  rounds_to context (inject_Z (minus_one_pow s) * X)
    (_fix (_dec_from_triple s C e) context).
Proof.
  intros HC Hlo Hhi Hnear. pose proof context_valid as Hv.
  pose proof (fix_spec context s C e Hv HC) as Hfix. cbv zeta in Hfix.
  pose proof (rounded_nonneg C e) as Hm0.
  destruct Hv as (Hprec & Hmin & Hmax).
  set (g := grid context C e) in *. set (m := rounded context C e) in *.
  assert (HX : 0 < X).
  { eapply Qlt_le_trans; [apply (Qp_pos (len C + e - 1)) | exact Hlo]. }
  assert (Hgp : 0 < 10 ^ g) by apply Qp_pos.
  assert (Habs : Qabs (inject_Z (minus_one_pow s * m) * 10 ^ g)
                 == inject_Z m * 10 ^ g).
  { rewrite inject_Z_mult, <- Qmult_assoc. apply Qabs_signed.
    apply Qmult_le_0_compat; [apply (Qle_inject 0); exact Hm0 | lra]. }
  exists g, (minus_one_pow s * m)%Z. split; [|split].
  - (* the exponent of the last digit *)
    assert (Hax : Qabs (inject_Z (minus_one_pow s) * X) == X)
      by (apply Qabs_signed; lra).
    unfold grid_exponent. unfold g, grid.
    destruct (Z.le_gt_cases (Etiny context) (len C + e - prec context))
      as [Hn|Hsub].
    + right. rewrite Z.max_l by lia.
      replace (len C + e - prec context + prec context - 1)%Z
        with (len C + e - 1)%Z by lia.
      replace (len C + e - prec context + prec context)%Z
        with (len C + e)%Z by lia.
      rewrite Hax. auto.
    + left. rewrite Z.max_r by lia. split; [reflexivity|].
      rewrite Hax.
      eapply Qlt_le_trans; [exact Hhi | apply Qp_le; lia].
  - (* nearest, ties to even *)
    destruct s; unfold minus_one_pow.
    + apply (nearest_even_wd (- (X / 10 ^ g))).
      { field. lra. }
      replace (-1 * m)%Z with (- m)%Z by lia.
      apply nearest_even_opp. exact Hnear.
    + apply (nearest_even_wd (X / 10 ^ g)).
      { field. lra. }
      replace (1 * m)%Z with m by lia. exact Hnear.
  - destruct (_fix (_dec_from_triple s C e) context) as [d|sig].
    + destruct Hfix as (Hs & Hge & Hval & Hbound).
      split.
      * assert (E : 10 ^ _exp d == inject_Z (10 ^ (_exp d - g)) * 10 ^ g).
        { rewrite Qp_inject, <- Qp_add by lia. 
          replace (_exp d - g + g)%Z with (_exp d) by lia. reflexivity. }
        unfold to_Q, signed_int. rewrite Hs, <- Hval, E.
        rewrite !inject_Z_mult. ring.
      * rewrite Habs.
        replace (Emax context + 1)%Z with (prec context + Etop context)%Z
          by (unfold Etop; lia).
        destruct Hbound as [[Hlt Hg]|[He Hg]].
        -- apply Qlt_inject in Hlt. rewrite Qp_inject in Hlt by lia.
           apply Qlt_le_trans with (10 ^ prec context * 10 ^ g).
           ++ apply Qmult_lt_r; assumption.
           ++ rewrite <- Qp_add. apply Qp_le. lia.
        -- rewrite He, Qp_inject, <- Qp_add by lia. apply Qp_lt. lia.
    + destruct Hfix as (Hs & Hbound). split; [exact Hs|].
      rewrite Habs.
      destruct Hbound as [[Hg Hle]|[He Hg]].
      * apply Qle_inject in Hle. rewrite Qp_inject in Hle by lia.
        apply Qle_trans with (10 ^ (prec context - 1) * 10 ^ g).
        -- rewrite <- Qp_add. apply Qp_le. unfold Etop in Hg. lia.
        -- apply Qmult_le_r; assumption.
      * rewrite Hg, Qp_inject, <- Qp_add by lia. apply Qp_le.
        unfold Etop in *. lia.
Qed.

Lemma nearest_even_zero (y : Q) : 0 <= y -> y < 1 # 2 -> nearest_even y 0.
Proof.
  intros H0 Hh. split.
  - apply Qabs_Qle_condition. change (inject_Z 0) with 0. split; lra.
  - change (inject_Z 0) with 0. intros _. reflexivity.
Qed.

Lemma Qp_neg_one : 10 ^ (-1) == 1 # 10.
Proof. reflexivity. Qed.

(** A positive magnitude below [10^(L+e)] is less than half of [10^g] when
    [L + e < g]. *)
Lemma below_half_grid (X : Q) (a g : Z) :
  0 < X -> X < 10 ^ a -> (a < g)%Z -> nearest_even (X / 10 ^ g) 0.
Proof.
  intros HX Hlt Hag.
  assert (Hg : 0 < 10 ^ g) by apply Qp_pos.
  apply nearest_even_zero.
  - apply Qle_shift_div_l; [exact Hg | lra].
  - apply Qlt_shift_div_r; [exact Hg|].
    apply Qlt_le_trans with (10 ^ a); [exact Hlt|].
    apply Qle_trans with (10 ^ (g - 1)); [apply Qp_le; lia|].
    unfold Z.sub. rewrite Qp_add, Qp_neg_one. lra.
Qed.

Lemma to_Q_triple (s : bool) (C : N) (e : Z) :
  to_Q (_dec_from_triple s C e)
  == inject_Z (minus_one_pow s) * (inject_Z (Z.of_N C) * 10 ^ e).
Proof.
  unfold to_Q, signed_int. cbn [_sign _int _exp].
  rewrite inject_Z_mult. ring.
Qed.

Lemma magnitude_decade (C : N) (e : Z) :
  C <> 0%N ->
  10 ^ (len C + e - 1) <= inject_Z (Z.of_N C) * 10 ^ e /\
  inject_Z (Z.of_N C) * 10 ^ e < 10 ^ (len C + e).
Proof.
  intros HC. destruct (len_spec C) as (H1 & Hu & Hl). specialize (Hl HC).
  assert (He : 0 < 10 ^ e) by apply Qp_pos.
  apply Qle_inject in Hl. apply Qlt_inject in Hu.
  rewrite Qp_inject in Hl, Hu by lia.
  split.
  - replace (len C + e - 1)%Z with ((len C - 1) + e)%Z by lia.
    rewrite Qp_add. apply Qmult_le_r; assumption.
  - rewrite Qp_add. apply Qmult_lt_r; assumption.
Qed.

Lemma fix_rounds_exact (d : Decimal) :
  _int d <> 0%N ->
  rounds_to context (to_Q d) (_fix d context).
Proof.
  destruct d as [s C e]. cbn [_int]. intros HC.
  destruct (magnitude_decade C e HC) as [Hlo Hhi].
  set (X := inject_Z (Z.of_N C) * 10 ^ e) in *.
  assert (HX : 0 < X).
  { eapply Qlt_le_trans; [apply (Qp_pos (len C + e - 1)) | exact Hlo]. }
  assert (Hr : rounds_to context (inject_Z (minus_one_pow s) * X)
                 (_fix (_dec_from_triple s C e) context)).
  { apply fix_rounds_core; try assumption.
    unfold rounded. set (g := grid context C e).
    assert (Hg : 0 < 10 ^ g) by apply Qp_pos.
    destruct (Z.geb_spec e g) as [Hge|Hlt].
    - apply (nearest_even_wd (inject_Z (Z.of_N C * 10 ^ (e - g)))).
      + rewrite inject_Z_mult, Qp_inject, Qp_sub by lia. unfold X.
        field. lra.
      + apply nearest_even_exact.
    - destruct (Z.ltb_spec (len C + e - g) 0) as [Hneg|Hdig].
      + apply (below_half_grid X (len C + e) g); [exact HX | exact Hhi | lia].
      + apply (nearest_even_wd
                 (inject_Z (Z.of_N C) / inject_Z (10 ^ (g - e)))).
        * rewrite Qp_inject, Qp_sub by lia. unfold X. field.
          split; apply Qnot_eq_sym, Qlt_not_eq, Qp_pos.
        * destruct (rne_int_nearest (Z.of_N C) (g - e)) as [Hle Htie];
            [lia | lia |].
          apply nearest_even_frac;
            [apply pow10_pos_Z; lia | exact Hle | exact Htie]. }
  destruct Hr as (g & m & Hg & Hn & Hm).
  exists g, m. split; [|split].
  - unfold grid_exponent in *. rewrite to_Q_triple. exact Hg.
  - eapply nearest_even_wd; [|exact Hn]. rewrite to_Q_triple. reflexivity.
  - exact Hm.
Qed.

Lemma rounds_to_wd (x x' : Q) (o : result Decimal) :
  x == x' -> rounds_to context x o -> rounds_to context x' o.
Proof.
  intros E (g & m & Hg & Hn & Hm). exists g, m. split; [|split].
  - eapply grid_exponent_wd; eassumption.
  - eapply nearest_even_wd; [|exact Hn]. rewrite E. reflexivity.
  - exact Hm.
Qed.

Lemma rounds_to_zero (x : Q) (d : Decimal) :
  x == 0 -> to_Q d == 0 ->
  rounds_to context x (Value d).
Proof.
  intros Hx Hd. destruct context_valid as (Hp & Hmin & Hmax).
  exists (Etiny context), 0%Z.
  change (inject_Z 0) with 0. split; [|split].
  - left. split; [reflexivity|]. rewrite Hx. apply Qp_pos.
  - apply (nearest_even_wd 0).
    + rewrite Hx. field. apply Qnot_eq_sym, Qlt_not_eq, Qp_pos.
    + apply (nearest_even_exact 0).
  - split.
    + rewrite Hd. ring.
    + setoid_replace (0 * 10 ^ Etiny context) with 0 by ring. apply Qp_pos.
Qed.

Lemma fix_zero (s : bool) (e : Z) :
  exists e', _fix (_dec_from_triple s 0 e) context
             = Value (_dec_from_triple s 0 e').
Proof.
  unfold _fix, __bool__. cbn [_int _exp _sign N.eqb negb].
  destruct (negb _); eexists; reflexivity.
Qed.

Lemma to_Q_zero (s : bool) (e : Z) : to_Q (_dec_from_triple s 0 e) == 0.
Proof. rewrite to_Q_triple. change (inject_Z (Z.of_N 0)) with 0. ring. Qed.

Lemma strip_zeros_spec (fuel : nat) : forall (c : N) (e : Z),
  c <> 0%N ->
  fst (strip_zeros fuel c e) <> 0%N /\
  (e <= snd (strip_zeros fuel c e))%Z /\
  (Z.of_N (fst (strip_zeros fuel c e))
   * 10 ^ (snd (strip_zeros fuel c e) - e) = Z.of_N c)%Z.
Proof.
  induction fuel as [|fuel IH]; intros c e Hc; cbn [strip_zeros].
  - cbn [fst snd]. rewrite Z.sub_diag. repeat split; lia.
  - destruct (N.eqb_spec (c mod 10) 0) as [Hz|Hnz].
    + assert (Hc' : (c / 10 <> 0)%N).
      { intros E. apply N.div_small_iff in E; [|lia].
        rewrite N.mod_small in Hz by exact E. contradiction. }
      destruct (IH (c / 10)%N (e + 1)%Z Hc') as (H1 & H2 & H3).
      split; [exact H1 | split; [lia|]].
      set (c' := fst (strip_zeros fuel (c / 10) (e + 1))) in *.
      set (e' := snd (strip_zeros fuel (c / 10) (e + 1))) in *.
      replace (e' - e)%Z with (1 + (e' - (e + 1)))%Z by lia.
      rewrite Z.pow_add_r, Z.pow_1_r by lia.
      assert (Hd : (Z.of_N c = 10 * Z.of_N (c / 10))%Z).
      { rewrite N2Z.inj_div. change (Z.of_N 10) with 10%Z.
        assert (Z.of_N c mod 10 = 0)%Z.
        { change 10%Z with (Z.of_N 10). rewrite <- N2Z.inj_mod, Hz.
          reflexivity. }
        div_lia. }
      rewrite Hd, <- H3. ring.
    + cbn [fst snd]. rewrite Z.sub_diag. repeat split; lia.
Qed.

Lemma fix_rounds_sticky (s : bool) (C : N) (e : Z)
  (N D C0 R : Z) :
  (N = C0 * D + R)%Z -> (0 < R < D)%Z -> (10 ^ prec context <= C0)%Z ->
  Z.of_N C = (if (C0 mod 5 =? 0)%Z then C0 + 1 else C0)%Z ->
  rounds_to context
    (inject_Z (minus_one_pow s) * (inject_Z N / inject_Z D * 10 ^ e))
    (_fix (_dec_from_triple s C e) context).
Proof.
  intros HN HR HC0 HC.
  pose proof context_valid as (Hprec & Hmin & Hmax).
  assert (Hpp : (0 < 10 ^ prec context)%Z) by (apply pow10_pos_Z; lia).
  assert (HCb : (C0 <= Z.of_N C <= C0 + 1)%Z)
    by (rewrite HC; destruct (C0 mod 5 =? 0)%Z; lia).
  assert (HCnz : C <> 0%N) by lia.
  destruct (len_spec C) as (HL1 & HLu & HLl). specialize (HLl HCnz).
  assert (HL : (prec context < len C)%Z)
    by (apply len_gt_iff; [exact HCnz | lia | lia]).
  set (L := len C) in *.
  assert (Hlow : (10 ^ (L - 1) <= C0)%Z).
  { rewrite HC in HLl.
    destruct (Z.eqb_spec (C0 mod 5) 0) as [H5|H5]; [|exact HLl].
    pose proof (pow10_succ (L - 1) ltac:(lia)) as Hs.
    assert (C0 + 1 <> 10 ^ (L - 1))%Z by div_lia. lia. }
  assert (Hupp : (C0 + 1 <= 10 ^ L)%Z).
  { rewrite HC in HLu. destruct (C0 mod 5 =? 0)%Z; lia. }
  assert (HD : 0 < inject_Z D) by (apply (Qlt_inject 0); lia).
  assert (HDnz : ~ inject_Z D == 0).
  { intros E. rewrite E in HD. discriminate HD. }
  assert (Hq1 : inject_Z C0 <= inject_Z N / inject_Z D).
  { apply Qle_shift_div_l; [exact HD|].
    rewrite <- inject_Z_mult. apply Qle_inject. nia. }
  assert (Hq2 : inject_Z N / inject_Z D < inject_Z (C0 + 1)).
  { apply Qlt_shift_div_r; [exact HD|].
    rewrite <- inject_Z_mult. apply Qlt_inject. nia. }
  assert (He : 0 < 10 ^ e) by apply Qp_pos.
  set (X := inject_Z N / inject_Z D * 10 ^ e).
  assert (Hlo : 10 ^ (L + e - 1) <= X).
  { replace (L + e - 1)%Z with ((L - 1) + e)%Z by lia.
    rewrite Qp_add. unfold X. apply Qmult_le_r; [exact He|].
    apply Qle_trans with (inject_Z C0); [|exact Hq1].
    rewrite <- Qp_inject by lia. apply Qle_inject. exact Hlow. }
  assert (Hhi : X < 10 ^ (L + e)).
  { rewrite Qp_add. unfold X. apply Qmult_lt_r; [exact He|].
    apply Qlt_le_trans with (inject_Z (C0 + 1)); [exact Hq2|].
    rewrite <- Qp_inject by lia. apply Qle_inject. exact Hupp. }
  assert (HX : 0 < X).
  { eapply Qlt_le_trans; [apply (Qp_pos (L + e - 1)) | exact Hlo]. }
  apply fix_rounds_core; try assumption.
  unfold rounded. fold L. set (g := grid context C e).
  assert (Hge : (L + e - prec context <= g)%Z) by (unfold g, grid; fold L; lia).
  rewrite (geb_false e g) by lia.
  destruct (Z.ltb_spec (L + e - g) 0) as [Hneg|Hdig].
  - apply (below_half_grid X (L + e) g); [exact HX | exact Hhi | lia].
  - assert (Hk : (1 <= g - e)%Z) by lia.
    assert (HP : (0 < 10 ^ (g - e))%Z) by (apply pow10_pos_Z; lia).
    apply (nearest_even_wd (inject_Z N / inject_Z (10 ^ (g - e) * D))).
    + rewrite inject_Z_mult, Qp_inject, Qp_sub by lia. unfold X. field.
      repeat split; try exact HDnz;
        apply Qnot_eq_sym, Qlt_not_eq, Qp_pos.
    + apply nearest_even_frac_strict; [nia|].
      pose proof (rne_int_sticky N D C0 R (g - e) HN HR ltac:(lia) Hk) as Hst.
      rewrite <- HC in Hst.
      replace (rne_int (Z.of_N C) (g - e) * (10 ^ (g - e) * D))%Z
        with (rne_int (Z.of_N C) (g - e) * 10 ^ (g - e) * D)%Z by ring.
      exact Hst.
Qed.

Lemma div_eucl_pair (a b : N) : N.div_eucl a b = ((a / b)%N, (a mod b)%N).
Proof. unfold N.div, N.modulo. destruct (N.div_eucl a b); reflexivity. Qed.

(** The quotient computed by [__truediv__] from the scaled coefficients,
    with its sticky adjustment, then rounded by [_fix]. *)
Lemma divide_rounds (sign : bool) (Nn Dn : N)
  (exp0 : Z) (fuel : nat) :
  Dn <> 0%N ->
  (10 ^ prec context <= Z.of_N Nn / Z.of_N Dn)%Z ->
  rounds_to context
    (inject_Z (minus_one_pow sign)
     * (inject_Z (Z.of_N Nn) / inject_Z (Z.of_N Dn) * 10 ^ exp0))
    (let '(coeff, exp) :=
       (let '(coeff, remainder) := N.div_eucl Nn Dn in
        if negb (remainder =? 0)%N
        then ((if (coeff mod 5 =? 0)%N then coeff + 1 else coeff)%N, exp0)
        else strip_zeros fuel coeff exp0) in
     _fix (_dec_from_triple sign coeff exp) context).
Proof.
  intros HD Hq. rewrite div_eucl_pair.
  pose proof context_valid as (Hprec & Hmin & Hmax).
  assert (Hpp : (0 < 10 ^ prec context)%Z) by (apply pow10_pos_Z; lia).
  pose proof (Z.div_mod (Z.of_N Nn) (Z.of_N Dn) ltac:(lia)) as Hdm.
  pose proof (Z.mod_pos_bound (Z.of_N Nn) (Z.of_N Dn) ltac:(lia)) as Hrb.
  assert (Eq : Z.of_N (Nn / Dn) = (Z.of_N Nn / Z.of_N Dn)%Z)
    by apply N2Z.inj_div.
  assert (Er : Z.of_N (Nn mod Dn) = (Z.of_N Nn mod Z.of_N Dn)%Z)
    by apply N2Z.inj_mod.
  destruct (N.eqb_spec (Nn mod Dn) 0) as [Hr0|Hr0]; cbn [negb].
  - (* exact quotient *)
    assert (Hc : (Nn / Dn <> 0)%N) by lia.
    destruct (strip_zeros_spec fuel (Nn / Dn)%N exp0 Hc) as (H1 & H2 & H3).
    destruct (strip_zeros fuel (Nn / Dn) exp0) as [c e'].
    cbn [fst snd] in *.
    apply (rounds_to_wd (to_Q (_dec_from_triple sign c e'))).
    + rewrite to_Q_triple.
      assert (HDq : ~ inject_Z (Z.of_N Dn) == 0).
      { change 0 with (inject_Z 0). rewrite inject_Z_injective. lia. }
      assert (E1 : inject_Z (Z.of_N Nn) / inject_Z (Z.of_N Dn)
                   == inject_Z (Z.of_N (Nn / Dn))).
      { rewrite Eq. rewrite Hdm at 1. rewrite <- Er, Hr0.
        change (Z.of_N 0) with 0%Z. rewrite Z.add_0_r, inject_Z_mult.
        field. exact HDq. }
      rewrite E1, <- H3, inject_Z_mult, Qp_inject by lia.
      replace e' with ((e' - exp0) + exp0)%Z at 1 by lia.
      rewrite Qp_add. ring.
    + apply fix_rounds_exact. exact H1.
  - (* inexact: the sticky digit *)
    apply (fix_rounds_sticky sign _ exp0 (Z.of_N Nn) (Z.of_N Dn)
             (Z.of_N Nn / Z.of_N Dn) (Z.of_N Nn mod Z.of_N Dn)).
    + lia.
    + lia.
    + exact Hq.
    + rewrite <- Eq.
      assert (E5 : ((Nn / Dn) mod 5 =? 0)%N
                   = (Z.of_N (Nn / Dn) mod 5 =? 0)%Z).
      { change 5%Z with (Z.of_N 5). rewrite <- N2Z.inj_mod.
        destruct (N.eqb_spec ((Nn / Dn) mod 5) 0) as [E|E].
        - rewrite E. reflexivity.
        - symmetry. apply Z.eqb_neq. lia. }
      rewrite E5. destruct (Z.of_N (Nn / Dn) mod 5 =? 0)%Z; lia.
Qed.

Lemma Qp_nonzero (e : Z) : ~ 10 ^ e == 0.
Proof. apply Qnot_eq_sym, Qlt_not_eq, Qp_pos. Qed.

Lemma inject_N_nonzero (n : N) : n <> 0%N -> ~ inject_Z (Z.of_N n) == 0.
Proof.
  intros Hn. change 0 with (inject_Z 0). rewrite inject_Z_injective. lia.
Qed.

Lemma inject_pow10 (k : Z) :
  (0 <= k)%Z -> inject_Z (Z.of_N (pow10 k)) == 10 ^ k.
Proof. intros Hk. rewrite pow10_Z by exact Hk. apply Qp_inject. exact Hk. Qed.

(** Division is correctly rounded: for a nonzero divisor the outcome of
    [__truediv__] is the exact quotient rounded half-even to the precision
    of the context, or Overflow when that exceeds the exponent range. *)
Lemma truediv_rounds (a b : Decimal) :
  _int b <> 0%N ->
  rounds_to context (to_Q a / to_Q b) (__truediv__ a b context).
Proof.
  intros Hb. pose proof context_valid as (Hprec & Hmin & Hmax).
  destruct a as [sa ca ea], b as [sb cb eb]. cbn [_int] in Hb.
  unfold __truediv__, __bool__. cbn [_sign _int _exp].
  replace (cb =? 0)%N with false by (symmetry; apply N.eqb_neq; exact Hb).
  cbn [negb].
  assert (HB : ~ inject_Z (Z.of_N cb) == 0) by (apply inject_N_nonzero; exact Hb).
  destruct (N.eqb_spec ca 0) as [Ha|Ha]; cbn [negb].
  - (* zero dividend *)
    subst ca. destruct (fix_zero (xorb sa sb) (ea - eb)) as [e' ->].
    apply rounds_to_zero; [| apply to_Q_zero].
    rewrite to_Q_zero. unfold Qdiv. ring.
  - cbv zeta.
    destruct (len_spec ca) as (Ha1 & Hau & Hal). specialize (Hal Ha).
    destruct (len_spec cb) as (Hb1 & Hbu & Hbl). specialize (Hbl Hb).
    set (la := len ca) in *. set (lb := len cb) in *.
    set (shift := (lb - la + prec context + 1)%Z).
    assert (HA : ~ inject_Z (Z.of_N ca) == 0) by (apply inject_N_nonzero; exact Ha).
    assert (Hsgn : forall x y : Q, ~ y == 0 ->
              inject_Z (minus_one_pow sa) * x / (inject_Z (minus_one_pow sb) * y)
              == inject_Z (minus_one_pow (xorb sa sb)) * (x / y)).
    { intros x y Hy. destruct sa, sb; unfold minus_one_pow; cbn [xorb];
        field; exact Hy. }
    assert (Hx : to_Q (_dec_from_triple sa ca ea)
                 / to_Q (_dec_from_triple sb cb eb)
                 == inject_Z (minus_one_pow (xorb sa sb))
                    * (inject_Z (Z.of_N ca) / inject_Z (Z.of_N cb)
                       * 10 ^ (ea - eb))).
    { rewrite !to_Q_triple, Hsgn.
      - rewrite Qp_sub. field. repeat split; first [exact HB | apply Qp_nonzero].
      - intros E. apply (Qmult_integral) in E. destruct E as [E|E];
          [exact (HB E) | exact (Qp_nonzero _ E)]. }
    destruct (Z.geb_spec shift 0) as [Hs|Hs].
    + (* the dividend is scaled up *)
      eapply rounds_to_wd;
        [| apply (divide_rounds (xorb sa sb)
                    (ca * pow10 shift)%N cb (ea - eb - shift))].
      * rewrite Hx, N2Z.inj_mul, inject_Z_mult, inject_pow10 by lia.
        replace (ea - eb)%Z with ((ea - eb - shift) + shift)%Z at 2 by lia.
        rewrite Qp_add. field. repeat split; first [exact HB | apply Qp_nonzero].
      * exact Hb.
      * rewrite N2Z.inj_mul, pow10_Z by lia.
        apply Z.div_le_lower_bound; [lia|].
        assert (E1 : (10 ^ (la - 1) * 10 ^ shift = 10 ^ lb * 10 ^ prec context)%Z).
        { rewrite <- !Z.pow_add_r by lia. f_equal. unfold shift. lia. }
        assert (0 < 10 ^ shift)%Z by (apply pow10_pos_Z; lia).
        assert (0 < 10 ^ prec context)%Z by (apply pow10_pos_Z; lia).
        nia.
    + (* the divisor is scaled up *)
      eapply rounds_to_wd;
        [| apply (divide_rounds (xorb sa sb)
                    ca (cb * pow10 (- shift))%N (ea - eb - shift))].
      * rewrite Hx, N2Z.inj_mul, inject_Z_mult, inject_pow10 by lia.
        replace (ea - eb - shift)%Z with ((ea - eb) + - shift)%Z by lia.
        rewrite Qp_add. field. repeat split; first [exact HB | apply Qp_nonzero].
      * assert (pow10 (- shift) <> 0%N).
        { unfold pow10. apply N.pow_nonzero. discriminate. }
        lia.
      * rewrite N2Z.inj_mul, pow10_Z by lia.
        assert (0 < 10 ^ (- shift))%Z by (apply pow10_pos_Z; lia).
        apply Z.div_le_lower_bound; [nia|].
        assert (E1 : (10 ^ lb * 10 ^ (- shift) * 10 ^ prec context
                      = 10 ^ (la - 1))%Z).
        { rewrite <- !Z.pow_add_r by lia. f_equal. unfold shift. lia. }
        assert (0 < 10 ^ prec context)%Z by (apply pow10_pos_Z; lia).
        nia.
Qed.

Lemma rounds_to_unique (x : Q) (o1 o2 : result Decimal) :
  rounds_to context x o1 -> rounds_to context x o2 -> same_number o1 o2.
Proof.
  intros (g1 & m1 & Hg1 & Hn1 & H1) (g2 & m2 & Hg2 & Hn2 & H2).
  assert (g2 = g1) by (eapply grid_exponent_unique; eassumption). subst g2.
  assert (m2 = m1) by (eapply nearest_even_unique; eassumption). subst m2.
  destruct o1 as [d1|s1], o2 as [d2|s2]; cbn [same_number].
  - destruct H1 as [E1 _], H2 as [E2 _]. rewrite E1, E2. reflexivity.
  - destruct H1 as [_ B1], H2 as [_ B2]. lra.
  - destruct H1 as [_ B1], H2 as [_ B2]. lra.
  - destruct H1 as [E1 _], H2 as [E2 _]. congruence.
Qed.

(** A quotient that can be written with at most [prec] digits, at an
    exponent the context allows, is returned exactly. *)
Lemma rounds_to_exact (x : Q) (d : Decimal) (c z : Z) :
  rounds_to context x (Value d) ->
  x == inject_Z c * 10 ^ z ->
  (Z.abs c < 10 ^ prec context)%Z -> (Etiny context <= z)%Z ->
  to_Q d == x.
Proof.
  intros (g & m & Hg & Hn & Hd & _) Hx Hc Hz.
  destruct context_valid as (Hprec & Hmin & Hmax).
  assert (Hgz : (g <= z)%Z).
  { destruct Hg as [[-> _]|(Hlow & Hlo & _)]; [exact Hz|].
    assert (Hax : Qabs x == inject_Z (Z.abs c) * 10 ^ z).
    { rewrite Hx, Qabs_Qmult, (Qabs_pos (10 ^ z)).
      - apply Qmult_comp; [|reflexivity].
        unfold Qabs, inject_Z. reflexivity.
      - apply Qlt_le_weak, Qp_pos. }
    rewrite Hax in Hlo.
    assert (Hlt : inject_Z (Z.abs c) * 10 ^ z < 10 ^ (prec context + z)).
    { rewrite Qp_add. apply Qmult_lt_r; [apply Qp_pos|].
      rewrite <- Qp_inject by lia. apply Qlt_inject. exact Hc. }
    assert (H : 10 ^ (g + prec context - 1) < 10 ^ (prec context + z))
      by (eapply Qle_lt_trans; eassumption).
    apply Qp_lt_inv in H. lia. }
  assert (Hy : x / 10 ^ g == inject_Z (c * 10 ^ (z - g))).
  { rewrite Hx, inject_Z_mult, Qp_inject, Qp_sub by lia. field.
    apply Qp_nonzero. }
  assert (Em : m = (c * 10 ^ (z - g))%Z).
  { apply (nearest_even_unique (x / 10 ^ g)); [exact Hn|].
    eapply nearest_even_wd; [symmetry; exact Hy | apply nearest_even_exact]. }
  rewrite Hd, Em, <- Hy. field. apply Qp_nonzero.
Qed.

End Rounding.

Local Close Scope Q_scope.

(** ** Positivity, and running the formulas *)

Lemma gt_zero_iff (d : Decimal) :
  __gt__ d (Decimal_of_int 0) = true <-> _sign d = false /\ _int d <> 0%N.
Proof.
  destruct d as [s c e]. unfold __gt__, _cmp, __bool__. simpl.
  destruct (N.eqb_spec c 0) as [->|Hc]; simpl.
  - split; [discriminate | intros [_ H]; congruence].
  - destruct s; simpl; split; try discriminate; try tauto.
    intros [H _]; discriminate.
Qed.

Lemma to_Q_pos_iff (d : Decimal) :
  (0 < to_Q d)%Q <-> _sign d = false /\ _int d <> 0%N.
Proof.
  unfold to_Q, signed_int. pose proof (Qp_pos (_exp d)) as Hp.
  set (p := Qpower (10 # 1) (_exp d)) in *.
  destruct d as [s c e]; simpl in *.
  assert (Hc : (0 <= Z.of_N c)) by lia.
  split.
  - intros H.
    assert (0 < inject_Z (minus_one_pow s * Z.of_N c))%Q as H1.
    { destruct (Qlt_le_dec 0 (inject_Z (minus_one_pow s * Z.of_N c))); auto.
      exfalso. assert (inject_Z (minus_one_pow s * Z.of_N c) * p <= 0)%Q by nra. lra. }
    change 0%Q with (inject_Z 0) in H1. rewrite <- Zlt_Qlt in H1.
    destruct s; unfold minus_one_pow in H1; [exfalso; lia | split; [reflexivity | lia]].
  - intros [-> Hn]. unfold minus_one_pow.
    assert (0 < inject_Z (1 * Z.of_N c))%Q.
    { change 0%Q with (inject_Z 0). rewrite <- Zlt_Qlt. lia. }
    nra.
Qed.

Lemma gt_zero_true (d : Decimal) :
  __gt__ d (Decimal_of_int 0) = true <-> (0 < to_Q d)%Q.
Proof. rewrite gt_zero_iff, to_Q_pos_iff. tauto. Qed.

Lemma gt_zero_false (d : Decimal) :
  __gt__ d (Decimal_of_int 0) = false <-> (to_Q d <= 0)%Q.
Proof.
  split; intros H.
  - destruct (Qlt_le_dec 0 (to_Q d)) as [Hlt|]; auto.
    apply gt_zero_true in Hlt. congruence.
  - destruct (__gt__ d (Decimal_of_int 0)) eqn:E; auto.
    apply gt_zero_true in E. lra.
Qed.

Ltac run_exec :=
  cbv beta iota zeta delta
    [raises_invalid_input call trace evaluate
     finding_development_cost reserve_replacement_ratio reserve_life_index
     reserves_per_share lifting_cost netback breakeven_price
     operating_netback_margin capital_efficiency recycle_ratio
     validate_positive binop bind emit ret raise of_result fst snd];
  cbn [app].

Ltac case_step :=
  match goal with
  | |- context [__gt__ ?v (Decimal_of_int 0)] =>
      let E := fresh "Hgt" in destruct (__gt__ v (Decimal_of_int 0)) eqn:E
  | |- context [apply_operator ?op ?a ?b] =>
      let E := fresh "Hop" in destruct (apply_operator op a b) eqn:E
  end.

Ltac run_cases := run_exec; repeat (case_step; run_exec).

Lemma guard_one (m : Exec Decimal) (name : string) (v : Decimal) :
  (__gt__ v (Decimal_of_int 0) = false ->
   call m = Raised (InvalidInputError name v)) ->
  (__gt__ v (Decimal_of_int 0) = true ->
   forall n x, call m <> Raised (InvalidInputError n x)) ->
  invalid_input_iff_nonpositive m [(name, v)].
Proof.
  intros Hbad Hgood. unfold invalid_input_iff_nonpositive, raises_invalid_input.
  destruct (__gt__ v (Decimal_of_int 0)) eqn:E.
  - specialize (Hgood eq_refl). apply gt_zero_true in E. split.
    + split.
      * intros (n & x & H). exfalso. exact (Hgood n x H).
      * intros H. apply Exists_cons in H. destruct H as [H|H].
        -- simpl in H. lra.
        -- inversion H.
    + intros n x H. exfalso. exact (Hgood n x H).
  - specialize (Hbad eq_refl). apply gt_zero_false in E. split.
    + split.
      * intros _. apply Exists_cons_hd. exact E.
      * intros _. exists name, v. exact Hbad.
    + intros n x H. rewrite Hbad in H. injection H as <- <-.
      split; [left; reflexivity | exact E].
Qed.

Lemma guard_two (m : Exec Decimal) (name1 name2 : string) (v1 v2 : Decimal) :
  (__gt__ v1 (Decimal_of_int 0) = false ->
   call m = Raised (InvalidInputError name1 v1)) ->
  (__gt__ v1 (Decimal_of_int 0) = true ->
   __gt__ v2 (Decimal_of_int 0) = false ->
   call m = Raised (InvalidInputError name2 v2)) ->
  (__gt__ v1 (Decimal_of_int 0) = true ->
   __gt__ v2 (Decimal_of_int 0) = true ->
   forall n x, call m <> Raised (InvalidInputError n x)) ->
  invalid_input_iff_nonpositive m [(name1, v1); (name2, v2)].
Proof.
  intros Hbad1 Hbad2 Hgood.
  unfold invalid_input_iff_nonpositive, raises_invalid_input.
  destruct (__gt__ v1 (Decimal_of_int 0)) eqn:E1.
  - destruct (__gt__ v2 (Decimal_of_int 0)) eqn:E2.
    + specialize (Hgood eq_refl eq_refl).
      apply gt_zero_true in E1, E2. split.
      * split.
        -- intros (n & x & H). exfalso. exact (Hgood n x H).
        -- intros H. apply Exists_cons in H. destruct H as [H|H].
           ++ simpl in H. lra.
           ++ apply Exists_cons in H. destruct H as [H|H].
              ** simpl in H. lra.
              ** inversion H.
      * intros n x H. exfalso. exact (Hgood n x H).
    + specialize (Hbad2 eq_refl eq_refl). apply gt_zero_false in E2. split.
      * split.
        -- intros _. apply Exists_cons_tl, Exists_cons_hd. exact E2.
        -- intros _. exists name2, v2. exact Hbad2.
      * intros n x H. rewrite Hbad2 in H. injection H as <- <-.
        split; [right; left; reflexivity | exact E2].
  - specialize (Hbad1 eq_refl). apply gt_zero_false in E1. split.
    + split.
      * intros _. apply Exists_cons_hd. exact E1.
      * intros _. exists name1, v1. exact Hbad1.
    + intros n x H. rewrite Hbad1 in H. injection H as <- <-.
      split; [left; reflexivity | exact E1].
Qed.

Ltac guard_solve :=
  intros; run_exec;
  repeat match goal with H : __gt__ _ _ = _ |- _ => rewrite H end;
  run_exec;
  try reflexivity;
  repeat (case_step; run_exec); intros; discriminate.

(** ** Exact addition on a fixed-point grid *)

Lemma abs_scaled (q : Z) (d : Decimal) :
  - q <= _exp d ->
  Z.abs (scaled q d) = Z.of_N (_int d) * 10 ^ (_exp d + q).
Proof.
  intros H. unfold scaled, signed_int.
  assert (0 < 10 ^ (_exp d + q)) by (apply pow10_pos_Z; lia).
  destruct (_sign d); unfold minus_one_pow; nia.
Qed.

Lemma scaled_triple (q : Z) (s : bool) (C : N) (e : Z) :
  scaled q (_dec_from_triple s C e)
  = minus_one_pow s * (Z.of_N C * 10 ^ (e + q)).
Proof. unfold scaled, signed_int. cbn [_sign _int _exp]. ring. Qed.

Lemma len_scaled_bound (context : Context) (q : Z) (C : N) (e : Z) :
  C <> 0%N -> - q <= e -> Z.of_N C * 10 ^ (e + q) < 10 ^ prec context ->
  len C + e + q <= prec context.
Proof.
  intros HC He Hfit.
  destruct (len_spec C) as (HL1 & HLu & HLl). specialize (HLl HC).
  assert (0 <= prec context).
  { destruct (Z.le_gt_cases 0 (prec context)); [assumption|].
    rewrite (Z.pow_neg_r 10 (prec context)) in Hfit by lia.
    assert (0 < 10 ^ (e + q)) by (apply pow10_pos_Z; lia). nia. }
  assert (0 < 10 ^ (e + q)) by (apply pow10_pos_Z; lia).
  assert (H1 : 10 ^ (len C - 1) * 10 ^ (e + q) < 10 ^ prec context) by nia.
  rewrite <- Z.pow_add_r in H1 by lia.
  apply pow10_lt_inv in H1; lia.
Qed.

Lemma pow10_split (x y : Z) : 0 <= x -> 0 <= y -> 10 ^ (x + y) = 10 ^ x * 10 ^ y.
Proof. intros. apply Z.pow_add_r; lia. Qed.

Lemma scaled_copy_negate (q : Z) (d : Decimal) :
  scaled q (copy_negate d) = - scaled q d.
Proof.
  unfold scaled, signed_int, copy_negate. cbn [_sign _int _exp].
  destruct (_sign d); unfold minus_one_pow; cbn [negb]; ring.
Qed.

(** Numbers with at most [q] decimal places, in a context that has room for
    them. *)
Section FixedPointGrid.

Variable context : Context.
Variable q : Z.
Hypothesis context_valid : valid_context context.
Hypothesis places : places_fit context q.

(** [_fix] leaves alone a number that fits the precision. *)
Lemma fix_exact (s : bool) (C : N) (e : Z) :
  - q <= e -> Z.of_N C * 10 ^ (e + q) < 10 ^ prec context ->
  exists c, _fix (_dec_from_triple s C e) context = Value c /\
            - q <= _exp c /\
            scaled q c = scaled q (_dec_from_triple s C e).
Proof.
  intros He Hfit.
  destruct context_valid as (Hprec & Hmin & Hmax).
  destruct places as (Hq & Htiny & Hemax).
  unfold _fix, __bool__. cbn [_sign _int _exp].
  destruct (N.eqb_spec C 0) as [->|HC]; cbn [negb].
  - set (e' := Z.min (Z.max e (Etiny context)) (Emax context)).
    assert (- q <= e') by (unfold e'; lia).
    destruct (negb (e' =? e)) eqn:E.
    + eexists. split; [reflexivity|]. cbn [_exp]. split; [lia|].
      rewrite !scaled_triple. simpl. lia.
    + eexists. split; [reflexivity|]. cbn [_exp]. split; [lia|reflexivity].
  - destruct (len_spec C) as (HL1 & HLu & HLl). specialize (HLl HC).
    assert (HL : len C + e + q <= prec context).
    { assert (0 < 10 ^ (e + q)) by (apply pow10_pos_Z; lia).
      assert (10 ^ (len C - 1) * 10 ^ (e + q) < 10 ^ prec context) by nia.
      rewrite <- Z.pow_add_r in H0 by lia.
      apply pow10_lt_inv in H0; lia. }
    unfold Etop.
    rewrite (gtb_false (len C + e - prec context)) by lia.
    assert (Hm : (if len C + e - prec context <? Etiny context
                  then Etiny context else len C + e - prec context) <= e).
    { destruct (_ <? _); lia. }
    destruct (Z.ltb_spec e (if len C + e - prec context <? Etiny context
                  then Etiny context else len C + e - prec context)); [lia|].
    eexists. split; [reflexivity|]. cbn [_exp]. split; [lia|reflexivity].
Qed.

(** With both operands on the fixed-point grid, [_normalize] only brings
    them to the common (smaller) exponent. *)
Lemma normalize_exact (a b : Decimal) :
  _int a <> 0%N -> _int b <> 0%N ->
  fixed_point q (10 ^ prec context) a ->
  fixed_point q (10 ^ prec context) b ->
  let E := Z.min (_exp a) (_exp b) in
  _normalize a b (prec context)
  = (_dec_from_triple (_sign a) (_int a * pow10 (_exp a - E)) E,
     _dec_from_triple (_sign b) (_int b * pow10 (_exp b - E)) E).
Proof.
  intros Ha Hb [Hea Hma] [Heb Hmb] E.
  rewrite abs_scaled in Hma, Hmb by assumption.
  destruct a as [sa ca ea], b as [sb cb eb]. cbn [_sign _int _exp] in *.
  pose proof (len_scaled_bound context q ca ea Ha Hea Hma) as Hla.
  pose proof (len_scaled_bound context q cb eb Hb Heb Hmb) as Hlb.
  pose proof (len_pos ca) as Hpa. pose proof (len_pos cb) as Hpb.
  unfold _normalize. cbn [_sign _int _exp]. unfold E.
  destruct (Z.ltb_spec ea eb) as [Hlt|Hge]; cbn [_sign _int _exp].
  - rewrite (Z.min_l ea eb) by lia.
    destruct (Z.ltb_spec (len ca + ea - 1)
                (eb + Z.min (-1) (len cb - prec context - 2))); [lia|].
    cbn [_sign _int _exp].
    rewrite Z.sub_diag. change (pow10 0) with 1%N. rewrite N.mul_1_r.
    reflexivity.
  - rewrite (Z.min_r ea eb) by lia.
    destruct (Z.ltb_spec (len cb + eb - 1)
                (ea + Z.min (-1) (len ca - prec context - 2))); [lia|].
    cbn [_sign _int _exp].
    rewrite Z.sub_diag. change (pow10 0) with 1%N. rewrite N.mul_1_r.
    reflexivity.
Qed.

(** Addition is exact on the fixed-point grid as long as the sum fits the
    precision. *)
Lemma add_exact (a b : Decimal) :
  - q <= _exp a -> - q <= _exp b ->
  Z.abs (scaled q a) + Z.abs (scaled q b) < 10 ^ prec context ->
  exists c, __add__ a b context = Value c /\
            - q <= _exp c /\
            scaled q c = scaled q a + scaled q b.
Proof.
  intros Hea Heb Hsum.
  pose proof context_valid as (Hprec & Hmin & Hmax).
  pose proof places as (Hq & Htiny & Hemax).
  pose proof (abs_scaled q a Hea) as Haa.
  pose proof (abs_scaled q b Heb) as Hab.
  assert (Hsa : scaled q a = minus_one_pow (_sign a)
                             * (Z.of_N (_int a) * 10 ^ (_exp a + q)))
    by (unfold scaled, signed_int; ring).
  assert (Hsb : scaled q b = minus_one_pow (_sign b)
                             * (Z.of_N (_int b) * 10 ^ (_exp b + q)))
    by (unfold scaled, signed_int; ring).
  assert (Hpa : 0 < 10 ^ (_exp a + q)) by (apply pow10_pos_Z; lia).
  assert (Hpb : 0 < 10 ^ (_exp b + q)) by (apply pow10_pos_Z; lia).
  unfold __add__, __bool__.
  destruct (N.eqb_spec (_int a) 0) as [Ha|Ha];
    destruct (N.eqb_spec (_int b) 0) as [Hb|Hb]; cbn [negb andb].
  - (* 0 + 0 *)
    destruct (fix_exact (andb (_sign a) (_sign b)) 0
                (Z.min (_exp a) (_exp b)) ltac:(lia))
      as (c & Hc & Hec & Hsc).
    { simpl. apply pow10_pos_Z. lia. }
    exists c. split; [exact Hc | split; [exact Hec|]].
    rewrite Hsc, scaled_triple, Hsa, Hsb, Ha, Hb. simpl. lia.
  - (* 0 + b *)
    set (E := Z.max (Z.min (_exp a) (_exp b)) (_exp b - prec context - 1)).
    assert (HE : - q <= E <= _exp b) by (unfold E; lia).
    unfold _rescale, __bool__.
    replace (_int b =? 0)%N with false by (symmetry; apply N.eqb_neq; exact Hb).
    cbn [negb]. rewrite (geb_true (_exp b) E) by lia.
    assert (Hco : Z.of_N (_int b * pow10 (_exp b - E)) * 10 ^ (E + q)
                  = Z.of_N (_int b) * 10 ^ (_exp b + q)).
    { rewrite N2Z.inj_mul, pow10_Z by lia.
      replace (_exp b + q) with ((_exp b - E) + (E + q)) by lia.
      rewrite (pow10_split (_exp b - E) (E + q)) by lia. ring. }
    destruct (fix_exact (_sign b) (_int b * pow10 (_exp b - E)) E
                ltac:(lia)) as (c & Hc & Hec & Hsc).
    { rewrite Hco. lia. }
    exists c. split; [exact Hc | split; [exact Hec|]].
    rewrite Hsc, scaled_triple, Hco, Hsa, Hsb, Ha. simpl. lia.
  - (* a + 0 *)
    set (E := Z.max (Z.min (_exp a) (_exp b)) (_exp a - prec context - 1)).
    assert (HE : - q <= E <= _exp a) by (unfold E; lia).
    unfold _rescale, __bool__.
    replace (_int a =? 0)%N with false by (symmetry; apply N.eqb_neq; exact Ha).
    cbn [negb]. rewrite (geb_true (_exp a) E) by lia.
    assert (Hco : Z.of_N (_int a * pow10 (_exp a - E)) * 10 ^ (E + q)
                  = Z.of_N (_int a) * 10 ^ (_exp a + q)).
    { rewrite N2Z.inj_mul, pow10_Z by lia.
      replace (_exp a + q) with ((_exp a - E) + (E + q)) by lia.
      rewrite (pow10_split (_exp a - E) (E + q)) by lia. ring. }
    destruct (fix_exact (_sign a) (_int a * pow10 (_exp a - E)) E
                ltac:(lia)) as (c & Hc & Hec & Hsc).
    { rewrite Hco. lia. }
    exists c. split; [exact Hc | split; [exact Hec|]].
    rewrite Hsc, scaled_triple, Hco, Hsa, Hsb, Hb. simpl. lia.
  - (* both nonzero *)
    rewrite (normalize_exact a b Ha Hb) by (split; lia).
    set (E := Z.min (_exp a) (_exp b)).
    assert (HE : - q <= E /\ E <= _exp a /\ E <= _exp b) by (unfold E; lia).
    cbn [_sign _int _exp].
    set (ia := (_int a * pow10 (_exp a - E))%N).
    set (ib := (_int b * pow10 (_exp b - E))%N).
    assert (Hia : Z.of_N ia * 10 ^ (E + q)
                  = Z.of_N (_int a) * 10 ^ (_exp a + q)).
    { unfold ia. rewrite N2Z.inj_mul, pow10_Z by lia.
      replace (_exp a + q) with ((_exp a - E) + (E + q)) by lia.
      rewrite (pow10_split (_exp a - E) (E + q)) by lia. ring. }
    assert (Hib : Z.of_N ib * 10 ^ (E + q)
                  = Z.of_N (_int b) * 10 ^ (_exp b + q)).
    { unfold ib. rewrite N2Z.inj_mul, pow10_Z by lia.
      replace (_exp b + q) with ((_exp b - E) + (E + q)) by lia.
      rewrite (pow10_split (_exp b - E) (E + q)) by lia. ring. }
    assert (HpE : 0 < 10 ^ (E + q)) by (apply pow10_pos_Z; lia).
    rewrite Hsa, Hsb, <- Hia, <- Hib.
    rewrite Haa, Hab, <- Hia, <- Hib in Hsum.
    destruct (Bool.eqb (_sign a) (_sign b)) eqn:Hs; cbn [negb].
    + (* same sign *)
      apply Bool.eqb_prop in Hs.
      destruct (fix_exact (_sign a) (ia + ib) E ltac:(lia))
        as (c & Hc & Hec & Hsc).
      { rewrite N2Z.inj_add. nia. }
      exists c. split; [exact Hc | split; [exact Hec|]].
      rewrite Hsc, scaled_triple, N2Z.inj_add, <- Hs. ring.
    + (* opposite signs *)
      assert (Hopp : minus_one_pow (_sign b) = - minus_one_pow (_sign a)).
      { destruct (_sign a), (_sign b); try discriminate Hs; reflexivity. }
      destruct (N.eqb_spec ia ib) as [Heq|Hne].
      * destruct (fix_exact false 0 E ltac:(lia))
          as (c & Hc & Hec & Hsc).
        { simpl. apply pow10_pos_Z. lia. }
        exists c. split; [exact Hc | split; [exact Hec|]].
        rewrite Hsc, scaled_triple, Hopp, Heq. simpl. ring.
      * destruct (N.ltb_spec ia ib) as [Hlt|Hge]; cbn [_sign _int _exp].
        -- destruct (fix_exact (_sign b) (ib - ia) E
                       ltac:(lia)) as (c & Hc & Hec & Hsc).
           { rewrite N2Z.inj_sub by lia. nia. }
           exists c. split; [exact Hc | split; [exact Hec|]].
           rewrite Hsc, scaled_triple, N2Z.inj_sub, Hopp by lia. ring.
        -- destruct (fix_exact (_sign a) (ia - ib) E
                       ltac:(lia)) as (c & Hc & Hec & Hsc).
           { rewrite N2Z.inj_sub by lia. nia. }
           exists c. split; [exact Hc | split; [exact Hec|]].
           rewrite Hsc, scaled_triple, N2Z.inj_sub, Hopp by lia. ring.
Qed.

Lemma sub_exact (a b : Decimal) :
  - q <= _exp a -> - q <= _exp b ->
  Z.abs (scaled q a) + Z.abs (scaled q b) < 10 ^ prec context ->
  exists c, __sub__ a b context = Value c /\
            - q <= _exp c /\
            scaled q c = scaled q a - scaled q b.
Proof.
  intros Hea Heb Hsum. unfold __sub__.
  destruct (add_exact a (copy_negate b) Hea)
    as (c & Hc & Hec & Hsc).
  - exact Heb.
  - rewrite scaled_copy_negate, Z.abs_opp. exact Hsum.
  - exists c. split; [exact Hc | split; [exact Hec|]].
    rewrite Hsc, scaled_copy_negate. ring.
Qed.

End FixedPointGrid.

(** The number denoted, from its count of units of [10^-q]. *)
Lemma to_Q_scaled (q : Z) (d : Decimal) :
  - q <= _exp d ->
  (to_Q d == inject_Z (scaled q d) / 10 ^ q)%Q.
Proof.
  intros H. unfold to_Q, scaled.
  rewrite inject_Z_mult, Qp_inject by lia.
  replace (_exp d) with ((_exp d + q) + - q) at 1 by lia.
  rewrite Qp_add, Qpower_opp. field. apply Qp_nonzero.
Qed.

Lemma fix_trap (d : Decimal) (context : Context) (s : Signal) :
  _fix d context = Trap s -> s = Overflow.
Proof.
  unfold _fix.
  repeat match goal with
         | |- context [if ?b then _ else _] => destruct b
         | |- context [let '(_, _) := ?p in _] => destruct p
         end; intros H; try discriminate H; congruence.
Qed.

Lemma add_trap (a b : Decimal) (context : Context) (s : Signal) :
  __add__ a b context = Trap s -> s = Overflow.
Proof.
  unfold __add__.
  repeat match goal with
         | |- context [if ?b then _ else _] => destruct b
         | |- context [let '(_, _) := ?p in _] => destruct p
         end; apply fix_trap.
Qed.

Lemma sub_trap (a b : Decimal) (context : Context) (s : Signal) :
  __sub__ a b context = Trap s -> s = Overflow.
Proof. apply add_trap. Qed.

Lemma mul_trap (a b : Decimal) (context : Context) (s : Signal) :
  __mul__ a b context = Trap s -> s = Overflow.
Proof.
  unfold __mul__.
  repeat match goal with
         | |- context [if ?b then _ else _] => destruct b
         end; apply fix_trap.
Qed.

Lemma truediv_trap (a b : Decimal) (context : Context) (s : Signal) :
  valid_context context -> _int b <> 0%N ->
  __truediv__ a b context = Trap s -> s = Overflow.
Proof.
  intros Hv Hb H. pose proof (truediv_rounds context Hv a b Hb) as Hr.
  rewrite H in Hr. destruct Hr as (g & m & _ & _ & Hs & _). exact Hs.
Qed.

Lemma same_units (q : Z) (v w : Decimal) :
  - q <= _exp v -> - q <= _exp w -> scaled q v = scaled q w ->
  (to_Q v == to_Q w)%Q.
Proof.
  intros Hv Hw E. rewrite (to_Q_scaled q v), (to_Q_scaled q w), E by assumption.
  reflexivity.
Qed.

(** ** Python's [==] *)

Lemma to_Q_eq_iff_scaled (q : Z) (a b : Decimal) :
  - q <= _exp a -> - q <= _exp b ->
  ((to_Q a == to_Q b)%Q <-> scaled q a = scaled q b).
Proof.
  intros Ha Hb. split.
  - intros E. rewrite (to_Q_scaled q a), (to_Q_scaled q b) in E by assumption.
    apply inject_Z_injective.
    pose proof (Qp_pos q) as Hq.
    assert (E' : (inject_Z (scaled q a) / 10 ^ q * 10 ^ q
                  == inject_Z (scaled q b) / 10 ^ q * 10 ^ q)%Q)
      by (rewrite E; reflexivity).
    unfold Qdiv in E'. rewrite <- !Qmult_assoc in E'.
    rewrite (Qmult_comm (/ 10 ^ q)), Qmult_inv_r, !Qmult_1_r in E'
      by apply Qp_nonzero.
    exact E'.
  - apply same_units; assumption.
Qed.

Lemma magnitude_bounds (q : Z) (d : Decimal) :
  _int d <> 0%N -> - q <= _exp d ->
  10 ^ (adjusted d + q) <= Z.abs (scaled q d) < 10 ^ (adjusted d + q + 1).
Proof.
  intros Hd He. rewrite abs_scaled by exact He. unfold adjusted.
  destruct (len_spec (_int d)) as (H1 & Hu & Hl). specialize (Hl Hd).
  assert (Hp : 0 < 10 ^ (_exp d + q)) by (apply pow10_pos_Z; lia).
  replace (_exp d + len (_int d) - 1 + q)
    with ((len (_int d) - 1) + (_exp d + q)) by lia.
  replace (len (_int d) - 1 + (_exp d + q) + 1)
    with (len (_int d) + (_exp d + q)) by lia.
  rewrite (pow10_split (len (_int d) - 1) (_exp d + q)) by lia.
  rewrite (pow10_split (len (_int d)) (_exp d + q)) by lia.
  split; nia.
Qed.

Lemma padded_magnitudes (a b : Decimal) :
  let q := - Z.min (_exp a) (_exp b) in
  Z.of_N (_int a * pow10 (_exp a - _exp b)) = Z.abs (scaled q a) /\
  Z.of_N (_int b * pow10 (_exp b - _exp a)) = Z.abs (scaled q b).
Proof.
  intros q.
  assert (Ha : - q <= _exp a) by (unfold q; lia).
  assert (Hb : - q <= _exp b) by (unfold q; lia).
  rewrite (abs_scaled q a Ha), (abs_scaled q b Hb), !N2Z.inj_mul.
  destruct (Z.le_ge_cases (_exp a) (_exp b)) as [Hle|Hge].
  - rewrite (pow10_neg (_exp a - _exp b)) by lia.
    rewrite (pow10_Z (_exp b - _exp a)) by lia.
    replace (_exp a + q) with 0 by (unfold q; lia).
    replace (_exp b + q) with (_exp b - _exp a) by (unfold q; lia).
    split; simpl; lia.
  - rewrite (pow10_neg (_exp b - _exp a)) by lia.
    rewrite (pow10_Z (_exp a - _exp b)) by lia.
    replace (_exp b + q) with 0 by (unfold q; lia).
    replace (_exp a + q) with (_exp a - _exp b) by (unfold q; lia).
    split; simpl; lia.
Qed.

(** Python's [==] on Decimals is equality of the numbers denoted. *)
Lemma eq_spec (a b : Decimal) :
  __eq__ a b = true <-> (to_Q a == to_Q b)%Q.
Proof.
  set (q := - Z.min (_exp a) (_exp b)).
  assert (Ha : - q <= _exp a) by (unfold q; lia).
  assert (Hb : - q <= _exp b) by (unfold q; lia).
  rewrite (to_Q_eq_iff_scaled q a b Ha Hb).
  unfold __eq__. rewrite Z.eqb_eq.
  pose proof (abs_scaled q a Ha) as Haa. pose proof (abs_scaled q b Hb) as Hab.
  assert (Hpa : 0 < 10 ^ (_exp a + q)) by (apply pow10_pos_Z; lia).
  assert (Hpb : 0 < 10 ^ (_exp b + q)) by (apply pow10_pos_Z; lia).
  assert (Hsa : scaled q a = minus_one_pow (_sign a) * Z.abs (scaled q a)).
  { rewrite Haa. unfold scaled, signed_int. ring. }
  assert (Hsb : scaled q b = minus_one_pow (_sign b) * Z.abs (scaled q b)).
  { rewrite Hab. unfold scaled, signed_int. ring. }
  unfold _cmp, __bool__.
  destruct (N.eqb_spec (_int a) 0) as [Za|Za];
    destruct (N.eqb_spec (_int b) 0) as [Zb|Zb]; cbn [negb].
  - assert (Z.abs (scaled q a) = 0) by (rewrite Haa, Za; lia).
    assert (Z.abs (scaled q b) = 0) by (rewrite Hab, Zb; lia).
    split; intros; lia.
  - assert (Z.abs (scaled q a) = 0) by (rewrite Haa, Za; lia).
    assert (0 < Z.abs (scaled q b)) by (rewrite Hab; nia).
    destruct (_sign b); unfold minus_one_pow; split; intros; lia.
  - assert (Z.abs (scaled q b) = 0) by (rewrite Hab, Zb; lia).
    assert (0 < Z.abs (scaled q a)) by (rewrite Haa; nia).
    destruct (_sign a); unfold minus_one_pow; split; intros; lia.
  - pose proof (magnitude_bounds q a Za Ha) as Ma.
    pose proof (magnitude_bounds q b Zb Hb) as Mb.
    assert (0 < 10 ^ (adjusted a + q)).
    { apply pow10_pos_Z. unfold adjusted. pose proof (len_pos (_int a)). lia. }
    assert (0 < 10 ^ (adjusted b + q)).
    { apply pow10_pos_Z. unfold adjusted. pose proof (len_pos (_int b)). lia. }
    destruct (padded_magnitudes a b) as [Pa Pb]. fold q in Pa, Pb.
    assert (Hpad : (_int a * pow10 (_exp a - _exp b)
                    =? _int b * pow10 (_exp b - _exp a))%N = true
                   <-> Z.abs (scaled q a) = Z.abs (scaled q b)).
    { rewrite N.eqb_eq, <- Pa, <- Pb. split; [congruence | apply N2Z.inj]. }
    assert (Hadj : adjusted a <> adjusted b ->
                   Z.abs (scaled q a) <> Z.abs (scaled q b)).
    { intros Hne Heq.
      destruct (Z.lt_gt_cases (adjusted a) (adjusted b)) as [_ Hc].
      destruct (Z.lt_total (adjusted a) (adjusted b)) as [Hlt|[Hlt|Hlt]];
        [|contradiction|].
      - assert (10 ^ (adjusted a + q + 1) <= 10 ^ (adjusted b + q)).
        { apply pow10_le. unfold adjusted in *.
          pose proof (len_pos (_int a)). lia. }
        lia.
      - assert (10 ^ (adjusted b + q + 1) <= 10 ^ (adjusted a + q)).
        { apply pow10_le. unfold adjusted in *.
          pose proof (len_pos (_int b)). lia. }
        lia. }
    destruct (_sign a) eqn:Sa, (_sign b) eqn:Sb; cbn [andb negb];
      unfold minus_one_pow in *;
      try (split; intros; lia);
      (destruct (Z.eqb_spec (adjusted a) (adjusted b)) as [Ea|Ea];
       [ destruct (N.eqb (_int a * pow10 (_exp a - _exp b))
                         (_int b * pow10 (_exp b - _exp a))) eqn:Ep;
         [ split; [intros _ | reflexivity];
           assert (Z.abs (scaled q a) = Z.abs (scaled q b))
             by (apply Hpad; reflexivity); lia
         | assert (Z.abs (scaled q a) <> Z.abs (scaled q b))
             by (intros Hc; apply Hpad in Hc; discriminate Hc);
           destruct (N.ltb _ _); split; intros; lia ]
       | specialize (Hadj Ea);
         destruct (Z.gtb _ _); split; intros; lia ]).
Qed.

(** ** Calls of the formulas *)

Lemma valid_getcontext : valid_context getcontext.
Proof. unfold valid_context. cbn. lia. Qed.

Lemma places_fit_getcontext (q : Z) :
  0 <= q <= - Etiny getcontext -> places_fit getcontext q.
Proof. unfold places_fit. cbn. lia. Qed.

Lemma gt_zero_nonzero (d : Decimal) :
  __gt__ d (Decimal_of_int 0) = true -> _int d <> 0%N.
Proof. intros H. apply gt_zero_iff in H. tauto. Qed.

Lemma pos_nonzero (d : Decimal) : (0 < to_Q d)%Q -> _int d <> 0%N.
Proof. intros H. apply to_Q_pos_iff in H. tauto. Qed.

Lemma returns_rounded_div (a b : Decimal) :
  _int b <> 0%N ->
  returns_rounded (to_Q a / to_Q b) (outcome_of (__truediv__ a b getcontext)).
Proof.
  intros Hb. eexists. split; [reflexivity|].
  apply truediv_rounds; [apply valid_getcontext | exact Hb].
Qed.

Lemma outcome_of_not_invalid (r : result Decimal) (n : string) (v : Decimal) :
  outcome_of r <> Raised (InvalidInputError n v).
Proof. destruct r; discriminate. Qed.

(** The seven pure ratios: past the validation they are one division. *)
Lemma ratio_calls (a b : Decimal) :
  (0 < to_Q b)%Q ->
  call (reserve_replacement_ratio a b) = outcome_of (__truediv__ a b getcontext) /\
  call (lifting_cost a b) = outcome_of (__truediv__ a b getcontext) /\
  call (breakeven_price a b) = outcome_of (__truediv__ a b getcontext) /\
  call (recycle_ratio a b) = outcome_of (__truediv__ a b getcontext) /\
  ((0 < to_Q a)%Q ->
   call (reserve_life_index a b) = outcome_of (__truediv__ a b getcontext) /\
   call (reserves_per_share a b) = outcome_of (__truediv__ a b getcontext) /\
   call (capital_efficiency a b) = outcome_of (__truediv__ a b getcontext)).
Proof.
  intros Hb. apply gt_zero_true in Hb.
  repeat match goal with |- _ /\ _ => split end;
    try (intros Ha; apply gt_zero_true in Ha;
         repeat match goal with |- _ /\ _ => split end);
    run_exec; rewrite ?Ha, ?Hb; run_exec; unfold apply_operator;
    destruct (__truediv__ a b getcontext); reflexivity.
Qed.

Lemma same_outcome_of (r1 r2 : result Decimal) :
  same_number r1 r2 -> same_outcome (outcome_of r1) (outcome_of r2).
Proof.
  destruct r1, r2; cbn [same_number outcome_of same_outcome]; intros H;
    [apply eq_spec; exact H | contradiction | contradiction | congruence].
Qed.

(** Division depends on its operands only through their exact quotient. *)
Lemma truediv_same_quotient (a b a' b' : Decimal) :
  _int b <> 0%N -> _int b' <> 0%N ->
  (to_Q a' / to_Q b' == to_Q a / to_Q b)%Q ->
  same_number (__truediv__ a' b' getcontext) (__truediv__ a b getcontext).
Proof.
  intros Hb Hb' E.
  apply (rounds_to_unique getcontext (to_Q a / to_Q b)).
  - apply (rounds_to_wd getcontext (to_Q a' / to_Q b')); [exact E|].
    apply truediv_rounds; [apply valid_getcontext | exact Hb'].
  - apply truediv_rounds; [apply valid_getcontext | exact Hb].
Qed.

Lemma binop_add_exact (q : Z) (a b : Decimal) (log : list Event) :
  0 <= q <= - Etiny getcontext ->
  - q <= _exp a -> - q <= _exp b ->
  Z.abs (scaled q a) + Z.abs (scaled q b) < 10 ^ prec getcontext ->
  exists c, binop Add a b log = (Returned c, (log ++ [Computed Add a b])%list) /\
            - q <= _exp c /\ scaled q c = scaled q a + scaled q b.
Proof.
  intros Hq Ha Hb Hs.
  destruct (add_exact getcontext q valid_getcontext
              (places_fit_getcontext q Hq) a b Ha Hb Hs)
    as (c & Hc & Hec & Hsc).
  exists c. split; [|split; assumption].
  unfold binop, bind, emit, of_result, apply_operator, ret. rewrite Hc.
  reflexivity.
Qed.

Lemma binop_sub_exact (q : Z) (a b : Decimal) (log : list Event) :
  0 <= q <= - Etiny getcontext ->
  - q <= _exp a -> - q <= _exp b ->
  Z.abs (scaled q a) + Z.abs (scaled q b) < 10 ^ prec getcontext ->
  exists c, binop Sub a b log = (Returned c, (log ++ [Computed Sub a b])%list) /\
            - q <= _exp c /\ scaled q c = scaled q a - scaled q b.
Proof.
  intros Hq Ha Hb Hs.
  destruct (sub_exact getcontext q valid_getcontext
              (places_fit_getcontext q Hq) a b Ha Hb Hs)
    as (c & Hc & Hec & Hsc).
  exists c. split; [|split; assumption].
  unfold binop, bind, emit, of_result, apply_operator, ret. rewrite Hc.
  reflexivity.
Qed.

Lemma netback_exact (q : Z) (p r t o : Decimal) (log : list Event) :
  0 <= q <= - Etiny getcontext ->
  - q <= _exp p -> - q <= _exp r -> - q <= _exp t -> - q <= _exp o ->
  Z.abs (scaled q p) + Z.abs (scaled q r) + Z.abs (scaled q t)
  + Z.abs (scaled q o) < 10 ^ prec getcontext ->
  exists nb log',
    netback p r t o log = (Returned nb, log') /\
    - q <= _exp nb /\
    scaled q nb = scaled q p - scaled q r - scaled q t - scaled q o.
Proof.
  intros Hq Hp Hr Ht Ho Hs. unfold netback, bind.
  destruct (binop_sub_exact q p r log Hq Hp Hr ltac:(lia))
    as (d1 & -> & He1 & Hs1).
  destruct (binop_sub_exact q d1 t (log ++ [Computed Sub p r])%list
              Hq He1 Ht ltac:(lia)) as (d2 & -> & He2 & Hs2).
  destruct (binop_sub_exact q d2 o
              ((log ++ [Computed Sub p r]) ++ [Computed Sub d1 t])%list
              Hq He2 Ho ltac:(lia)) as (nb & -> & He3 & Hs3).
  exists nb. eexists. split; [reflexivity|]. split; [exact He3 | lia].
Qed.

Lemma within_precision_4 (q : Z) (p r t o : Decimal) :
  within_precision q [p; r; t; o] ->
  0 <= q <= - Etiny getcontext /\
  (- q <= _exp p /\ - q <= _exp r /\ - q <= _exp t /\ - q <= _exp o) /\
  Z.abs (scaled q p) + Z.abs (scaled q r) + Z.abs (scaled q t)
  + Z.abs (scaled q o) < 10 ^ prec getcontext.
Proof.
  intros (Hq & Hexp & Htot).
  repeat (apply Forall_cons_iff in Hexp;
          let H := fresh "He" in destruct Hexp as [H Hexp]).
  cbn [total_units fold_right] in Htot. repeat split; try assumption; lia.
Qed.

Lemma within_precision_5 (q : Z) (p r t o d : Decimal) :
  within_precision q [p; r; t; o; d] ->
  0 <= q <= - Etiny getcontext /\
  (- q <= _exp p /\ - q <= _exp r /\ - q <= _exp t /\ - q <= _exp o
   /\ - q <= _exp d) /\
  Z.abs (scaled q p) + Z.abs (scaled q r) + Z.abs (scaled q t)
  + Z.abs (scaled q o) + Z.abs (scaled q d) < 10 ^ prec getcontext.
Proof.
  intros (Hq & Hexp & Htot).
  repeat (apply Forall_cons_iff in Hexp;
          let H := fresh "He" in destruct Hexp as [H Hexp]).
  cbn [total_units fold_right] in Htot. repeat split; try assumption; lia.
Qed.

Ltac solve_within_precision :=
  unfold within_precision; split;
  [ vm_compute; split; discriminate
  | split; [ repeat constructor; vm_compute; discriminate
           | vm_compute; reflexivity ] ].

(** ** The worked examples of the specification *)

Example finding_development_cost_example :
  exists v,
    call (finding_development_cost (Decimal_of_int 20000000)
            (Decimal_of_int 30000000) (Decimal_of_int 5000000)) = Returned v /\
    __eq__ v (hundredths 1000) = true.
Proof. eexists. split; vm_compute; reflexivity. Qed.

Example reserve_life_index_example :
  exists v,
    call (reserve_life_index (Decimal_of_int 100000000)
            (Decimal_of_int 10000000)) = Returned v /\
    __eq__ v (hundredths 1000) = true.
Proof. eexists. split; vm_compute; reflexivity. Qed.

Example recycle_ratio_examples :
  (exists v,
     call (recycle_ratio (hundredths 4500) (hundredths 1500)) = Returned v /\
     __eq__ v (hundredths 300) = true) /\
  (exists v,
     call (recycle_ratio (hundredths 1000) (hundredths 2500)) = Returned v /\
     __eq__ v (hundredths 40) = true).
Proof. split; eexists; split; vm_compute; reflexivity. Qed.

Example capital_efficiency_example :
  call (capital_efficiency (Decimal_of_int 5000) (Decimal_of_int 100000000))
  = Returned (_dec_from_triple false 5 (-5)).
Proof. vm_compute. reflexivity. Qed.

(** ** The formulas in the ambient context *)

(** The operators are [_fix] applied to their unrounded answer. *)
Lemma add_ans_fix (a b : Decimal) (context : Context) :
  __add__ a b context = _fix (add_ans a b context) context.
Proof.
  unfold __add__, add_ans. cbv zeta.
  repeat match goal with
         | |- context [if ?b then _ else _] => destruct b
         | |- context [let '(_, _) := ?p in _] => destruct p
         end; reflexivity.
Qed.

Lemma mul_ans_fix (a b : Decimal) (context : Context) :
  __mul__ a b context = _fix (mul_ans a b) context.
Proof.
  unfold __mul__, mul_ans. cbv zeta.
  repeat match goal with
         | |- context [if ?b then _ else _] => destruct b
         end; reflexivity.
Qed.

Lemma truediv_ans_fix (a b : Decimal) (context : Context) :
  __bool__ b = true ->
  __truediv__ a b context = _fix (truediv_ans a b context) context.
Proof.
  intros Hb. unfold __truediv__, truediv_ans. cbv zeta. rewrite Hb.
  cbn [negb].
  match goal with
  | |- context [let '(_, _) := ?p in _] => destruct p
  end. reflexivity.
Qed.

(** [_fix] raises exactly when it signals a trapped condition, and that is
    then the only condition it signals. *)
Lemma fix_conditions_trap (d : Decimal) (context : Context) :
  match _fix d context with
  | Trap s => _fix_conditions d context = [Trapped s]
  | Value _ => forall s, ~ In (Trapped s) (_fix_conditions d context)
  end.
Proof.
  unfold _fix, _fix_conditions. cbv zeta.
  repeat match goal with
         | |- context [if ?b then _ else _] => destruct b
         | |- context [let '(_, _) := ?p in _] => destruct p
         end;
    try reflexivity;
    intros s H; cbn [app In] in H;
    repeat match goal with
           | H : _ \/ _ |- _ => destruct H as [H|H]
           | H : False |- _ => destruct H
           | H : _ = Trapped _ |- _ => discriminate H
           end.
Qed.

Lemma conditions_trap (context : Context) (op : Operator) (a b : Decimal) :
  match apply_in context op a b with
  | Trap s => conditions context op a b = [Trapped s]
  | Value _ => forall s, ~ In (Trapped s) (conditions context op a b)
  end.
Proof.
  destruct op; cbn [apply_in conditions].
  - rewrite add_ans_fix. apply fix_conditions_trap.
  - unfold __sub__. rewrite add_ans_fix. apply fix_conditions_trap.
  - rewrite mul_ans_fix. apply fix_conditions_trap.
  - destruct (__bool__ b) eqn:Hb; cbn [negb].
    + rewrite (truediv_ans_fix a b context Hb). apply fix_conditions_trap.
    + unfold __truediv__. rewrite Hb. cbn [negb].
      destruct (__bool__ a); reflexivity.
Qed.

(** Every step of a formula is [framed], and so is their sequence. *)
Lemma framed_ret {A : Type} (a : A) : framed (ambient.ret a).
Proof.
  intros s. cbn. rewrite app_nil_r. repeat split.
Qed.

Lemma framed_raise {A : Type} (e : Exception) :
  framed (@ambient.raise A e).
Proof.
  intros s. cbn. rewrite app_nil_r. repeat split.
Qed.

Lemma framed_binop (op : Operator) (a b : Decimal) :
  framed (ambient.binop op a b).
Proof.
  intros s. cbn. repeat split.
Qed.

Lemma framed_validate_positive (value : Decimal) (name : string) :
  framed (ambient.validate_positive value name).
Proof.
  unfold ambient.validate_positive.
  destruct (__gt__ value (Decimal_of_int 0));
    [apply framed_ret | apply framed_raise].
Qed.

Lemma framed_bind {A B : Type} (m : Run A) (k : A -> Run B) :
  framed m -> (forall a, framed (k a)) -> framed (ambient.bind m k).
Proof.
  intros Hm Hk s. destruct (Hm s) as (Ho & Hs & Hf).
  assert (Hc : settings (snd (m (clear_flags s))) = settings s)
    by apply (Hm (clear_flags s)).
  unfold ambient.bind.
  destruct (m s) as [o s'], (m (clear_flags s)) as [o0 s0].
  cbn [fst snd] in Ho, Hs, Hf, Hc. subst o0.
  destruct o as [a|e]; cbn [fst snd]; [|auto].
  assert (Hcl : clear_flags s' = clear_flags s0)
    by (unfold clear_flags; congruence).
  destruct (Hk a s') as (Ho1 & Hs1 & Hf1).
  destruct (Hk a s0) as (Ho2 & _ & Hf2).
  rewrite Hcl in Ho1, Hf1. rewrite Ho1, Hs1, Hf1, Hf2, Hf.
  cbn [clear_flags flags app]. rewrite app_assoc. auto using eq_sym.
Qed.

Ltac framed_steps :=
  repeat first
    [ apply framed_ret
    | apply framed_binop
    | apply framed_validate_positive
    | apply framed_bind; [|intro] ].

Lemma framed_evaluate (f : Formula) : framed (ambient.evaluate f).
Proof.
  destruct f; cbn [ambient.evaluate];
    unfold ambient.finding_development_cost,
      ambient.reserve_replacement_ratio, ambient.reserve_life_index,
      ambient.reserves_per_share, ambient.lifting_cost, ambient.netback,
      ambient.breakeven_price, ambient.operating_netback_margin,
      ambient.capital_efficiency, ambient.recycle_ratio;
    framed_steps.
Qed.

(** Under the default settings the formulas have the outcomes of
    [evaluate], whatever the flags: what is proved of [call (evaluate f)]
    holds of the call made in a thread that has not changed its context. *)
Lemma agrees_ret {A : Type} (a : A) : agrees (ambient.ret a) (ret a).
Proof. intros s log _. reflexivity. Qed.

Lemma agrees_binop (op : Operator) (a b : Decimal) :
  agrees (ambient.binop op a b) (binop op a b).
Proof.
  intros s log Hs. unfold ambient.binop, binop, bind, emit. cbn [fst].
  rewrite Hs.
  replace (apply_in getcontext op a b) with (apply_operator op a b)
    by (destruct op; reflexivity).
  destruct (apply_operator op a b); reflexivity.
Qed.

Lemma agrees_validate_positive (value : Decimal) (name : string) :
  agrees (ambient.validate_positive value name)
         (validate_positive value name).
Proof.
  intros s log _.
  unfold ambient.validate_positive, validate_positive, bind, emit.
  destruct (__gt__ value (Decimal_of_int 0)); reflexivity.
Qed.

Lemma agrees_bind {A B : Type} (m : Run A) (k : A -> Run B)
  (e : Exec A) (ke : A -> Exec B) :
  framed m -> agrees m e -> (forall a, agrees (k a) (ke a)) ->
  agrees (ambient.bind m k) (bind e ke).
Proof.
  intros Hf Hm Hk s log Hs. specialize (Hm s log Hs).
  destruct (Hf s) as (_ & Hs' & _). rewrite Hs in Hs'.
  unfold ambient.bind, bind.
  destruct (m s) as [o s'], (e log) as [o' log'].
  cbn [fst snd] in Hm, Hs'. subst o'.
  destruct o as [a|x]; [apply (Hk a s' log' Hs') | reflexivity].
Qed.

Ltac agrees_steps :=
  repeat first
    [ apply agrees_ret
    | apply agrees_binop
    | apply agrees_validate_positive
    | apply agrees_bind;
      [solve [apply framed_binop | apply framed_validate_positive]
      | | intro] ].

Lemma evaluate_in_default_context (f : Formula) (flagged : list Condition) :
  fst (ambient.evaluate f {| settings := getcontext; flags := flagged |})
  = call (evaluate f).
Proof.
  cut (agrees (ambient.evaluate f) (evaluate f)).
  { intros H. apply H. reflexivity. }
  destruct f; cbn [ambient.evaluate evaluate];
    unfold ambient.finding_development_cost,
      ambient.reserve_replacement_ratio, ambient.reserve_life_index,
      ambient.reserves_per_share, ambient.lifting_cost, ambient.netback,
      ambient.breakeven_price, ambient.operating_netback_margin,
      ambient.capital_efficiency, ambient.recycle_ratio,
      finding_development_cost, reserve_replacement_ratio,
      reserve_life_index, reserves_per_share, lifting_cost, netback,
      breakeven_price, operating_netback_margin, capital_efficiency,
      recycle_ratio;
    agrees_steps.
Qed.

(** * The claims of the specification *)

Local Open Scope string_scope.

(** C1.  Each of the nine formula functions with a "must be positive"
    precondition raises the "invalid input" error if and only if one of its
    required-positive parameters is zero or negative, and the error carries
    the name and the value of such a parameter. *)
Theorem invalid_input_iff_not_positive :
  (forall e d r, invalid_input_iff_nonpositive
     (finding_development_cost e d r) [("reserves_added", r)]) /\
  (forall a p, invalid_input_iff_nonpositive
     (reserve_replacement_ratio a p) [("production", p)]) /\
  (forall r p, invalid_input_iff_nonpositive
     (reserve_life_index r p)
     [("proved_reserves", r); ("annual_production", p)]) /\
  (forall r s, invalid_input_iff_nonpositive
     (reserves_per_share r s)
     [("total_proved_reserves", r); ("shares_outstanding", s)]) /\
  (forall c p, invalid_input_iff_nonpositive
     (lifting_cost c p) [("total_production", p)]) /\
  (forall c p, invalid_input_iff_nonpositive
     (breakeven_price c p) [("total_production", p)]) /\
  (forall n p, invalid_input_iff_nonpositive
     (operating_netback_margin n p) [("oil_price", p)]) /\
  (forall p c, invalid_input_iff_nonpositive
     (capital_efficiency p c)
     [("production_added", p); ("capital_expenditure", c)]) /\
  (forall n c, invalid_input_iff_nonpositive
     (recycle_ratio n c) [("finding_development_cost", c)]).
Proof.
  repeat match goal with |- _ /\ _ => split end; intros;
    first [ apply guard_one; guard_solve | apply guard_two; guard_solve ].
Qed.

(** C2, as amended.  For every [exploration_costs] and
    [development_costs], of any sign, and every [reserves_added] greater
    than zero, [finding_development_cost] never raises "invalid input"; it
    raises Overflow when the sum overflows, and otherwise its outcome is the
    quotient of the Decimal sum by [reserves_added], rounded half-even to
    the 28 significant digits of the context.  When the two costs have at
    most [q] decimal places and their sum needs at most 28 digits, the
    outcome is the exact [(exploration_costs + development_costs) /
    reserves_added] so rounded. *)
Theorem finding_development_cost_rounded
  (exploration_costs development_costs reserves_added : Decimal) :
  (0 < to_Q reserves_added)%Q ->
  (forall name value,
     ~ raises_invalid_input
         (finding_development_cost exploration_costs development_costs
            reserves_added) name value) /\
  (forall s, __add__ exploration_costs development_costs getcontext = Trap s ->
     call (finding_development_cost exploration_costs development_costs
             reserves_added) = Raised (DecimalException Overflow)) /\
  (forall total,
     __add__ exploration_costs development_costs getcontext = Value total ->
     returns_rounded (to_Q total / to_Q reserves_added)
       (call (finding_development_cost exploration_costs development_costs
                reserves_added))) /\
  (forall q, within_precision q [exploration_costs; development_costs] ->
     returns_rounded
       ((to_Q exploration_costs + to_Q development_costs)
        / to_Q reserves_added)
       (call (finding_development_cost exploration_costs development_costs
                reserves_added))).
Proof.
  intros Hr. pose proof (pos_nonzero _ Hr) as Hnz.
  apply gt_zero_true in Hr.
  assert (Hcall : call (finding_development_cost exploration_costs
                          development_costs reserves_added)
                  = match __add__ exploration_costs development_costs
                            getcontext with
                    | Value total =>
                        outcome_of (__truediv__ total reserves_added getcontext)
                    | Trap s => Raised (DecimalException s)
                    end).
  { run_exec. rewrite Hr. run_exec. unfold apply_operator.
    destruct (__add__ exploration_costs development_costs getcontext);
      [|reflexivity].
    run_exec. destruct (__truediv__ a reserves_added getcontext); reflexivity. }
  assert (Hsum : forall total,
            __add__ exploration_costs development_costs getcontext
            = Value total ->
            returns_rounded (to_Q total / to_Q reserves_added)
              (call (finding_development_cost exploration_costs
                       development_costs reserves_added))).
  { intros total Ht. rewrite Hcall, Ht. apply returns_rounded_div. exact Hnz. }
  split; [|split; [|split]].
  - intros name value H. unfold raises_invalid_input in H. rewrite Hcall in H.
    destruct (__add__ exploration_costs development_costs getcontext);
      [exact (outcome_of_not_invalid _ _ _ H) | discriminate H].
  - intros s Hs. rewrite Hcall, Hs. apply add_trap in Hs. rewrite Hs.
    reflexivity.
  - exact Hsum.
  - intros q (Hq & Hexp & Htot).
    apply Forall_cons_iff in Hexp. destruct Hexp as [He Hexp].
    apply Forall_cons_iff in Hexp. destruct Hexp as [Hd _].
    cbn [total_units fold_right] in Htot.
    destruct (add_exact getcontext q valid_getcontext
                (places_fit_getcontext q Hq) exploration_costs
                development_costs He Hd ltac:(lia))
      as (total & Ht & Het & Hst).
    destruct (Hsum total Ht) as (r & Ho & Hround).
    exists r. split; [exact Ho|].
    eapply rounds_to_wd; [|exact Hround].
    rewrite (to_Q_scaled q total), (to_Q_scaled q exploration_costs),
      (to_Q_scaled q development_costs), Hst, inject_Z_plus by assumption.
    apply gt_zero_true in Hr.
    field. repeat split; try apply Qp_nonzero;
      intros E; rewrite E in Hr; discriminate Hr.
Qed.

(** C2, counterexample: [finding_development_cost(1, 0, 3)] returns a
    Decimal, and no Decimal is one third. *)
Lemma finding_development_cost_third_inexact :
  (0 < to_Q (Decimal_of_int 3))%Q /\
  exists v,
    call (finding_development_cost (Decimal_of_int 1) (Decimal_of_int 0)
            (Decimal_of_int 3)) = Returned v /\
    ~ (to_Q v == (to_Q (Decimal_of_int 1) + to_Q (Decimal_of_int 0))
               / to_Q (Decimal_of_int 3))%Q.
Proof.
  split; [reflexivity|]. eexists. split; [vm_compute; reflexivity|].
  intros H. vm_compute in H. discriminate H.
Qed.

(** C2, witness: costs of 20 and 30 million over 5 million BOE. *)
Lemma finding_development_cost_rounded_witness :
  (0 < to_Q (Decimal_of_int 5000000))%Q /\
  within_precision 0 [Decimal_of_int 20000000; Decimal_of_int 30000000] /\
  returns_rounded
    ((to_Q (Decimal_of_int 20000000) + to_Q (Decimal_of_int 30000000))
     / to_Q (Decimal_of_int 5000000))
    (call (finding_development_cost (Decimal_of_int 20000000)
             (Decimal_of_int 30000000) (Decimal_of_int 5000000))).
Proof.
  assert (Hr : (0 < to_Q (Decimal_of_int 5000000))%Q) by reflexivity.
  assert (Hw : within_precision 0
                 [Decimal_of_int 20000000; Decimal_of_int 30000000])
    by solve_within_precision.
  split; [exact Hr | split; [exact Hw|]].
  exact (proj2 (proj2 (proj2
    (finding_development_cost_rounded (Decimal_of_int 20000000)
       (Decimal_of_int 30000000) (Decimal_of_int 5000000) Hr))) 0 Hw).
Defined.

(** C3, as amended.  For strictly positive [reserves_added] and
    [production] the outcome of [reserve_replacement_ratio] is the exact
    quotient rounded half-even to 28 significant digits (Overflow when the
    rounded quotient is out of the exponent range); the quotient is
    returned exactly whenever it can be written with at most 28 digits at
    an exponent the context allows. *)
Theorem reserve_replacement_ratio_rounded (reserves_added production : Decimal) :
  (0 < to_Q reserves_added)%Q -> (0 < to_Q production)%Q ->
  returns_rounded (to_Q reserves_added / to_Q production)
    (call (reserve_replacement_ratio reserves_added production)) /\
  (forall (v : Decimal) (c z : Z),
     call (reserve_replacement_ratio reserves_added production) = Returned v ->
     (to_Q reserves_added / to_Q production == inject_Z c * 10 ^ z)%Q ->
     Z.abs c < 10 ^ prec getcontext -> Etiny getcontext <= z ->
     (to_Q v == to_Q reserves_added / to_Q production)%Q).
Proof.
  intros Ha Hb.
  destruct (ratio_calls reserves_added production Hb) as (Hcall & _).
  pose proof (pos_nonzero production Hb) as Hnz.
  pose proof (truediv_rounds getcontext valid_getcontext reserves_added
                production Hnz) as Hr.
  split.
  - rewrite Hcall. apply returns_rounded_div. exact Hnz.
  - intros v c z Hv Hx Hc Hz. rewrite Hcall in Hv.
    destruct (__truediv__ reserves_added production getcontext) as [d|s];
      [|discriminate Hv].
    injection Hv as ->.
    apply (rounds_to_exact getcontext valid_getcontext _ v c z Hr Hx Hc Hz).
Qed.

(** C3, counterexample: [reserve_replacement_ratio(1, 3)] is not one
    third. *)
Lemma reserve_replacement_ratio_third_inexact :
  (0 < to_Q (Decimal_of_int 1))%Q /\ (0 < to_Q (Decimal_of_int 3))%Q /\
  exists v,
    call (reserve_replacement_ratio (Decimal_of_int 1) (Decimal_of_int 3))
    = Returned v /\
    ~ (to_Q v == to_Q (Decimal_of_int 1) / to_Q (Decimal_of_int 3))%Q.
Proof.
  split; [reflexivity|]. split; [reflexivity|].
  eexists. split; [vm_compute; reflexivity|].
  intros H. vm_compute in H. discriminate H.
Qed.

(** C3, witness: 12 million BOE added against 10 million produced. *)
Lemma reserve_replacement_ratio_rounded_witness :
  (0 < to_Q (Decimal_of_int 12000000))%Q /\
  (0 < to_Q (Decimal_of_int 10000000))%Q /\
  returns_rounded
    (to_Q (Decimal_of_int 12000000) / to_Q (Decimal_of_int 10000000))
    (call (reserve_replacement_ratio (Decimal_of_int 12000000)
             (Decimal_of_int 10000000))).
Proof.
  assert (Ha : (0 < to_Q (Decimal_of_int 12000000))%Q) by reflexivity.
  assert (Hb : (0 < to_Q (Decimal_of_int 10000000))%Q) by reflexivity.
  split; [exact Ha | split; [exact Hb|]].
  exact (proj1 (reserve_replacement_ratio_rounded _ _ Ha Hb)).
Defined.

(** C4, as amended.  [netback] validates nothing: for arguments of any
    sign it never raises "invalid input", and the only exception it can
    raise is the Overflow of the decimal module.  When the four arguments
    have at most [q] decimal places and their magnitudes add up to at most
    28 digits, it returns exactly
    [oil_price - royalties - transportation - operating_costs].  In
    particular [netback(70.00, 10.00, 5.00, 15.00) == 40.00] and
    [netback(30.00, 5.00, 10.00, 25.00) == -10.00]. *)
Theorem netback_unvalidated_exact_within_precision :
  (forall p r t o,
     (forall name value, ~ raises_invalid_input (netback p r t o) name value) /\
     (forall e, call (netback p r t o) = Raised e ->
                e = DecimalException Overflow)) /\
  (forall q p r t o,
     within_precision q [p; r; t; o] ->
     exists nb, call (netback p r t o) = Returned nb /\
                (to_Q nb == to_Q p - to_Q r - to_Q t - to_Q o)%Q) /\
  (exists v,
     call (netback (hundredths 7000) (hundredths 1000) (hundredths 500)
             (hundredths 1500)) = Returned v /\
     __eq__ v (hundredths 4000) = true) /\
  (exists v,
     call (netback (hundredths 3000) (hundredths 500) (hundredths 1000)
             (hundredths 2500)) = Returned v /\
     __eq__ v (hundredths (-1000)) = true).
Proof.
  split; [|split; [|split]].
  - intros p r t o. split.
    + intros name value. run_cases; intros H; discriminate H.
    + intros e. run_cases; intros H; try discriminate H;
        injection H as <-; unfold apply_operator in *;
        match goal with
        | Hs : __sub__ _ _ _ = Trap _ |- _ =>
            apply sub_trap in Hs; rewrite Hs; reflexivity
        end.
  - intros q p r t o H.
    destruct (within_precision_4 q p r t o H)
      as (Hq & (Hp & Hr & Ht & Ho) & Hs).
    destruct (netback_exact q p r t o [] Hq Hp Hr Ht Ho Hs)
      as (nb & log' & Hrun & He & Hsc).
    exists nb. split.
    + unfold call. rewrite Hrun. reflexivity.
    + rewrite (to_Q_scaled q nb), (to_Q_scaled q p), (to_Q_scaled q r),
        (to_Q_scaled q t), (to_Q_scaled q o), Hsc by assumption.
      push_inject. field. apply Qp_nonzero.
  - eexists. split; vm_compute; reflexivity.
  - eexists. split; vm_compute; reflexivity.
Qed.

(** C4, counterexample: [netback(9E+999999, -9E+999999, 0, 0)] raises
    Overflow. *)
Lemma netback_overflow :
  call (netback (_dec_from_triple false 9 999999)
                (_dec_from_triple true 9 999999)
                (Decimal_of_int 0) (Decimal_of_int 0))
  = Raised (DecimalException Overflow).
Proof. vm_compute. reflexivity. Qed.

(** C4, witness: the first example of the specification, in
    hundredths. *)
Lemma netback_unvalidated_exact_within_precision_witness :
  within_precision 2
    [hundredths 7000; hundredths 1000; hundredths 500; hundredths 1500] /\
  exists nb,
    call (netback (hundredths 7000) (hundredths 1000) (hundredths 500)
            (hundredths 1500)) = Returned nb /\
    (to_Q nb == to_Q (hundredths 7000) - to_Q (hundredths 1000)
                - to_Q (hundredths 500) - to_Q (hundredths 1500))%Q.
Proof.
  assert (Hw : within_precision 2
    [hundredths 7000; hundredths 1000; hundredths 500; hundredths 1500])
    by solve_within_precision.
  split; [exact Hw|].
  exact (proj1 (proj2 netback_unvalidated_exact_within_precision) 2 _ _ _ _ Hw).
Defined.

(** C5, as amended.  [operating_netback_margin(40.00, 70.00)] returns
    57.14285714285714285714285714, the quotient rounded to 28 significant
    digits times 100; the function does not round to two decimal places,
    and the result is within 0.005 of 57.14. *)
Theorem operating_netback_margin_example_unrounded :
  call (operating_netback_margin (hundredths 4000) (hundredths 7000))
  = Returned (_dec_from_triple false 5714285714285714285714285714 (-26)) /\
  (Qabs (to_Q (_dec_from_triple false 5714285714285714285714285714 (-26))
         - (5714 # 100)) < 5 # 1000)%Q.
Proof. split; vm_compute; reflexivity. Qed.

(** C5, counterexample: the value returned for (40.00, 70.00) is not
    [== 57.14]. *)
Lemma operating_netback_margin_example_not_57_14 :
  ~ exists v,
      call (operating_netback_margin (hundredths 4000) (hundredths 7000))
      = Returned v /\
      __eq__ v (hundredths 5714) = true.
Proof.
  intros (v & Hv & E). vm_compute in Hv. injection Hv as <-.
  vm_compute in E. discriminate E.
Qed.

(** C6, as amended.  A formula function is deterministic given the
    settings of the decimal context of the thread, and its only side
    effect is on the flags of that context: two calls of the same function
    on equal inputs, made under equal settings, have equal results (both
    return the same value or both raise the same error), whatever was
    flagged before each; a call leaves the settings as they were; every
    condition flagged before the call is still flagged after it, and the
    conditions the call adds depend on the inputs and the settings alone. *)
Theorem formulas_deterministic_given_settings
  (f : Formula) (s1 s2 : Ambient) :
  settings s1 = settings s2 ->
  fst (ambient.evaluate f s1) = fst (ambient.evaluate f s2) /\
  settings (snd (ambient.evaluate f s1)) = settings s1 /\
  flags (snd (ambient.evaluate f s1))
  = (flags s1 ++ signalled f (settings s1))%list.
Proof.
  intros H.
  destruct (framed_evaluate f s1) as (Ho1 & Hs1 & Hf1).
  destruct (framed_evaluate f s2) as (Ho2 & _ & _).
  assert (Hc : clear_flags s1 = clear_flags s2)
    by (unfold clear_flags; congruence).
  repeat split.
  - rewrite Ho1, Ho2, Hc. reflexivity.
  - exact Hs1.
  - exact Hf1.
Qed.

(** C6, counterexample: [reserve_replacement_ratio(1, 3)] returns
    0.3333333333333333333333333333 under the default settings and 0.33333
    when the precision of the context is 5, and called in a context with
    no flag set it leaves Inexact and Rounded flagged. *)
Lemma reserve_replacement_ratio_reads_and_flags_context :
  let f := ReserveReplacementRatio (Decimal_of_int 1) (Decimal_of_int 3) in
  let s1 := {| settings := getcontext; flags := [] |} in
  let s2 := {| settings := {| prec := 5; Emin := -999999; Emax := 999999 |};
               flags := [] |} in
  fst (ambient.evaluate f s1)
  = Returned (_dec_from_triple false 3333333333333333333333333333 (-28)) /\
  fst (ambient.evaluate f s2)
  = Returned (_dec_from_triple false 33333 (-5)) /\
  fst (ambient.evaluate f s1) <> fst (ambient.evaluate f s2) /\
  flags (snd (ambient.evaluate f s1)) = [Inexact; Rounded] /\
  snd (ambient.evaluate f s1) <> s1.
Proof.
  cbv zeta. repeat split; try (vm_compute; reflexivity);
    vm_compute; discriminate.
Qed.

(** C6, witness: [reserve_replacement_ratio(1, 3)] under the default
    settings, once with no flag set and once with Inexact flagged. *)
Lemma formulas_deterministic_given_settings_witness :
  let f := ReserveReplacementRatio (Decimal_of_int 1) (Decimal_of_int 3) in
  let s1 := {| settings := getcontext; flags := [] |} in
  let s2 := {| settings := getcontext; flags := [Inexact] |} in
  settings s1 = settings s2 /\
  fst (ambient.evaluate f s1) = fst (ambient.evaluate f s2) /\
  settings (snd (ambient.evaluate f s1)) = settings s1 /\
  flags (snd (ambient.evaluate f s1))
  = (flags s1 ++ signalled f (settings s1))%list.
Proof.
  cbv zeta. split; [reflexivity|].
  apply (formulas_deterministic_given_settings
           (ReserveReplacementRatio (Decimal_of_int 1) (Decimal_of_int 3))
           {| settings := getcontext; flags := [] |}
           {| settings := getcontext; flags := [Inexact] |}).
  reflexivity.
Defined.

(** C7.  In every formula function a violated precondition raises before
    any arithmetic on the arguments: when a call raises "invalid input" the
    operations it went through contain no addition, subtraction,
    multiplication or division, and no call ever divides by a divisor that
    is not positive. *)
Theorem invalid_input_before_arithmetic (f : Formula) :
  (forall name value, raises_invalid_input (evaluate f) name value ->
     Forall (fun ev => is_arithmetic ev = false) (trace (evaluate f))) /\
  (forall a b, In (Computed TrueDiv a b) (trace (evaluate f)) ->
     (0 < to_Q b)%Q).
Proof.
  split.
  - intros name value. destruct f; run_cases; intros H;
      try discriminate H; repeat constructor.
  - intros a b. destruct f; run_cases; simpl; intros H;
      repeat match goal with
        | H : _ \/ _ |- _ => destruct H as [H|H]
        | H : False |- _ => destruct H
        | H : Compared _ _ = Computed _ _ _ |- _ => discriminate H
        | H : Computed _ _ _ = Computed _ _ _ |- _ =>
            first [ discriminate H
                  | injection H as <- <-; apply gt_zero_true; assumption ]
        end.
Qed.

(** C7, witness: [breakeven_price(1000000, 0)]. *)
Lemma invalid_input_before_arithmetic_witness :
  (raises_invalid_input
     (evaluate (BreakevenPrice (Decimal_of_int 1000000) (Decimal_of_int 0)))
     "total_production" (Decimal_of_int 0) /\
   Forall (fun ev => is_arithmetic ev = false)
     (trace (evaluate (BreakevenPrice (Decimal_of_int 1000000)
                                      (Decimal_of_int 0))))) /\
  (In (Computed TrueDiv (Decimal_of_int 500000000) (Decimal_of_int 10000000))
      (trace (evaluate (BreakevenPrice (Decimal_of_int 500000000)
                                       (Decimal_of_int 10000000)))) /\
   (0 < to_Q (Decimal_of_int 10000000))%Q).
Proof.
  assert (H : raises_invalid_input
    (evaluate (BreakevenPrice (Decimal_of_int 1000000) (Decimal_of_int 0)))
    "total_production" (Decimal_of_int 0)) by reflexivity.
  assert (Hin : In (Computed TrueDiv (Decimal_of_int 500000000)
                      (Decimal_of_int 10000000))
                   (trace (evaluate (BreakevenPrice (Decimal_of_int 500000000)
                                       (Decimal_of_int 10000000)))))
    by (vm_compute; right; left; reflexivity).
  split; split.
  - exact H.
  - exact (proj1 (invalid_input_before_arithmetic _) _ _ H).
  - exact Hin.
  - exact (proj2 (invalid_input_before_arithmetic _) _ _ Hin).
Defined.

(** C8, as amended.  When the four arguments and [delta] have at most
    [q] decimal places and their magnitudes add up to at most 28 digits,
    raising [oil_price] by [delta] raises [netback] by [delta], and
    raising [royalties], [transportation] or [operating_costs] by [delta]
    lowers it by [delta]: both sides return values that are [==]. *)
Theorem netback_linear_within_precision (q : Z) (p r t o delta : Decimal) :
  within_precision q [p; r; t; o; delta] ->
  both_return_same (p' <- binop Add p delta ;; netback p' r t o)%exec
                   (netback_plus p r t o delta) /\
  both_return_same (r' <- binop Add r delta ;; netback p r' t o)%exec
                   (netback_minus p r t o delta) /\
  both_return_same (t' <- binop Add t delta ;; netback p r t' o)%exec
                   (netback_minus p r t o delta) /\
  both_return_same (o' <- binop Add o delta ;; netback p r t o')%exec
                   (netback_minus p r t o delta).
Proof.
  intros H.
  destruct (within_precision_5 q p r t o delta H)
    as (Hq & (Hp & Hr & Ht & Ho & Hd) & Hs).
  destruct (netback_exact q p r t o [] Hq Hp Hr Ht Ho ltac:(lia))
    as (nb & log0 & Hnb & Henb & Hsnb).
  destruct (binop_add_exact q nb delta log0 Hq Henb Hd ltac:(lia))
    as (w1 & Hw1 & Hew1 & Hsw1).
  destruct (binop_sub_exact q nb delta log0 Hq Henb Hd ltac:(lia))
    as (w2 & Hw2 & Hew2 & Hsw2).
  assert (Hplus : call (netback_plus p r t o delta) = Returned w1).
  { unfold call, netback_plus, bind. rewrite Hnb, Hw1. reflexivity. }
  assert (Hminus : call (netback_minus p r t o delta) = Returned w2).
  { unfold call, netback_minus, bind. rewrite Hnb, Hw2. reflexivity. }
  repeat match goal with |- _ /\ _ => split end.
  - destruct (binop_add_exact q p delta [] Hq Hp Hd ltac:(lia))
      as (x & Hx & Hex & Hsx).
    destruct (netback_exact q x r t o ([] ++ [Computed Add p delta])%list
                Hq Hex Hr Ht Ho ltac:(lia)) as (v & lg & Hv & Hev & Hsv).
    exists v, w1. split; [|split; [exact Hplus|]].
    + unfold call, bind. rewrite Hx, Hv. reflexivity.
    + apply eq_spec, (same_units q); [assumption | assumption | lia].
  - destruct (binop_add_exact q r delta [] Hq Hr Hd ltac:(lia))
      as (x & Hx & Hex & Hsx).
    destruct (netback_exact q p x t o ([] ++ [Computed Add r delta])%list
                Hq Hp Hex Ht Ho ltac:(lia)) as (v & lg & Hv & Hev & Hsv).
    exists v, w2. split; [|split; [exact Hminus|]].
    + unfold call, bind. rewrite Hx, Hv. reflexivity.
    + apply eq_spec, (same_units q); [assumption | assumption | lia].
  - destruct (binop_add_exact q t delta [] Hq Ht Hd ltac:(lia))
      as (x & Hx & Hex & Hsx).
    destruct (netback_exact q p r x o ([] ++ [Computed Add t delta])%list
                Hq Hp Hr Hex Ho ltac:(lia)) as (v & lg & Hv & Hev & Hsv).
    exists v, w2. split; [|split; [exact Hminus|]].
    + unfold call, bind. rewrite Hx, Hv. reflexivity.
    + apply eq_spec, (same_units q); [assumption | assumption | lia].
  - destruct (binop_add_exact q o delta [] Hq Ho Hd ltac:(lia))
      as (x & Hx & Hex & Hsx).
    destruct (netback_exact q p r t x ([] ++ [Computed Add o delta])%list
                Hq Hp Hr Ht Hex ltac:(lia)) as (v & lg & Hv & Hev & Hsv).
    exists v, w2. split; [|split; [exact Hminus|]].
    + unfold call, bind. rewrite Hx, Hv. reflexivity.
    + apply eq_spec, (same_units q); [assumption | assumption | lia].
Qed.

(** C8, counterexample: with [oil_price = royalties = 1E+28] and
    [delta = 1] the sum [oil_price + delta] needs 29 digits and is rounded:
    [netback(oil_price + delta, ...)] is 0 and [netback(...) + delta] is
    1. *)
Lemma netback_not_linear_at_29_digits :
  exists v w,
    call (p' <- binop Add (_dec_from_triple false 1 28) (Decimal_of_int 1) ;;
          netback p' (_dec_from_triple false 1 28)
                  (Decimal_of_int 0) (Decimal_of_int 0))%exec
    = Returned v /\
    call (netback_plus (_dec_from_triple false 1 28)
            (_dec_from_triple false 1 28)
            (Decimal_of_int 0) (Decimal_of_int 0) (Decimal_of_int 1))
    = Returned w /\
    __eq__ v w = false.
Proof.
  eexists. eexists. split; [vm_compute; reflexivity|].
  split; vm_compute; reflexivity.
Qed.

(** C8, witness: the first example of the specification and a delta of
    2.50. *)
Lemma netback_linear_within_precision_witness :
  within_precision 2
    [hundredths 7000; hundredths 1000; hundredths 500; hundredths 1500;
     hundredths 250] /\
  both_return_same
    (p' <- binop Add (hundredths 7000) (hundredths 250) ;;
     netback p' (hundredths 1000) (hundredths 500) (hundredths 1500))%exec
    (netback_plus (hundredths 7000) (hundredths 1000) (hundredths 500)
       (hundredths 1500) (hundredths 250)).
Proof.
  assert (Hw : within_precision 2
    [hundredths 7000; hundredths 1000; hundredths 500; hundredths 1500;
     hundredths 250]) by solve_within_precision.
  split; [exact Hw|].
  exact (proj1 (netback_linear_within_precision 2 _ _ _ _ _ Hw)).
Defined.

(** C9.  In the three functions with two positivity preconditions the
    first parameter is validated first: when both arguments are zero or
    negative the error names the first parameter and carries its value. *)
Theorem first_parameter_validated_first :
  (forall r p, (to_Q r <= 0)%Q -> (to_Q p <= 0)%Q ->
     raises_invalid_input (reserve_life_index r p) "proved_reserves" r) /\
  (forall r s, (to_Q r <= 0)%Q -> (to_Q s <= 0)%Q ->
     raises_invalid_input (reserves_per_share r s) "total_proved_reserves" r) /\
  (forall p c, (to_Q p <= 0)%Q -> (to_Q c <= 0)%Q ->
     raises_invalid_input (capital_efficiency p c) "production_added" p).
Proof.
  repeat match goal with |- _ /\ _ => split end;
    intros a b Ha _; apply gt_zero_false in Ha;
    run_exec; rewrite Ha; reflexivity.
Qed.

(** C9, witness: [reserve_life_index(0, -5)]. *)
Lemma first_parameter_validated_first_witness :
  (to_Q (Decimal_of_int 0) <= 0)%Q /\ (to_Q (Decimal_of_int (-5)) <= 0)%Q /\
  raises_invalid_input
    (reserve_life_index (Decimal_of_int 0) (Decimal_of_int (-5)))
    "proved_reserves" (Decimal_of_int 0).
Proof.
  assert (H0 : (to_Q (Decimal_of_int 0) <= 0)%Q) by (vm_compute; discriminate).
  assert (H5 : (to_Q (Decimal_of_int (-5)) <= 0)%Q)
    by (vm_compute; discriminate).
  split; [exact H0 | split; [exact H5 |]].
  exact (proj1 first_parameter_validated_first _ _ H0 H5).
Defined.

(** C10, as amended.  Each of the seven pure ratios is unchanged (the
    same number returned, or the same Overflow raised) when both arguments
    of a valid call are multiplied by a strictly positive [k], provided the
    two products are exact, that is, need no rounding. *)
Theorem ratios_invariant_under_exact_rescaling (k a b ka kb : Decimal) :
  (0 < to_Q k)%Q -> (0 < to_Q b)%Q ->
  exact_product k a ka -> exact_product k b kb ->
  same_outcome (call (reserve_replacement_ratio ka kb))
               (call (reserve_replacement_ratio a b)) /\
  same_outcome (call (lifting_cost ka kb)) (call (lifting_cost a b)) /\
  same_outcome (call (breakeven_price ka kb)) (call (breakeven_price a b)) /\
  same_outcome (call (recycle_ratio ka kb)) (call (recycle_ratio a b)) /\
  ((0 < to_Q a)%Q ->
   same_outcome (call (reserve_life_index ka kb))
                (call (reserve_life_index a b)) /\
   same_outcome (call (reserves_per_share ka kb))
                (call (reserves_per_share a b)) /\
   same_outcome (call (capital_efficiency ka kb))
                (call (capital_efficiency a b))).
Proof.
  intros Hk Hb [_ Hka] [_ Hkb].
  assert (Hkb0 : (0 < to_Q kb)%Q) by (rewrite Hkb; nra).
  destruct (ratio_calls a b Hb) as (C1 & C2 & C3 & C4 & C5).
  destruct (ratio_calls ka kb Hkb0) as (K1 & K2 & K3 & K4 & K5).
  assert (Hsame : same_outcome
            (outcome_of (__truediv__ ka kb getcontext))
            (outcome_of (__truediv__ a b getcontext))).
  { apply same_outcome_of, truediv_same_quotient.
    - apply pos_nonzero; exact Hb.
    - apply pos_nonzero; exact Hkb0.
    - rewrite Hka, Hkb. field. split; lra. }
  rewrite C1, C2, C3, C4, K1, K2, K3, K4.
  repeat match goal with |- _ /\ _ => split end; try exact Hsame.
  intros Ha.
  assert (Hka0 : (0 < to_Q ka)%Q) by (rewrite Hka; nra).
  destruct (C5 Ha) as (D1 & D2 & D3). destruct (K5 Hka0) as (E1 & E2 & E3).
  rewrite D1, D2, D3, E1, E2, E3. repeat split; exact Hsame.
Qed.

(** C10, counterexample: with [k = 3], numerator 1 and the 28-digit
    denominator 3333333333333333333333333334 the product [k * production]
    is rounded, and the two ratios differ. *)
Lemma rescaling_changes_ratio :
  exists v w,
    call (rescaled reserve_replacement_ratio (Decimal_of_int 3)
            (Decimal_of_int 1)
            (Decimal_of_int 3333333333333333333333333334)) = Returned v /\
    call (reserve_replacement_ratio (Decimal_of_int 1)
            (Decimal_of_int 3333333333333333333333333334)) = Returned w /\
    __eq__ v w = false.
Proof.
  eexists. eexists. split; [vm_compute; reflexivity|].
  split; vm_compute; reflexivity.
Qed.

(** C10, witness: 12 and 10 million doubled. *)
Lemma ratios_invariant_under_exact_rescaling_witness :
  (0 < to_Q (Decimal_of_int 2))%Q /\
  (0 < to_Q (Decimal_of_int 10000000))%Q /\
  exact_product (Decimal_of_int 2) (Decimal_of_int 12000000)
    (Decimal_of_int 24000000) /\
  exact_product (Decimal_of_int 2) (Decimal_of_int 10000000)
    (Decimal_of_int 20000000) /\
  same_outcome
    (call (reserve_replacement_ratio (Decimal_of_int 24000000)
             (Decimal_of_int 20000000)))
    (call (reserve_replacement_ratio (Decimal_of_int 12000000)
             (Decimal_of_int 10000000))).
Proof.
  assert (Hk : (0 < to_Q (Decimal_of_int 2))%Q) by reflexivity.
  assert (Hb : (0 < to_Q (Decimal_of_int 10000000))%Q) by reflexivity.
  assert (Ha : exact_product (Decimal_of_int 2) (Decimal_of_int 12000000)
                 (Decimal_of_int 24000000))
    by (split; vm_compute; reflexivity).
  assert (Hb' : exact_product (Decimal_of_int 2) (Decimal_of_int 10000000)
                  (Decimal_of_int 20000000))
    by (split; vm_compute; reflexivity).
  split; [exact Hk | split; [exact Hb | split; [exact Ha | split; [exact Hb'|]]]].
  exact (proj1 (ratios_invariant_under_exact_rescaling _ _ _ _ _ Hk Hb Ha Hb')).
Defined.

(** * Further properties of the formulas *)

Local Close Scope string_scope.

(** ** Values that fit the context *)

Lemma len_zero : len 0 = 1.
Proof. reflexivity. Qed.

(** A number below [10^p] has at most [p] digits. *)
Lemma len_le (n : N) (p : Z) : 1 <= p -> Z.of_N n < 10 ^ p -> len n <= p.
Proof.
  intros Hp Hn. destruct (N.eq_dec n 0) as [->|Hnz]; [rewrite len_zero; lia|].
  destruct (Z.le_gt_cases (len n) p) as [|Hgt]; [assumption|exfalso].
  apply (len_gt_iff n p Hnz ltac:(lia)) in Hgt. lia.
Qed.

(** [_fix] keeps the sign. *)
Lemma fix_sign (d v : Decimal) (context : Context) :
  _fix d context = Value v -> _sign v = _sign d.
Proof.
  unfold _fix.
  repeat match goal with
         | |- context [if ?b then _ else _] => destruct b
         | |- context [let '(_, _) := ?p in _] => destruct p
         end; intros H; try discriminate H; injection H as <-; reflexivity.
Qed.

(** What [_fix] returns fits the context. *)
Lemma fix_fits (d v : Decimal) (context : Context) :
  valid_context context -> _fix d context = Value v -> fits context v.
Proof.
  intros (Hprec & Hmin & Hmax). destruct d as [s C e].
  assert (Htt : Etiny context <= Etop context) by (unfold Etiny, Etop; lia).
  unfold _fix, __bool__, fits, adjusted. cbn [_int _exp _sign].
  destruct (N.eqb_spec C 0) as [->|HC]; cbn [negb].
  - (* a zero keeps its exponent, clamped to the range *)
    assert (HE : Etiny context <= Emax context) by (unfold Etiny; lia).
    destruct (Z.eqb_spec (Z.min (Z.max e (Etiny context)) (Emax context)) e)
      as [E|E]; cbn [negb]; intros H; injection H as <-; cbn [_int _exp];
      rewrite len_zero; lia.
  - destruct (len_spec C) as (HL1 & HLu & HLl). specialize (HLl HC).
    set (L := len C) in *. set (p := prec context) in *.
    set (Et := Etiny context) in *. set (Eo := Etop context) in *.
    assert (HEo : Eo = Emax context - p + 1) by reflexivity.
    destruct (Z.gtb_spec (L + e - p) Eo) as [Hov|Hov]; [discriminate|].
    assert (Eg : (if L + e - p <? Et then Et else L + e - p)
                 = Z.max (L + e - p) Et).
    { destruct (Z.ltb_spec (L + e - p) Et); lia. }
    cbv zeta. rewrite Eg. set (g0 := Z.max (L + e - p) Et) in *.
    destruct (Z.ltb_spec e g0) as [Hlt|Hge].
    + destruct (Z.ltb_spec (L + e - g0) 0) as [Hneg|Hdig].
      * replace (_round_half_even 1 0 >? 0) with false by reflexivity.
        replace (take_digits 1 0) with 0%N by reflexivity.
        rewrite (gtb_false g0 Eo) by lia.
        intros H; injection H as <-; cbn [_int _exp]. rewrite len_zero. lia.
      * assert (Hq : Z.of_N (take_digits C (L + e - g0)) < 10 ^ (L + e - g0)).
        { unfold take_digits. fold L.
          rewrite N2Z.inj_div, pow10_Z by lia.
          replace (L + e - g0) with (L - (L - (L + e - g0))) at 2 by lia.
          apply div_pow10_lt; lia. }
        assert (Hdp : 10 ^ (L + e - g0) <= 10 ^ p) by (apply pow10_le; lia).
        set (q := take_digits C (L + e - g0)) in *.
        destruct (_round_half_even C (L + e - g0) >? 0).
        -- assert (Hq1 : (q + 1)%N <> 0%N) by lia.
           pose proof (len_gt_iff (q + 1)%N p Hq1 ltac:(lia)) as Hlen.
           destruct (Z.gtb_spec (len (q + 1)%N) p) as [Hc|Hc].
           ++ apply Hlen in Hc.
              destruct (Z.gtb_spec (g0 + 1) Eo) as [Ho|Ho]; [discriminate|].
              intros H; injection H as <-; cbn [_int _exp].
              pose proof (pow10_succ p ltac:(lia)) as Hps.
              assert (E10 : Z.of_N ((q + 1) / 10) = 10 ^ (p - 1)).
              { rewrite N2Z.inj_div. change (Z.of_N 10) with 10.
                assert (Z.of_N (q + 1) = 10 * 10 ^ (p - 1)) by lia. div_lia. }
              assert (len ((q + 1) / 10) = p).
              { apply len_unique; [lia|]. rewrite E10. split; [lia|].
                apply pow10_lt. lia. }
              lia.
           ++ rewrite (gtb_false g0 Eo) by lia.
              intros H; injection H as <-; cbn [_int _exp]. lia.
        -- rewrite (gtb_false g0 Eo) by lia.
           intros H; injection H as <-; cbn [_int _exp].
           assert (len q <= p).
           { destruct (Z.eq_dec (L + e - g0) 0) as [E0|E0].
             - rewrite E0 in Hq. simpl in Hq. assert (q = 0%N) by lia.
               subst q. rewrite H. rewrite len_zero. lia.
             - assert (len q <= L + e - g0) by (apply len_le; lia). lia. }
           lia.
    + intros H; injection H as <-; cbn [_int _exp]. fold L. lia.
Qed.

(** [_fix] leaves alone a number that fits the context. *)
Lemma fits_fix (d : Decimal) (context : Context) :
  valid_context context -> fits context d -> _fix d context = Value d.
Proof.
  intros (Hprec & Hmin & Hmax) (Hl & He & Ha). destruct d as [s C e].
  unfold adjusted in Ha. cbn [_int _exp] in *.
  unfold _fix, __bool__. cbn [_int _exp _sign].
  destruct (N.eqb_spec C 0) as [->|HC]; cbn [negb].
  - rewrite len_zero in Ha.
    replace (Z.min (Z.max e (Etiny context)) (Emax context)) with e by lia.
    rewrite Z.eqb_refl. reflexivity.
  - rewrite (gtb_false (len C + e - prec context) (Etop context))
      by (unfold Etop; lia).
    cbv zeta.
    destruct (Z.ltb_spec (len C + e - prec context) (Etiny context)).
    + replace (e <? Etiny context) with false by (symmetry; apply Z.ltb_ge; lia).
      reflexivity.
    + replace (e <? len C + e - prec context) with false
        by (symmetry; apply Z.ltb_ge; lia).
      reflexivity.
Qed.

(** Every operator ends with [_fix]. *)
Lemma add_fixed (a b v : Decimal) (context : Context) :
  __add__ a b context = Value v -> exists d, _fix d context = Value v.
Proof.
  unfold __add__.
  repeat match goal with
         | |- context [if ?b then _ else _] => destruct b
         | |- context [let '(_, _) := ?p in _] => destruct p
         end; intros H; eexists; exact H.
Qed.

Lemma mul_fixed (a b v : Decimal) (context : Context) :
  __mul__ a b context = Value v -> exists d, _fix d context = Value v.
Proof.
  unfold __mul__.
  repeat match goal with
         | |- context [if ?b then _ else _] => destruct b
         end; intros H; eexists; exact H.
Qed.

Lemma truediv_fixed (a b v : Decimal) (context : Context) :
  __truediv__ a b context = Value v ->
  exists c e, _fix (_dec_from_triple (xorb (_sign a) (_sign b)) c e) context
              = Value v.
Proof.
  unfold __truediv__. cbv zeta.
  destruct (negb (__bool__ b)); [destruct (negb (__bool__ a)); discriminate|].
  match goal with
  | |- context [let '(_, _) := ?p in _] => destruct p as [c e]
  end.
  intros H. exists c, e. exact H.
Qed.

(** So the result of every operator fits the context. *)
Lemma operator_fits (op : Operator) (a b v : Decimal) :
  apply_operator op a b = Value v -> fits getcontext v.
Proof.
  intros H.
  assert (exists d, _fix d getcontext = Value v) as [d Hd].
  { destruct op; cbn [apply_operator] in H.
    - eapply add_fixed; exact H.
    - eapply add_fixed; exact H.
    - eapply mul_fixed; exact H.
    - destruct (truediv_fixed _ _ _ _ H) as (c & e & Hf). eexists; exact Hf. }
  eapply fix_fits; [apply valid_getcontext | exact Hd].
Qed.

(** The sign of a quotient is the exclusive or of the signs. *)
Lemma truediv_sign (a b v : Decimal) (context : Context) :
  __truediv__ a b context = Value v -> _sign v = xorb (_sign a) (_sign b).
Proof.
  intros H. destruct (truediv_fixed _ _ _ _ H) as (c & e & Hf).
  apply fix_sign in Hf. exact Hf.
Qed.

Lemma fits_zero : fits getcontext (Decimal_of_int 0).
Proof. repeat split; discriminate. Qed.

Lemma fits_one : fits getcontext (Decimal_of_int 1).
Proof. repeat split; discriminate. Qed.

(** The powers of ten up to [10^Emax] fit the context. *)
Lemma fits_power (k : Z) :
  0 <= k <= Emax getcontext ->
  fits getcontext (_dec_from_triple false 1 k) /\
  fits getcontext (_dec_from_triple true 1 k).
Proof.
  intros Hk. unfold fits, adjusted. cbn [_int _exp].
  change (len 1) with 1. change (prec getcontext) with 28.
  change (Etiny getcontext) with (-1000026). lia.
Qed.

(** ** Addition is commutative *)

(** [_normalize] treats its operands alike: swapping them swaps the
    results. *)
Lemma normalize_swap (a b : Decimal) (p : Z) :
  _normalize b a p = (snd (_normalize a b p), fst (_normalize a b p)).
Proof.
  destruct a as [sa ca ea], b as [sb cb eb].
  unfold _normalize. cbn [_sign _int _exp].
  destruct (Z.ltb_spec ea eb) as [Hab|Hab];
    destruct (Z.ltb_spec eb ea) as [Hba|Hba]; try lia; cbn [_sign _int _exp].
  - destruct (_ <? _); reflexivity.
  - destruct (_ <? _); reflexivity.
  - assert (ea = eb) by lia. subst eb.
    pose proof (len_pos ca). pose proof (len_pos cb).
    rewrite !(proj2 (Z.ltb_ge _ _)) by lia.
    cbn [_sign _int _exp fst snd]. rewrite Z.sub_diag.
    change (pow10 0) with 1%N. rewrite !N.mul_1_r. reflexivity.
Qed.

(** [_normalize] brings the operands to a common exponent. *)
Lemma normalize_exp (a b : Decimal) (p : Z) :
  _exp (fst (_normalize a b p)) = _exp (snd (_normalize a b p)).
Proof.
  unfold _normalize.
  destruct (_exp a <? _exp b); cbv zeta;
    match goal with |- context [if ?c then _ else _] => destruct c end;
    reflexivity.
Qed.

(** Decimal addition is commutative, on values and on traps. *)
Lemma decimal_add_comm (a b : Decimal) (context : Context) :
  __add__ a b context = __add__ b a context.
Proof.
  unfold __add__. cbv zeta.
  rewrite (Z.min_comm (_exp b) (_exp a)).
  rewrite (andb_comm (_sign b) (_sign a)).
  destruct (negb (__bool__ a)) eqn:Ea, (negb (__bool__ b)) eqn:Eb;
    cbn [andb]; try reflexivity.
  rewrite (normalize_swap a b).
  pose proof (normalize_exp a b (prec context)) as Hexp.
  destruct (_normalize a b (prec context)) as [op1 op2].
  cbn [fst snd] in *.
  destruct op1 as [s1 c1 e1], op2 as [s2 c2 e2]. cbn [_sign _int _exp] in *.
  subst e2.
  destruct s1, s2; cbn [Bool.eqb negb].
  - rewrite (N.add_comm c2 c1). reflexivity.
  - rewrite (N.eqb_sym c2 c1). destruct (N.eqb_spec c1 c2) as [E|E];
      [reflexivity|].
    destruct (N.ltb_spec c1 c2), (N.ltb_spec c2 c1); try lia; reflexivity.
  - rewrite (N.eqb_sym c2 c1). destruct (N.eqb_spec c1 c2) as [E|E];
      [reflexivity|].
    destruct (N.ltb_spec c1 c2), (N.ltb_spec c2 c1); try lia; reflexivity.
  - rewrite (N.add_comm c2 c1). reflexivity.
Qed.

(** ** Order, error and overflow of correct rounding *)

Local Open Scope Q_scope.

(** The nearest integer is within one half. *)
Lemma nearest_even_bounds (y : Q) (m : Z) :
  nearest_even y m -> y - (1 # 2) <= inject_Z m /\ inject_Z m <= y + (1 # 2).
Proof.
  intros [H _]. apply Qabs_Qle_condition in H. split; lra.
Qed.

(** Rounding to the nearest integer, ties to even, is monotone. *)
Lemma nearest_even_mono (y1 y2 : Q) (m1 m2 : Z) :
  nearest_even y1 m1 -> nearest_even y2 m2 -> y1 <= y2 -> (m1 <= m2)%Z.
Proof.
  intros H1 H2 Hle.
  destruct (Z.le_gt_cases m1 m2) as [|Hgt]; [assumption|exfalso].
  pose proof (nearest_even_bounds _ _ H1) as [L1 U1].
  pose proof (nearest_even_bounds _ _ H2) as [L2 U2].
  assert (Hd : (m2 + 1 <= m1)%Z) by lia.
  apply Qle_inject in Hd. rewrite inject_Z_plus in Hd.
  change (inject_Z 1) with 1 in Hd.
  destruct H1 as [_ E1], H2 as [_ E2].
  assert (A1 : Qabs (inject_Z m1 - y1) == 1 # 2).
  { rewrite Qabs_pos by lra. lra. }
  assert (A2 : Qabs (inject_Z m2 - y2) == 1 # 2).
  { rewrite Qabs_neg by lra. lra. }
  specialize (E1 A1). specialize (E2 A2).
  assert (Em : inject_Z m1 == inject_Z (m2 + 1)).
  { rewrite inject_Z_plus. change (inject_Z 1) with 1. lra. }
  apply (proj1 (inject_Z_injective _ _)) in Em. subst m1.
  rewrite Z.even_add in E1. rewrite E2 in E1. discriminate E1.
Qed.

Lemma nearest_even_ge_int (y : Q) (m k : Z) :
  nearest_even y m -> inject_Z k <= y -> (k <= m)%Z.
Proof.
  intros H Hk. apply (nearest_even_mono (inject_Z k) y); 
    [apply nearest_even_exact | exact H | exact Hk].
Qed.

Lemma nearest_even_le_int (y : Q) (m k : Z) :
  nearest_even y m -> y <= inject_Z k -> (m <= k)%Z.
Proof.
  intros H Hk. apply (nearest_even_mono y (inject_Z k)); 
    [exact H | apply nearest_even_exact | exact Hk].
Qed.

Section RoundingOrder.

Variable context : Context.
Hypothesis context_valid : valid_context context.

(** Rounding is symmetric about zero. *)
Lemma rounding_opp (x : Q) (g m : Z) :
  rounding context x g m -> rounding context (- x) g (- m).
Proof.
  intros [Hg Hn]. split.
  - unfold grid_exponent in *. rewrite Qabs_opp. exact Hg.
  - apply (nearest_even_wd (- (x / 10 ^ g))).
    + field. apply Qp_nonzero.
    + apply nearest_even_opp. exact Hn.
Qed.

(** A number that is zero or positive rounds to a coefficient between 0
    and [10^prec]. *)
Lemma rounding_upper (x : Q) (g m : Z) :
  rounding context x g m -> 0 <= x -> (0 <= m <= 10 ^ prec context)%Z.
Proof.
  intros [Hg Hn] Hx. destruct context_valid as (Hp & _).
  pose proof (Qp_pos g) as Hpg.
  assert (Hax : Qabs x == x) by (apply Qabs_pos; exact Hx).
  assert (Hlt : x < 10 ^ (g + prec context)).
  { destruct Hg as [[-> H]|(_ & _ & H)]; rewrite Hax in H; [|exact H].
    eapply Qlt_le_trans; [exact H|]. apply Qp_le. lia. }
  split.
  - apply (nearest_even_ge_int (x / 10 ^ g)); [exact Hn|].
    change (inject_Z 0) with 0. apply Qle_shift_div_l; [exact Hpg | lra].
  - apply (nearest_even_le_int (x / 10 ^ g)); [exact Hn|].
    rewrite Qp_inject by lia. apply Qle_shift_div_r; [exact Hpg|].
    rewrite <- Qp_add. rewrite Z.add_comm. apply Qlt_le_weak. exact Hlt.
Qed.

(** Outside the subnormal range the coefficient has [prec] digits. *)
Lemma rounding_lower (x : Q) (g m : Z) :
  rounding context x g m -> 10 ^ (g + prec context - 1) <= x ->
  (10 ^ (prec context - 1) <= m)%Z.
Proof.
  intros [Hg Hn] Hx. destruct context_valid as (Hp & _).
  pose proof (Qp_pos g) as Hpg.
  apply (nearest_even_ge_int (x / 10 ^ g)); [exact Hn|].
  rewrite Qp_inject by lia. apply Qle_shift_div_l; [exact Hpg|].
  rewrite <- Qp_add. replace (prec context - 1 + g)%Z with (g + prec context - 1)%Z by lia.
  exact Hx.
Qed.

Lemma rounding_mono_nonneg (x y : Q) (gx mx gy my : Z) :
  rounding context x gx mx -> rounding context y gy my -> 0 <= x -> x <= y ->
  inject_Z mx * 10 ^ gx <= inject_Z my * 10 ^ gy.
Proof.
  intros Rx Ry H0 Hle. destruct context_valid as (Hp & _).
  assert (H0y : 0 <= y) by lra.
  pose proof (rounding_upper x gx mx Rx H0) as [Hmx0 Hmx].
  pose proof (rounding_upper y gy my Ry H0y) as [Hmy0 Hmy].
  assert (Hax : Qabs x == x) by (apply Qabs_pos; exact H0).
  assert (Hay : Qabs y == y) by (apply Qabs_pos; exact H0y).
  destruct (Z.lt_trichotomy gx gy) as [Hlt|[->|Hgt]].
  - (* the decade of y is above that of x *)
    assert (Hylo : 10 ^ (gy + prec context - 1) <= y).
    { destruct Ry as [[[E _]|(_ & H & _)] _]; [|rewrite Hay in H; exact H].
      destruct Rx as [[[E' _]|(L & _)] _]; lia. }
    pose proof (rounding_lower y gy my Ry Hylo) as Hmylo.
    apply Qle_trans with (10 ^ (gx + prec context)).
    + rewrite Z.add_comm, Qp_add. apply Qmult_le_r; [apply Qp_pos|].
      rewrite <- Qp_inject by lia. apply Qle_inject. exact Hmx.
    + apply Qle_trans with (10 ^ (gy + prec context - 1)).
      * apply Qp_le. lia.
      * replace (gy + prec context - 1)%Z with (prec context - 1 + gy)%Z by lia.
        rewrite Qp_add. apply Qmult_le_r; [apply Qp_pos|].
        rewrite <- Qp_inject by lia. apply Qle_inject. exact Hmylo.
  - apply Qmult_le_r; [apply Qp_pos|]. apply Qle_inject.
    destruct Rx as [_ Nx], Ry as [_ Ny].
    apply (nearest_even_mono (x / 10 ^ gy) (y / 10 ^ gy)); try assumption.
    apply Qmult_le_r; [apply Qinv_lt_0_compat, Qp_pos | exact Hle].
  - exfalso.
    assert (Hxlo : 10 ^ (gx + prec context - 1) <= x).
    { destruct Rx as [[[E _]|(_ & H & _)] _]; [|rewrite Hax in H; exact H].
      destruct Ry as [[[E' _]|(L & _)] _]; lia. }
    assert (Hyhi : y < 10 ^ (gy + prec context)).
    { destruct Ry as [[[-> H]|(_ & _ & H)] _]; rewrite Hay in H; [|exact H].
      eapply Qlt_le_trans; [exact H|]. apply Qp_le. lia. }
    assert (H : 10 ^ (gx + prec context - 1) < 10 ^ (gy + prec context)) by lra.
    apply Qp_lt_inv in H. lia.
Qed.

(** Rounding is monotone. *)
Lemma rounding_mono (x y : Q) (gx mx gy my : Z) :
  rounding context x gx mx -> rounding context y gy my -> x <= y ->
  inject_Z mx * 10 ^ gx <= inject_Z my * 10 ^ gy.
Proof.
  intros Rx Ry Hle.
  destruct (Qlt_le_dec x 0) as [Hx|Hx]; [destruct (Qlt_le_dec y 0) as [Hy|Hy]|].
  - pose proof (rounding_mono_nonneg (- y) (- x) gy (- my) gx (- mx)
                  (rounding_opp _ _ _ Ry) (rounding_opp _ _ _ Rx)
                  ltac:(lra) ltac:(lra)) as H.
    rewrite !inject_Z_opp in H. lra.
  - pose proof (rounding_upper (- x) gx (- mx) (rounding_opp _ _ _ Rx)
                  ltac:(lra)) as [Hm _].
    pose proof (rounding_upper y gy my Ry Hy) as [Hm' _].
    apply Qle_inject in Hm, Hm'. rewrite inject_Z_opp in Hm.
    change (inject_Z 0) with 0 in *.
    pose proof (Qp_pos gx). pose proof (Qp_pos gy). 
    apply Qle_trans with 0.
    + setoid_replace 0 with (0 * 10 ^ gx) by ring. apply Qmult_le_r; [assumption|lra].
    + setoid_replace 0 with (0 * 10 ^ gy) by ring. apply Qmult_le_r; [assumption|lra].
  - apply (rounding_mono_nonneg x y); assumption.
Qed.

End RoundingOrder.

Section RoundedValues.

Variable context : Context.
Hypothesis context_valid : valid_context context.

(** [_fix] is correct rounding of the number its argument denotes. *)
Lemma fix_rounds (d : Decimal) :
  rounds_to context (to_Q d) (_fix d context).
Proof.
  destruct (N.eq_dec (_int d) 0) as [Hz|Hnz].
  - destruct d as [s c e]. cbn [_int] in Hz. subst c.
    destruct (fix_zero context s e) as [e' ->].
    apply rounds_to_zero; [assumption | apply to_Q_zero | apply to_Q_zero].
  - apply fix_rounds_exact; assumption.
Qed.

Lemma fits_rounds (d : Decimal) :
  fits context d -> rounds_to context (to_Q d) (Value d).
Proof.
  intros H. rewrite <- (fits_fix d context context_valid H). apply fix_rounds.
Qed.

(** The exact product, as [__mul__] forms it before rounding. *)
Lemma to_Q_product (a b : Decimal) :
  to_Q (_dec_from_triple (xorb (_sign a) (_sign b)) (_int a * _int b)
          (_exp a + _exp b))
  == to_Q a * to_Q b.
Proof.
  unfold to_Q, signed_int. cbn [_sign _int _exp].
  rewrite N2Z.inj_mul, Qp_add. push_inject.
  destruct (_sign a), (_sign b); cbn [xorb minus_one_pow];
    change (inject_Z (-1)) with (-(1)); change (inject_Z 1) with 1; ring.
Qed.

(** Multiplication is correctly rounded. *)
Lemma mul_rounds (a b : Decimal) :
  rounds_to context (to_Q a * to_Q b) (__mul__ a b context).
Proof.
  pose proof (to_Q_product a b) as E.
  unfold __mul__. cbv zeta.
  destruct (N.eqb_spec (_int a) 0) as [Ha|Ha];
    [|destruct (N.eqb_spec (_int b) 0) as [Hb|Hb]];
    unfold __bool__; 
    rewrite ?(proj2 (N.eqb_eq _ _) Ha), ?(proj2 (N.eqb_neq _ _) Ha),
      ?(proj2 (N.eqb_eq _ _) Hb), ?(proj2 (N.eqb_neq _ _) Hb);
    cbn [negb orb].
  - eapply (rounds_to_wd context); [|apply fix_rounds].
    rewrite <- E, Ha, N.mul_0_l, !to_Q_zero. reflexivity.
  - eapply (rounds_to_wd context); [|apply fix_rounds].
    rewrite <- E, Hb, N.mul_0_r, !to_Q_zero. reflexivity.
  - destruct (N.eqb_spec (_int a) 1) as [H1|H1];
      [|destruct (N.eqb_spec (_int b) 1) as [H2|H2]];
      (eapply (rounds_to_wd context); [|apply fix_rounds]).
    + rewrite <- E, H1, N.mul_1_l. reflexivity.
    + rewrite <- E, H2, N.mul_1_r. reflexivity.
    + exact E.
Qed.

Lemma rounds_to_rounding (x : Q) (d : Decimal) :
  rounds_to context x (Value d) ->
  exists g m, rounding context x g m /\ to_Q d == inject_Z m * 10 ^ g.
Proof.
  intros (g & m & Hg & Hn & Hv & _). exists g, m.
  split; [split; assumption | assumption].
Qed.

(** Correct rounding is monotone. *)
Lemma rounds_to_mono (x y : Q) (dx dy : Decimal) :
  rounds_to context x (Value dx) -> rounds_to context y (Value dy) ->
  x <= y -> to_Q dx <= to_Q dy.
Proof.
  intros Hx Hy Hle.
  destruct (rounds_to_rounding x dx Hx) as (gx & mx & Rx & ->).
  destruct (rounds_to_rounding y dy Hy) as (gy & my & Ry & ->).
  apply (rounding_mono context context_valid x y); assumption.
Qed.

(** A number between two that are rounded without overflow is rounded
    without overflow. *)
Lemma rounds_to_between (x y z : Q) (o : result Decimal) (dy dz : Decimal) :
  rounds_to context x o ->
  rounds_to context y (Value dy) -> rounds_to context z (Value dz) ->
  z <= x -> x <= y -> exists d, o = Value d.
Proof.
  intros Hx Hy Hz Hzx Hxy. destruct o as [d|s]; [exists d; reflexivity|].
  exfalso.
  destruct Hx as (g & m & Hg & Hn & _ & Hbig).
  destruct Hy as (gy & my & Hgy & Hny & _ & Hy).
  destruct Hz as (gz & mz & Hgz & Hnz & _ & Hz).
  pose proof (rounding_mono context context_valid x y g m gy my
                (conj Hg Hn) (conj Hgy Hny) Hxy) as H1.
  pose proof (rounding_mono context context_valid z x gz mz g m
                (conj Hgz Hnz) (conj Hg Hn) Hzx) as H2.
  apply Qabs_Qlt_condition in Hy, Hz.
  assert (Qabs (inject_Z m * 10 ^ g) < 10 ^ (Emax context + 1)).
  { apply Qabs_Qlt_condition. split; lra. }
  lra.
Qed.

(** A number that fits the context is a fixed point of rounding. *)
Lemma rounds_to_fits (d v : Decimal) :
  fits context d -> rounds_to context (to_Q d) (Value v) ->
  to_Q v == to_Q d.
Proof.
  intros Hf Hr.
  pose proof (rounds_to_unique context (to_Q d) (Value v)
                (Value d) Hr (fits_rounds d Hf)) as H.
  exact H.
Qed.

(** The rounded number is zero exactly up to half of [10^Etiny]. *)
Lemma rounds_to_zero_iff (x : Q) (v : Decimal) :
  rounds_to context x (Value v) ->
  ((to_Q v == 0) <->
   (Qabs x <= (1 # 2) * 10 ^ Etiny context)).
Proof.
  intros (g & m & Hg & Hn & Hv & _). destruct context_valid as (Hprec & Hmin & Hmax).
  pose proof (Qp_pos g) as Hpg.
  assert (Hm : (to_Q v == 0) <-> m = 0%Z).
  { rewrite Hv. split.
    - intros E. apply (proj1 (inject_Z_injective _ _)).
      change (inject_Z 0) with 0.
      destruct (Qmult_integral _ _ E) as [H|H]; [exact H|].
      exfalso. exact (Qp_nonzero g H).
    - intros ->. change (inject_Z 0) with 0. ring. }
  rewrite Hm. clear Hm Hv.
  assert (Habs : (Qabs (x / 10 ^ g) == Qabs x / 10 ^ g)).
  { unfold Qdiv. rewrite Qabs_Qmult, (Qabs_pos (/ 10 ^ g)); [reflexivity|].
    apply Qlt_le_weak, Qinv_lt_0_compat, Hpg. }
  split.
  - intros ->. destruct Hn as [Hn _].
    change (inject_Z 0) with 0 in Hn.
    setoid_replace (0 - x / 10 ^ g) with (- (x / 10 ^ g)) in Hn by ring.
    rewrite Qabs_opp, Habs in Hn.
    destruct Hg as [[-> _]|(Hlow & Hlo & _)].
    + apply (Qmult_le_r _ _ _ (Qp_pos (Etiny context))) in Hn.
      setoid_replace (Qabs x / 10 ^ Etiny context * 10 ^ Etiny context)
        with (Qabs x) in Hn by (field; apply Qp_nonzero).
      exact Hn.
    + exfalso.
      assert (H1 : (10 ^ (prec context - 1) <= Qabs x / 10 ^ g)).
      { apply Qle_shift_div_l; [exact Hpg|]. rewrite <- Qp_add.
        replace (prec context - 1 + g)%Z with (g + prec context - 1)%Z by lia.
        exact Hlo. }
      assert (H2 : (1 <= 10 ^ (prec context - 1)))
        by (apply (Qp_le 0); lia).
      lra.
  - intros Hx.
    assert (E : g = Etiny context).
    { destruct Hg as [[-> _]|(Hlow & Hlo & _)]; [reflexivity|exfalso].
      assert (H1 : (10 ^ Etiny context <= 10 ^ (g + prec context - 1)))
        by (apply Qp_le; lia).
      pose proof (Qp_pos (Etiny context)). lra. }
    subst g.
    apply (nearest_even_unique (x / 10 ^ Etiny context)); [exact Hn|].
    split.
    + change (inject_Z 0) with 0.
      setoid_replace (0 - x / 10 ^ Etiny context)
        with (- (x / 10 ^ Etiny context)) by ring.
      rewrite Qabs_opp, Habs. apply Qle_shift_div_r; [exact Hpg | exact Hx].
    + intros _. reflexivity.
Qed.

End RoundedValues.

Section RoundingError.

Variable context : Context.
Hypothesis context_valid : valid_context context.

(** The error of correct rounding: half a unit in the last place, that is
    at most [10^(1-prec) / 2] relative to the number, or [10^Etiny / 2]
    for a subnormal result. *)
Lemma rounds_to_error (x : Q) (v : Decimal) :
  rounds_to context x (Value v) ->
  Qabs (to_Q v - x)
  <= (1 # 2) * 10 ^ (1 - prec context) * Qabs x
     + (1 # 2) * 10 ^ Etiny context.
Proof.
  intros (g & m & Hg & [Hn _] & Hv & _).
  pose proof (Qp_pos g) as Hpg.
  pose proof (Qp_pos (Etiny context)) as Hpe.
  pose proof (Qp_pos (1 - prec context)) as Hpp.
  pose proof (Qabs_nonneg x) as Hax.
  assert (Herr : Qabs (to_Q v - x) <= (1 # 2) * 10 ^ g).
  { setoid_replace (to_Q v - x) with ((inject_Z m - x / 10 ^ g) * 10 ^ g)
      by (rewrite Hv; field; apply Qp_nonzero).
    rewrite Qabs_Qmult, (Qabs_pos (10 ^ g)) by lra.
    apply Qmult_le_r; [exact Hpg | exact Hn]. }
  destruct Hg as [[-> _]|(_ & Hlo & _)].
  - assert (0 <= (1 # 2) * 10 ^ (1 - prec context) * Qabs x) by nra.
    lra.
  - assert (Hg' : 10 ^ g <= 10 ^ (1 - prec context) * Qabs x).
    { setoid_replace (10 ^ g)
        with (10 ^ (1 - prec context) * 10 ^ (g + prec context - 1)).
      - apply Qmult_le_l; [exact Hpp | exact Hlo].
      - rewrite <- Qp_add. 
        replace (1 - prec context + (g + prec context - 1))%Z with g by lia.
        reflexivity. }
    lra.
Qed.

End RoundingError.

(** [10^p - 1] is odd. *)
Lemma pow10_odd_pred (p : Z) : (1 <= p)%Z -> Z.even (10 ^ p - 1) = false.
Proof.
  intros Hp. rewrite (pow10_succ p Hp).
  replace (10 * 10 ^ (p - 1) - 1)%Z with (1 + 2 * (5 * 10 ^ (p - 1) - 1))%Z
    by lia.
  rewrite Z.even_add_mul_2. reflexivity.
Qed.

Section OverflowThreshold.

Variable context : Context.
Hypothesis context_valid : valid_context context.

(** For a number that is zero or positive, the rounded number reaches
    [10^(Emax+1)] exactly from the threshold on. *)
Lemma rounding_overflow_nonneg (x : Q) (g m : Z) :
  rounding context x g m -> 0 <= x ->
  (10 ^ (Emax context + 1) <= inject_Z m * 10 ^ g <-> overflow_threshold context <= x).
Proof.
  intros R Hx. pose proof R as [Hg Hn].
  destruct context_valid as (Hprec & Hmin & Hmax).
  pose proof (rounding_upper context context_valid x g m R Hx) as [Hm0 Hmu].
  pose proof (Qp_pos g) as Hpg.
  set (E := (Emax context + 1 - prec context)%Z).
  assert (HE : 10 ^ (Emax context + 1) == 10 ^ prec context * 10 ^ E).
  { rewrite <- Qp_add. unfold E.
    replace (prec context + (Emax context + 1 - prec context))%Z
      with (Emax context + 1)%Z by lia. reflexivity. }
  assert (Hax : Qabs x == x) by (apply Qabs_pos; exact Hx).
  assert (HpE : 0 < 10 ^ E) by apply Qp_pos.
  assert (Hpp : 1 <= 10 ^ prec context) by (apply (Qp_le 0); lia).
  assert (Hnormal : (Etiny context < g)%Z -> 10 ^ (g + prec context - 1) <= x).
  { intros Hlt. destruct Hg as [[E' _]|(_ & H & _)]; [lia|].
    rewrite Hax in H. exact H. }
  assert (Hxhi : x < 10 ^ (g + prec context)).
  { destruct Hg as [[-> H]|(_ & _ & H)]; rewrite Hax in H; [|exact H].
    eapply Qlt_le_trans; [exact H|]. apply Qp_le. lia. }
  assert (HEt : (Etiny context <= E)%Z) by (unfold E, Etiny; lia).
  assert (Hmq : inject_Z m <= 10 ^ prec context).
  { rewrite <- Qp_inject by lia. apply Qle_inject. exact Hmu. }
  assert (Hm0q : 0 <= inject_Z m) by (apply (Qle_inject 0); exact Hm0).
  pose proof (nearest_even_bounds _ _ Hn) as [Hnl Hnu].
  assert (Hy : x / 10 ^ g * 10 ^ g == x) by (field; apply Qp_nonzero).
  unfold overflow_threshold. fold E. rewrite HE.
  destruct (Z.lt_trichotomy g E) as [Hlt|[Heq|Hgt]].
  - (* below the last decade: neither holds *)
    assert (H1 : 10 ^ g * 10 <= 10 ^ E).
    { change 10 with (10 ^ 1) at 2. rewrite <- Qp_add. apply Qp_le. lia. }
    assert (H2 : x < 10 ^ prec context * 10 ^ g).
    { rewrite <- Qp_add. rewrite Z.add_comm. exact Hxhi. }
    split; intros H; exfalso; nra.
  - subst g. split.
    + intros H.
      assert (Hm : 10 ^ prec context <= inject_Z m).
      { apply (Qmult_le_r _ _ _ HpE). exact H. }
      assert (Hyl : 10 ^ prec context - (1 # 2) <= x / 10 ^ E) by lra.
      apply (Qmult_le_r _ _ _ HpE) in Hyl. rewrite Hy in Hyl. lra.
    + intros H.
      assert (Hyl : 10 ^ prec context - (1 # 2) <= x / 10 ^ E).
      { apply Qle_shift_div_l; [exact HpE|]. nra. }
      assert (Hge : (10 ^ prec context - 1 <= m)%Z).
      { apply Qle_inject_inv. push_inject. rewrite Qp_inject by lia.
        change (inject_Z 1) with 1. lra. }
      assert (Hne : m <> (10 ^ prec context - 1)%Z).
      { intros ->. destruct Hn as [_ Htie].
        rewrite pow10_odd_pred in Htie by lia.
        assert (Habs : Qabs (inject_Z (10 ^ prec context - 1) - x / 10 ^ E)
                       == 1 # 2).
        { revert Hnl Hnu. push_inject. rewrite Qp_inject by lia.
          change (inject_Z 1) with 1. intros Hnl Hnu.
          rewrite Qabs_neg by lra. lra. }
        specialize (Htie Habs). discriminate Htie. }
      assert (Hm : (10 ^ prec context <= m)%Z) by lia.
      apply Qle_inject in Hm. rewrite Qp_inject in Hm by lia.
      apply Qmult_le_r; [exact HpE | exact Hm].
  - (* above: both hold *)
    specialize (Hnormal ltac:(lia)).
    pose proof (rounding_lower context context_valid x g m R Hnormal) as Hml.
    apply Qle_inject in Hml. rewrite Qp_inject in Hml by lia.
    assert (H1 : 10 ^ prec context * 10 ^ E <= 10 ^ (g + prec context - 1)).
    { rewrite <- Qp_add. apply Qp_le. lia. }
    assert (H2 : 10 ^ (g + prec context - 1) == 10 ^ (prec context - 1) * 10 ^ g).
    { rewrite <- Qp_add. replace (prec context - 1 + g)%Z
        with (g + prec context - 1)%Z by lia. reflexivity. }
    split; intros _.
    + nra.
    + rewrite H2 in H1. 
      apply Qle_trans with (10 ^ (prec context - 1) * 10 ^ g); [exact H1|].
      apply Qmult_le_r; [exact Hpg | exact Hml].
Qed.

(** Rounding overflows exactly from [overflow_threshold context] on. *)
Lemma rounds_to_overflow_iff (x : Q) (o : result Decimal) :
  rounds_to context x o ->
  (o = Trap Overflow <-> overflow_threshold context <= Qabs x).
Proof.
  intros (g & m & Hg & Hn & Ho).
  pose proof (Qp_pos g) as Hpg.
  assert (Hkey : 10 ^ (Emax context + 1) <= Qabs (inject_Z m * 10 ^ g)
                 <-> overflow_threshold context <= Qabs x).
  { destruct (Qlt_le_dec x 0) as [Hneg|Hpos].
    - pose proof (rounding_opp context x g m (conj Hg Hn)) as R.
      pose proof (rounding_upper context context_valid _ _ _ R ltac:(lra))
        as [Hm _].
      apply Qle_inject in Hm. change (inject_Z 0) with 0 in Hm.
      rewrite inject_Z_opp in Hm.
      rewrite (Qabs_neg x) by lra.
      rewrite (Qabs_neg (inject_Z m * 10 ^ g)) by nra.
      setoid_replace (- (inject_Z m * 10 ^ g)) with (inject_Z (- m) * 10 ^ g)
        by (rewrite inject_Z_opp; ring).
      apply rounding_overflow_nonneg; [exact R | lra].
    - pose proof (rounding_upper context context_valid _ _ _ (conj Hg Hn) Hpos)
        as [Hm _].
      apply Qle_inject in Hm. change (inject_Z 0) with 0 in Hm.
      rewrite (Qabs_pos x) by lra.
      rewrite (Qabs_pos (inject_Z m * 10 ^ g)) by nra.
      apply rounding_overflow_nonneg; [split; assumption | exact Hpos]. }
  rewrite <- Hkey. destruct o as [d|s].
  - destruct Ho as [_ Hlt]. split; [discriminate | intros H; lra].
  - destruct Ho as [-> Hge]. split; [intros _; exact Hge | reflexivity].
Qed.

End OverflowThreshold.

(** ** Addition and subtraction are correctly rounded *)

(** Padding the coefficient with zeros down to a lower exponent keeps the
    number. *)
Lemma to_Q_padded (s : bool) (c : N) (e e' : Z) :
  (e' <= e)%Z ->
  to_Q (_dec_from_triple s (c * pow10 (e - e')) e')
  == to_Q (_dec_from_triple s c e).
Proof.
  intros H. rewrite !to_Q_triple, N2Z.inj_mul, inject_Z_mult, inject_pow10
    by lia.
  replace e with ((e - e') + e')%Z at 2 by lia. rewrite Qp_add. ring.
Qed.

Lemma to_Q_copy_negate (d : Decimal) : to_Q (copy_negate d) == - to_Q d.
Proof.
  destruct d as [s c e]. unfold copy_negate. cbn [_sign _int _exp].
  rewrite !to_Q_triple. destruct s; cbn [negb minus_one_pow];
    change (inject_Z (-1)) with (-(1)); change (inject_Z 1) with 1; ring.
Qed.

Lemma minus_one_pow_opp (s1 s2 : bool) :
  Bool.eqb s1 s2 = false ->
  inject_Z (minus_one_pow s2) == - inject_Z (minus_one_pow s1).
Proof. destruct s1, s2; try discriminate; reflexivity. Qed.

Section Addition.

Variable context : Context.
Hypothesis context_valid : valid_context context.

(** The sum of two nonzero operands, the first with the larger exponent.
    Either both are brought to the exponent of the second and added
    exactly, or the second lies below the digits of the first that can
    matter and is replaced by a unit in a place that rounding drops. *)
Lemma add_rounds_ordered (a b : Decimal) :
  _int a <> 0%N -> _int b <> 0%N -> (_exp b <= _exp a)%Z ->
  rounds_to context (to_Q a + to_Q b)
    (let '(op1, op2) := _normalize a b (prec context) in
     if negb (Bool.eqb (_sign op1) (_sign op2)) then
       if (_int op1 =? _int op2)%N then
         _fix (_dec_from_triple false 0 (Z.min (_exp a) (_exp b))) context
       else
         let '(op1, op2) :=
           if (_int op1 <? _int op2)%N then (op2, op1) else (op1, op2) in
         _fix (_dec_from_triple (_sign op1) (_int op1 - _int op2) (_exp op1))
              context
     else
       _fix (_dec_from_triple (_sign op1) (_int op1 + _int op2) (_exp op1))
            context).
Proof.
  intros Ha Hb Hexp. pose proof context_valid as (Hprec & Hmin & Hmax).
  destruct a as [sa ca ea], b as [sb cb eb]. cbn [_sign _int _exp] in *.
  unfold _normalize. cbn [_sign _int _exp].
  rewrite (proj2 (Z.ltb_ge ea eb)) by lia. cbv beta iota zeta.
  cbn [_sign _int _exp].
  set (la := len ca). set (lb := len cb).
  set (exp := (ea + Z.min (-1) (la - prec context - 2))%Z).
  destruct (len_spec ca) as (HLa1 & HLau & HLal). specialize (HLal Ha).
  destruct (len_spec cb) as (HLb1 & HLbu & HLbl). specialize (HLbl Hb).
  fold la in HLa1, HLau, HLal. fold lb in HLb1, HLbu, HLbl.
  destruct (Z.ltb_spec (lb + eb - 1) exp) as [Hfar|Hnear];
    cbn [_sign _int _exp].
  - (* [b] is below the digits of [a] that matter: a sticky unit *)
    set (j := (ea - exp)%Z).
    assert (Hj : (1 <= j)%Z /\ (prec context + 2 - la <= j)%Z)
      by (unfold j, exp; lia).
    set (K := (ca * pow10 j)%N).
    assert (EK : Z.of_N K = (Z.of_N ca * 10 ^ j)%Z)
      by (unfold K; rewrite N2Z.inj_mul, pow10_Z by lia; reflexivity).
    assert (Hpj : (10 ^ j = 10 * 10 ^ (j - 1))%Z) by (apply pow10_succ; lia).
    assert (Hpj1 : (0 < 10 ^ (j - 1))%Z) by (apply pow10_pos_Z; lia).
    assert (HK5 : (Z.of_N K mod 5 = 0)%Z).
    { rewrite EK, Hpj.
      replace (Z.of_N ca * (10 * 10 ^ (j - 1)))%Z
        with (Z.of_N ca * 2 * 10 ^ (j - 1) * 5)%Z by ring.
      apply Z.mod_mul. lia. }
    assert (HKbig : (10 * 10 ^ prec context <= Z.of_N K)%Z).
    { rewrite EK.
      assert (H1 : (10 ^ (la - 1) * 10 ^ j <= Z.of_N ca * 10 ^ j)%Z)
        by (apply Z.mul_le_mono_nonneg_r; lia).
      rewrite <- Z.pow_add_r in H1 by lia.
      assert (H2 : (10 ^ (prec context + 1) <= 10 ^ (la - 1 + j))%Z)
        by (apply pow10_le; lia).
      rewrite (pow10_succ (prec context + 1)) in H2 by lia.
      replace (prec context + 1 - 1)%Z with (prec context) in H2 by lia.
      lia. }
    set (D := (10 ^ (exp - eb))%Z).
    assert (HD : (Z.of_N cb < D)%Z).
    { assert ((10 ^ lb <= 10 ^ (exp - eb))%Z) by (apply pow10_le; lia).
      unfold D. lia. }
    assert (Hcb : (0 < Z.of_N cb)%Z) by lia.
    assert (EDq : inject_Z D == 10 ^ (exp - eb))
      by (unfold D; apply Qp_inject; lia).
    assert (Eb : inject_Z (Z.of_N cb) * 10 ^ eb
                 == inject_Z (Z.of_N cb) / inject_Z D * 10 ^ exp).
    { rewrite EDq, Qp_sub. field. split; apply Qp_nonzero. }
    assert (Ea : inject_Z (Z.of_N ca) * 10 ^ ea
                 == inject_Z (Z.of_N K) * 10 ^ exp).
    { rewrite EK, inject_Z_mult, Qp_inject by lia.
      replace ea with (j + exp)%Z at 1 by (unfold j; lia).
      rewrite Qp_add. ring. }
    assert (HDnz : ~ inject_Z D == 0).
    { rewrite EDq. apply Qp_nonzero. }
    destruct (Bool.eqb sa sb) eqn:Hs; cbn [negb].
    + apply Bool.eqb_prop in Hs. subst sb.
      eapply (rounds_to_wd context);
        [|apply (fix_rounds_sticky context context_valid sa (K + 1) exp
                   (Z.of_N K * D + Z.of_N cb) D (Z.of_N K) (Z.of_N cb))].
      * rewrite !to_Q_triple, Ea, Eb. push_inject. field. exact HDnz.
      * reflexivity.
      * lia.
      * lia.
      * rewrite HK5. cbn [Z.eqb]. lia.
    + pose proof (minus_one_pow_opp sa sb Hs) as Hopp.
      destruct (N.eqb_spec K 1) as [HK1|HK1]; [exfalso; lia|].
      destruct (N.ltb_spec K 1) as [HKl|HKl]; [exfalso; lia|].
      cbn [_sign _int _exp].
      eapply (rounds_to_wd context);
        [|apply (fix_rounds_sticky context context_valid sa (K - 1) exp
                   (Z.of_N K * D - Z.of_N cb) D (Z.of_N K - 1)
                   (D - Z.of_N cb))].
      * rewrite !to_Q_triple, Ea, Eb, Hopp. push_inject. field. exact HDnz.
      * ring.
      * lia.
      * lia.
      * assert (H5 : ((Z.of_N K - 1) mod 5 <> 0)%Z) by div_lia.
        apply Z.eqb_neq in H5. rewrite H5. lia.
  - (* both operands at the exponent of [b] *)
    set (ia := (ca * pow10 (ea - eb))%N).
    assert (Eia : to_Q (_dec_from_triple sa ia eb)
                  == to_Q (_dec_from_triple sa ca ea))
      by (apply to_Q_padded; lia).
    destruct (Bool.eqb sa sb) eqn:Hs; cbn [negb].
    + apply Bool.eqb_prop in Hs. subst sb.
      eapply (rounds_to_wd context); [|apply (fix_rounds context context_valid)].
      rewrite <- Eia, !to_Q_triple, N2Z.inj_add, inject_Z_plus. ring.
    + pose proof (minus_one_pow_opp sa sb Hs) as Hopp.
      destruct (N.eqb_spec ia cb) as [Heq|Hne].
      * eapply (rounds_to_wd context);
          [|apply (fix_rounds context context_valid)].
        rewrite <- Eia, !to_Q_triple, Hopp, Heq.
        change (inject_Z (Z.of_N 0)) with 0. ring.
      * destruct (N.ltb_spec ia cb) as [Hlt|Hge]; cbn [_sign _int _exp];
          (eapply (rounds_to_wd context);
           [|apply (fix_rounds context context_valid)]);
          rewrite <- Eia, !to_Q_triple, N2Z.inj_sub, Hopp by lia;
          push_inject; ring.
Qed.

(** Addition is correctly rounded: the outcome of [__add__] is the exact
    sum rounded half-even to the precision of the context, or Overflow. *)
Lemma add_rounds (a b : Decimal) :
  rounds_to context (to_Q a + to_Q b) (__add__ a b context).
Proof.
  pose proof context_valid as (Hprec & Hmin & Hmax).
  assert (Hzero : forall d : Decimal, _int d = 0%N -> to_Q d == 0).
  { intros [s c e] H. cbn [_int] in H. subst c. apply to_Q_zero. }
  assert (Hrescale : forall (d : Decimal) (E : Z),
            _int d <> 0%N -> (E <= _exp d)%Z ->
            to_Q (_rescale d E) == to_Q d).
  { intros [s c e] E Hc HE. cbn [_int _exp] in *.
    unfold _rescale, __bool__. cbn [_sign _int _exp].
    rewrite (proj2 (N.eqb_neq c 0) Hc). cbn [negb].
    rewrite (geb_true e E) by lia. apply to_Q_padded. lia. }
  destruct (N.eq_dec (_int a) 0) as [Ha|Ha];
    destruct (N.eq_dec (_int b) 0) as [Hb|Hb];
    unfold __add__, __bool__; cbv zeta;
    rewrite ?(proj2 (N.eqb_eq _ _) Ha), ?(proj2 (N.eqb_neq _ _) Ha),
      ?(proj2 (N.eqb_eq _ _) Hb), ?(proj2 (N.eqb_neq _ _) Hb);
    cbn [negb andb].
  - eapply (rounds_to_wd context); [|apply (fix_rounds context context_valid)].
    rewrite (Hzero a Ha), (Hzero b Hb), to_Q_zero. reflexivity.
  - eapply (rounds_to_wd context); [|apply (fix_rounds context context_valid)].
    rewrite (Hzero a Ha), Hrescale by (assumption || lia). ring.
  - eapply (rounds_to_wd context); [|apply (fix_rounds context context_valid)].
    rewrite (Hzero b Hb), Hrescale by (assumption || lia). ring.
  - destruct (Z.le_gt_cases (_exp b) (_exp a)) as [Hle|Hgt].
    + apply (add_rounds_ordered a b Ha Hb Hle).
    + pose proof (add_rounds_ordered b a Hb Ha ltac:(lia)) as H.
      apply (rounds_to_wd context (to_Q b + to_Q a)); [ring|].
      pose proof (decimal_add_comm a b context) as Hc.
      unfold __add__, __bool__ in Hc. cbv zeta in Hc.
      rewrite ?(proj2 (N.eqb_neq _ _) Ha), ?(proj2 (N.eqb_neq _ _) Hb) in Hc.
      cbn [negb andb] in Hc. rewrite Hc. exact H.
Qed.

(** Subtraction is correctly rounded. *)
Lemma sub_rounds (a b : Decimal) :
  rounds_to context (to_Q a - to_Q b) (__sub__ a b context).
Proof.
  unfold __sub__. apply (rounds_to_wd context (to_Q a + to_Q (copy_negate b))).
  - rewrite to_Q_copy_negate. ring.
  - apply add_rounds.
Qed.

End Addition.

Local Close Scope Q_scope.

(** ** Running the formulas *)

Lemma to_Q_power (s : bool) (k : Z) :
  (to_Q (_dec_from_triple s 1 k) == inject_Z (minus_one_pow s) * 10 ^ k)%Q.
Proof. rewrite to_Q_triple. change (inject_Z (Z.of_N 1)) with 1%Q. ring. Qed.

(** A number of magnitude at most [10^k] is rounded without overflow, to
    a number of magnitude at most [10^k]. *)
Lemma rounds_to_bounded (x : Q) (k : Z) (o : result Decimal) :
  0 <= k <= Emax getcontext ->
  rounds_to getcontext x o -> (Qabs x <= 10 ^ k)%Q ->
  exists d, o = Value d /\ (Qabs (to_Q d) <= 10 ^ k)%Q.
Proof.
  intros Hk Hr Hx. apply Qabs_Qle_condition in Hx.
  destruct (fits_power k Hk) as [Fp Fn].
  pose proof (fits_rounds getcontext valid_getcontext _ Fp) as Rp.
  pose proof (fits_rounds getcontext valid_getcontext _ Fn) as Rn.
  pose proof (to_Q_power false k) as Ep. pose proof (to_Q_power true k) as En.
  change (inject_Z (minus_one_pow false)) with 1%Q in Ep.
  change (inject_Z (minus_one_pow true)) with (-(1))%Q in En.
  destruct (rounds_to_between getcontext valid_getcontext x _ _ o _ _
              Hr Rp Rn) as [d ->]; [lra | lra |].
  exists d. split; [reflexivity|].
  pose proof (rounds_to_mono getcontext valid_getcontext _ _ _ _ Hr Rp
                ltac:(lra)).
  pose proof (rounds_to_mono getcontext valid_getcontext _ _ _ _ Rn Hr
                ltac:(lra)).
  apply Qabs_Qle_condition. split; lra.
Qed.

(** The integer 100 of [operating_netback_margin], as a Decimal. *)
Lemma to_Q_hundred : (to_Q (Decimal_of_int 100) == 100)%Q.
Proof. reflexivity. Qed.

(** Multiplying a number that fits the context by 100 is exact. *)
Lemma times_hundred_exact (d v : Decimal) :
  fits getcontext d ->
  __mul__ d (Decimal_of_int 100) getcontext = Value v ->
  (to_Q v == 100 * to_Q d)%Q.
Proof.
  intros (Hl & He & _) Hv.
  pose proof (mul_rounds getcontext valid_getcontext d (Decimal_of_int 100))
    as Hr.
  rewrite Hv in Hr.
  apply (rounds_to_wd getcontext _ (100 * to_Q d)%Q) in Hr;
    [|rewrite to_Q_hundred; ring].
  apply (rounds_to_exact getcontext valid_getcontext _ v (signed_int d)
           (_exp d + 2) Hr).
  - unfold to_Q. rewrite Qp_add.
    change (Qpower (10 # 1) (_exp d)) with (10 ^ _exp d)%Q.
    change (10 ^ 2)%Q with 100%Q. ring.
  - pose proof (len_upper (_int d)) as Hu.
    assert (10 ^ len (_int d) <= 10 ^ prec getcontext)
      by (apply pow10_le; pose proof (len_pos (_int d)); lia).
    unfold signed_int. destruct (_sign d); unfold minus_one_pow; lia.
  - lia.
Qed.

Ltac ratio_outcome_case :=
  run_exec; cbn [andb]; repeat (case_step; run_exec);
  cbn [negb andb outcome_of]; unfold apply_operator in *;
  try match goal with
      | H : __truediv__ _ _ _ = _ |- _ => rewrite H
      end; reflexivity.

(** The seven ratios differ only in whether the numerator is validated
    and in the names they report. *)
Lemma ratio_outcome (f : Decimal -> Decimal -> Exec Decimal) :
  In f pure_ratios ->
  exists (numerator_validated : bool) (name1 name2 : string),
  forall a b,
    call (f a b)
    = if andb numerator_validated (negb (__gt__ a (Decimal_of_int 0)))
      then Raised (InvalidInputError name1 a)
      else if negb (__gt__ b (Decimal_of_int 0))
      then Raised (InvalidInputError name2 b)
      else outcome_of (__truediv__ a b getcontext).
Proof.
  intros Hf.
  repeat (destruct Hf as [<-|Hf]); [..|destruct Hf];
    first [ exists false, EmptyString; eexists; intros a b;
            solve [ratio_outcome_case]
          | exists true; do 2 eexists; intros a b;
            solve [ratio_outcome_case] ].
Qed.

(** A ratio that returns has passed validation and is the quotient. *)
Lemma ratio_returned (f : Decimal -> Decimal -> Exec Decimal)
  (a b v : Decimal) :
  In f pure_ratios -> call (f a b) = Returned v ->
  (0 < to_Q b)%Q /\ __truediv__ a b getcontext = Value v.
Proof.
  intros Hf.
  repeat (destruct Hf as [<-|Hf]); [..|destruct Hf];
    run_cases; intros H; try discriminate H; injection H as <-;
    (split; [apply gt_zero_true; assumption | assumption]).
Qed.

Lemma ratio_rounds (f : Decimal -> Decimal -> Exec Decimal)
  (a b v : Decimal) :
  In f pure_ratios -> call (f a b) = Returned v ->
  (0 < to_Q b)%Q /\ rounds_to getcontext (to_Q a / to_Q b) (Value v).
Proof.
  intros Hf H. destruct (ratio_returned f a b v Hf H) as [Hb Hd].
  split; [exact Hb|]. rewrite <- Hd.
  apply truediv_rounds; [apply valid_getcontext | apply pos_nonzero; exact Hb].
Qed.

(** Two calls of [netback] at the same price whose costs have the same
    exact total return the same number, when nothing needs rounding. *)
Lemma netback_same_total (q : Z) (p r t o r' t' o' : Decimal) :
  0 <= q <= - Etiny getcontext ->
  - q <= _exp p ->
  (- q <= _exp r /\ - q <= _exp t /\ - q <= _exp o) ->
  (- q <= _exp r' /\ - q <= _exp t' /\ - q <= _exp o') ->
  Z.abs (scaled q p) + Z.abs (scaled q r) + Z.abs (scaled q t)
  + Z.abs (scaled q o) < 10 ^ prec getcontext ->
  Z.abs (scaled q p) + Z.abs (scaled q r') + Z.abs (scaled q t')
  + Z.abs (scaled q o') < 10 ^ prec getcontext ->
  scaled q r + scaled q t + scaled q o
  = scaled q r' + scaled q t' + scaled q o' ->
  both_return_same (netback p r t o) (netback p r' t' o').
Proof.
  intros Hq Hp (Hr & Ht & Ho) (Hr' & Ht' & Ho') Hs Hs' E.
  destruct (netback_exact q p r t o [] Hq Hp Hr Ht Ho Hs)
    as (v & l & Hv & Hev & Hsv).
  destruct (netback_exact q p r' t' o' [] Hq Hp Hr' Ht' Ho' Hs')
    as (w & l' & Hw & Hew & Hsw).
  exists v, w. unfold call. rewrite Hv, Hw.
  split; [reflexivity | split; [reflexivity|]].
  apply eq_spec. apply (same_units q); [assumption | assumption | lia].
Qed.

(** A call of [netback] that returns went through three subtractions. *)
Lemma netback_returned (p r t o v : Decimal) :
  call (netback p r t o) = Returned v ->
  exists d1 d2,
    __sub__ p r getcontext = Value d1 /\
    __sub__ d1 t getcontext = Value d2 /\
    __sub__ d2 o getcontext = Value v.
Proof.
  run_exec. unfold apply_operator.
  destruct (__sub__ p r getcontext) as [d1|] eqn:E1; run_exec;
    [|discriminate].
  destruct (__sub__ d1 t getcontext) as [d2|] eqn:E2; run_exec;
    [|discriminate].
  destruct (__sub__ d2 o getcontext) as [nb|] eqn:E3; run_exec;
    [|discriminate].
  intros H. injection H as <-. exists d1, d2. repeat split; assumption.
Qed.

Lemma netback_differences (p r t o v : Decimal) :
  call (netback p r t o) = Returned v ->
  exists d1 d2,
    (fits getcontext d1 /\ fits getcontext d2) /\
    rounds_to getcontext (to_Q p - to_Q r) (Value d1) /\
    rounds_to getcontext (to_Q d1 - to_Q t) (Value d2) /\
    rounds_to getcontext (to_Q d2 - to_Q o) (Value v).
Proof.
  intros H. destruct (netback_returned p r t o v H) as (d1 & d2 & E1 & E2 & E3).
  exists d1, d2. split.
  - split; [apply (operator_fits Sub p r); exact E1
           | apply (operator_fits Sub d1 t); exact E2].
  - rewrite <- E1, <- E2, <- E3.
    split; [|split]; apply (sub_rounds getcontext valid_getcontext).
Qed.

(** A call of [finding_development_cost] that returns has passed
    validation, added and divided. *)
Lemma finding_development_cost_returned (e d r v : Decimal) :
  call (finding_development_cost e d r) = Returned v ->
  (0 < to_Q r)%Q /\
  exists total,
    __add__ e d getcontext = Value total /\
    __truediv__ total r getcontext = Value v.
Proof.
  run_exec. destruct (__gt__ r (Decimal_of_int 0)) eqn:Hr; run_exec;
    [|discriminate].
  unfold apply_operator.
  destruct (__add__ e d getcontext) as [total|] eqn:E1; run_exec;
    [|discriminate].
  destruct (__truediv__ total r getcontext) as [w|] eqn:E2; run_exec;
    [|discriminate].
  intros H. injection H as <-.
  split; [apply gt_zero_true; exact Hr|].
  exists total. split; [reflexivity | exact E2].
Qed.

Lemma finding_development_cost_roundings (e d r v : Decimal) :
  call (finding_development_cost e d r) = Returned v ->
  (0 < to_Q r)%Q /\
  exists total,
    rounds_to getcontext (to_Q e + to_Q d) (Value total) /\
    rounds_to getcontext (to_Q total / to_Q r) (Value v).
Proof.
  intros H.
  destruct (finding_development_cost_returned e d r v H)
    as (Hr & total & E1 & E2).
  split; [exact Hr|]. exists total. rewrite <- E1, <- E2. split.
  - apply (add_rounds getcontext valid_getcontext).
  - apply (truediv_rounds getcontext valid_getcontext).
    apply pos_nonzero. exact Hr.
Qed.

(** A call of [operating_netback_margin] that returns has passed
    validation, divided and multiplied. *)
Lemma operating_netback_margin_returned (n p margin : Decimal) :
  call (operating_netback_margin n p) = Returned margin ->
  (0 < to_Q p)%Q /\
  exists quotient,
    __truediv__ n p getcontext = Value quotient /\
    __mul__ quotient (Decimal_of_int 100) getcontext = Value margin.
Proof.
  run_exec. destruct (__gt__ p (Decimal_of_int 0)) eqn:Hp; run_exec;
    [|discriminate].
  unfold apply_operator.
  destruct (__truediv__ n p getcontext) as [quotient|] eqn:E1; run_exec;
    [|discriminate].
  destruct (__mul__ quotient (Decimal_of_int 100) getcontext) as [m|] eqn:E2;
    run_exec; [|discriminate].
  intros H. injection H as <-.
  split; [apply gt_zero_true; exact Hp|].
  exists quotient. split; [reflexivity | exact E2].
Qed.

(** Subtracting a zero from a number that fits the context returns the
    number. *)
Lemma sub_zero_fits (a b : Decimal) :
  fits getcontext a -> (to_Q b == 0)%Q ->
  exists d, __sub__ a b getcontext = Value d /\ (to_Q d == to_Q a)%Q.
Proof.
  intros Ha Hb.
  pose proof (sub_rounds getcontext valid_getcontext a b) as Hr.
  apply (rounds_to_wd getcontext _ (to_Q a)) in Hr; [|rewrite Hb; ring].
  pose proof (rounds_to_unique getcontext _ _ _ Hr
                (fits_rounds getcontext valid_getcontext a Ha)) as Hs.
  destruct (__sub__ a b getcontext) as [d|s]; cbn [same_number] in Hs;
    [|contradiction].
  exists d. split; [reflexivity | exact Hs].
Qed.

(** ** Properties of all ten formulas *)

(** X1.  Every value that a formula function returns fits the context: its
    coefficient has at most 28 digits, its exponent is at least
    [Etiny = -1000026] and its adjusted exponent at most [Emax = 999999];
    rounding it again in the context leaves it unchanged. *)
Theorem results_fit_context (f : Formula) (v : Decimal) :
  call (evaluate f) = Returned v ->
  fits getcontext v /\ _fix v getcontext = Value v.
Proof.
  intros H.
  assert (Hf : fits getcontext v).
  { revert H. destruct f; run_cases; intros H; try discriminate H;
      injection H as <-; eapply operator_fits; eassumption. }
  split; [exact Hf | exact (fits_fix v getcontext valid_getcontext Hf)].
Qed.

(** X1, witness: the F&D cost of 20 and 30 million over 5 million BOE. *)
Lemma results_fit_context_witness :
  call (evaluate (FindingDevelopmentCost (Decimal_of_int 20000000)
                    (Decimal_of_int 30000000) (Decimal_of_int 5000000)))
  = Returned (Decimal_of_int 10) /\
  fits getcontext (Decimal_of_int 10) /\
  _fix (Decimal_of_int 10) getcontext = Value (Decimal_of_int 10).
Proof.
  assert (H : call (evaluate (FindingDevelopmentCost (Decimal_of_int 20000000)
                      (Decimal_of_int 30000000) (Decimal_of_int 5000000)))
              = Returned (Decimal_of_int 10)) by (vm_compute; reflexivity).
  split; [exact H|]. exact (results_fit_context _ _ H).
Defined.

(** X2.  The only exceptions a formula function raises are the "invalid
    input" error, carrying a value that is zero or negative, and the
    Overflow of the decimal module: no call ever raises DivisionByZero or
    InvalidOperation. *)
Theorem formulas_raise_invalid_input_or_overflow
  (f : Formula) (e : Exception) :
  call (evaluate f) = Raised e ->
  (exists name value, e = InvalidInputError name value /\ (to_Q value <= 0)%Q)
  \/ e = DecimalException Overflow.
Proof.
  destruct f; run_cases; intros H; try discriminate H; injection H as <-;
    try (left; do 2 eexists; split;
         [reflexivity | apply gt_zero_false; assumption]);
    right; f_equal; unfold apply_operator in *;
    match goal with
    | Hs : __add__ _ _ _ = Trap _ |- _ => exact (add_trap _ _ _ _ Hs)
    | Hs : __sub__ _ _ _ = Trap _ |- _ => exact (sub_trap _ _ _ _ Hs)
    | Hs : __mul__ _ _ _ = Trap _ |- _ => exact (mul_trap _ _ _ _ Hs)
    | Hs : __truediv__ _ ?b _ = Trap _, Hg : __gt__ ?b _ = true |- _ =>
        exact (truediv_trap _ _ _ _ valid_getcontext (gt_zero_nonzero _ Hg) Hs)
    end.
Qed.

(** X2, witness: [recycle_ratio(1E+999999, 1E-999999)] overflows. *)
Lemma formulas_raise_invalid_input_or_overflow_witness :
  call (evaluate (RecycleRatio (_dec_from_triple false 1 999999)
                    (_dec_from_triple false 1 (-999999))))
  = Raised (DecimalException Overflow) /\
  ((exists name value,
      DecimalException Overflow = InvalidInputError name value /\
      (to_Q value <= 0)%Q)
   \/ DecimalException Overflow = DecimalException Overflow).
Proof.
  assert (H : call (evaluate (RecycleRatio (_dec_from_triple false 1 999999)
                      (_dec_from_triple false 1 (-999999))))
              = Raised (DecimalException Overflow))
    by (vm_compute; reflexivity).
  split; [exact H|]. exact (formulas_raise_invalid_input_or_overflow _ _ H).
Defined.

(** ** Finding and development cost *)

(** X3.  [finding_development_cost] is symmetric in its two costs: for all
    arguments, swapping [exploration_costs] and [development_costs] gives
    the same outcome, be it the value returned or the exception raised. *)
Theorem finding_development_cost_costs_commute
  (exploration_costs development_costs reserves_added : Decimal) :
  call (finding_development_cost exploration_costs development_costs
          reserves_added)
  = call (finding_development_cost development_costs exploration_costs
            reserves_added).
Proof.
  run_exec. destruct (__gt__ reserves_added (Decimal_of_int 0)); run_exec;
    [|reflexivity].
  unfold apply_operator.
  rewrite (decimal_add_comm development_costs exploration_costs).
  destruct (__add__ exploration_costs development_costs getcontext); run_exec;
    [|reflexivity].
  destruct (__truediv__ a reserves_added getcontext); reflexivity.
Qed.

(** X4.  A value returned by [finding_development_cost] is the result of
    two correct roundings: the exact sum of the costs rounded half-even to
    28 significant digits, and the exact quotient of that rounded sum by
    [reserves_added] rounded in the same way. *)
Theorem finding_development_cost_rounds_sum_then_quotient
  (exploration_costs development_costs reserves_added v : Decimal) :
  call (finding_development_cost exploration_costs development_costs
          reserves_added) = Returned v ->
  exists total,
    rounds_to getcontext (to_Q exploration_costs + to_Q development_costs)
      (Value total) /\
    rounds_to getcontext (to_Q total / to_Q reserves_added) (Value v).
Proof.
  intros H. destruct (finding_development_cost_roundings _ _ _ _ H)
    as (_ & total & R). exists total. exact R.
Qed.

(** X4, witness: costs of 1 and 0 over reserves of 3. *)
Lemma finding_development_cost_rounds_sum_then_quotient_witness :
  call (finding_development_cost (Decimal_of_int 1) (Decimal_of_int 0)
          (Decimal_of_int 3))
  = Returned (_dec_from_triple false 3333333333333333333333333333 (-28)) /\
  exists total,
    rounds_to getcontext (to_Q (Decimal_of_int 1) + to_Q (Decimal_of_int 0))
      (Value total) /\
    rounds_to getcontext (to_Q total / to_Q (Decimal_of_int 3))
      (Value (_dec_from_triple false 3333333333333333333333333333 (-28))).
Proof.
  assert (H : call (finding_development_cost (Decimal_of_int 1)
                      (Decimal_of_int 0) (Decimal_of_int 3))
              = Returned (_dec_from_triple false 3333333333333333333333333333
                            (-28))) by (vm_compute; reflexivity).
  split; [exact H|].
  exact (finding_development_cost_rounds_sum_then_quotient _ _ _ _ H).
Defined.

(** X5.  [finding_development_cost] is monotone in the costs: for the same
    [reserves_added], costs that are not lower give a result that is not
    lower.  Its result is never negative when the exact sum of the costs
    is not negative, and never positive when that sum is not positive. *)
Theorem finding_development_cost_monotone (e d r e' d' v v' : Decimal) :
  call (finding_development_cost e d r) = Returned v ->
  call (finding_development_cost e' d' r) = Returned v' ->
  (to_Q e <= to_Q e')%Q -> (to_Q d <= to_Q d')%Q ->
  (to_Q v <= to_Q v')%Q /\
  ((0 <= to_Q e + to_Q d)%Q -> (0 <= to_Q v)%Q) /\
  ((to_Q e + to_Q d <= 0)%Q -> (to_Q v <= 0)%Q).
Proof.
  intros H H' He Hd.
  destruct (finding_development_cost_roundings _ _ _ _ H)
    as (Hr & total & R1 & R2).
  destruct (finding_development_cost_roundings _ _ _ _ H')
    as (_ & total' & R1' & R2').
  pose proof (rounds_to_mono getcontext valid_getcontext _ _ _ _ R1 R1'
                ltac:(lra)) as H1.
  pose proof (fits_rounds getcontext valid_getcontext _ fits_zero) as Hr0.
  assert (E0 : (to_Q (Decimal_of_int 0) == 0)%Q) by reflexivity.
  assert (Hinv : (0 < / to_Q r)%Q) by (apply Qinv_lt_0_compat; exact Hr).
  split; [|split].
  - apply (rounds_to_mono getcontext valid_getcontext _ _ _ _ R2 R2').
    apply Qmult_le_r; assumption.
  - intros Hs.
    pose proof (rounds_to_mono getcontext valid_getcontext _ _ _ _ Hr0 R1
                  ltac:(lra)) as Ht.
    rewrite <- E0.
    apply (rounds_to_mono getcontext valid_getcontext _ _ _ _ Hr0 R2).
    rewrite E0 in *. apply Qle_shift_div_l; [exact Hr | lra].
  - intros Hs.
    pose proof (rounds_to_mono getcontext valid_getcontext _ _ _ _ R1 Hr0
                  ltac:(lra)) as Ht.
    rewrite <- E0.
    apply (rounds_to_mono getcontext valid_getcontext _ _ _ _ R2 Hr0).
    rewrite E0 in *. apply Qle_shift_div_r; [exact Hr | lra].
Qed.

(** X5, witness: development costs of 30 against 50 million. *)
Lemma finding_development_cost_monotone_witness :
  call (finding_development_cost (Decimal_of_int 20000000)
          (Decimal_of_int 30000000) (Decimal_of_int 5000000))
  = Returned (Decimal_of_int 10) /\
  call (finding_development_cost (Decimal_of_int 20000000)
          (Decimal_of_int 50000000) (Decimal_of_int 5000000))
  = Returned (Decimal_of_int 14) /\
  (to_Q (Decimal_of_int 20000000) <= to_Q (Decimal_of_int 20000000))%Q /\
  (to_Q (Decimal_of_int 30000000) <= to_Q (Decimal_of_int 50000000))%Q /\
  (to_Q (Decimal_of_int 10) <= to_Q (Decimal_of_int 14))%Q.
Proof.
  assert (H : call (finding_development_cost (Decimal_of_int 20000000)
                      (Decimal_of_int 30000000) (Decimal_of_int 5000000))
              = Returned (Decimal_of_int 10)) by (vm_compute; reflexivity).
  assert (H' : call (finding_development_cost (Decimal_of_int 20000000)
                       (Decimal_of_int 50000000) (Decimal_of_int 5000000))
               = Returned (Decimal_of_int 14)) by (vm_compute; reflexivity).
  assert (He : (to_Q (Decimal_of_int 20000000)
                <= to_Q (Decimal_of_int 20000000))%Q)
    by (vm_compute; discriminate).
  assert (Hd : (to_Q (Decimal_of_int 30000000)
                <= to_Q (Decimal_of_int 50000000))%Q)
    by (vm_compute; discriminate).
  split; [exact H | split; [exact H' | split; [exact He | split; [exact Hd|]]]].
  exact (proj1 (finding_development_cost_monotone _ _ _ _ _ _ _ H H' He Hd)).
Defined.

(** ** The seven ratios *)

(** X6.  For a strictly positive denominator, [lifting_cost],
    [breakeven_price] and [recycle_ratio] return the exact quotient of
    their arguments rounded half-even to 28 significant digits, whatever
    the sign of the numerator, or raise Overflow when the rounded quotient
    is out of the exponent range; so do [reserve_life_index],
    [reserves_per_share] and [capital_efficiency] when the numerator is
    strictly positive too. *)
Theorem ratios_return_rounded_quotient (a b : Decimal) :
  (0 < to_Q b)%Q ->
  returns_rounded (to_Q a / to_Q b) (call (lifting_cost a b)) /\
  returns_rounded (to_Q a / to_Q b) (call (breakeven_price a b)) /\
  returns_rounded (to_Q a / to_Q b) (call (recycle_ratio a b)) /\
  ((0 < to_Q a)%Q ->
   returns_rounded (to_Q a / to_Q b) (call (reserve_life_index a b)) /\
   returns_rounded (to_Q a / to_Q b) (call (reserves_per_share a b)) /\
   returns_rounded (to_Q a / to_Q b) (call (capital_efficiency a b))).
Proof.
  intros Hb. destruct (ratio_calls a b Hb) as (_ & C2 & C3 & C4 & C5).
  pose proof (returns_rounded_div a b (pos_nonzero b Hb)) as H.
  rewrite C2, C3, C4.
  split; [exact H | split; [exact H | split; [exact H |]]].
  intros Ha. destruct (C5 Ha) as (D1 & D2 & D3). rewrite D1, D2, D3.
  split; [exact H | split; exact H].
Qed.

(** X6, witness: operating costs of 20 million over 2 million BOE. *)
Lemma ratios_return_rounded_quotient_witness :
  (0 < to_Q (Decimal_of_int 2000000))%Q /\
  returns_rounded
    (to_Q (Decimal_of_int 20000000) / to_Q (Decimal_of_int 2000000))
    (call (lifting_cost (Decimal_of_int 20000000) (Decimal_of_int 2000000))).
Proof.
  assert (Hb : (0 < to_Q (Decimal_of_int 2000000))%Q) by reflexivity.
  split; [exact Hb|].
  exact (proj1 (ratios_return_rounded_quotient (Decimal_of_int 20000000)
                  (Decimal_of_int 2000000) Hb)).
Defined.

(** X7.  A ratio depends on its two arguments only through their exact
    quotient: when a call returns, every call of the same function on
    arguments with a strictly positive denominator and the same exact
    quotient returns a value that is [==] to it, and when a call raises
    Overflow so does every such call. *)
Theorem ratios_depend_on_quotient_only
  (f : Decimal -> Decimal -> Exec Decimal) (a b a' b' : Decimal) :
  In f pure_ratios ->
  (0 < to_Q b')%Q -> (to_Q a' / to_Q b' == to_Q a / to_Q b)%Q ->
  (forall v, call (f a b) = Returned v ->
     exists v', call (f a' b') = Returned v' /\ __eq__ v' v = true) /\
  (call (f a b) = Raised (DecimalException Overflow) ->
   call (f a' b') = Raised (DecimalException Overflow)).
Proof.
  intros Hf Hb' E.
  assert (Hgb' : __gt__ b' (Decimal_of_int 0) = true)
    by (apply gt_zero_true; exact Hb').
  assert (Hga : __gt__ b (Decimal_of_int 0) = true ->
                __gt__ a (Decimal_of_int 0) = true ->
                __gt__ a' (Decimal_of_int 0) = true).
  { intros Hb Ha. apply gt_zero_true in Hb, Ha. apply gt_zero_true.
    assert (H : (0 < to_Q a' / to_Q b')%Q).
    { rewrite E. apply Qlt_shift_div_l; [exact Hb | lra]. }
    apply (Qmult_lt_r _ _ _ Hb') in H.
    setoid_replace (to_Q a' / to_Q b' * to_Q b')%Q with (to_Q a') in H
      by (field; lra).
    lra. }
  assert (Hdiv : __gt__ b (Decimal_of_int 0) = true ->
                 same_outcome (outcome_of (__truediv__ a' b' getcontext))
                              (outcome_of (__truediv__ a b getcontext))).
  { intros Hb. apply same_outcome_of, truediv_same_quotient.
    - apply gt_zero_nonzero; exact Hb.
    - apply pos_nonzero; exact Hb'.
    - exact E. }
  destruct (ratio_outcome f Hf) as (g & n1 & n2 & Hcall).
  rewrite !Hcall, Hgb'. cbn [negb].
  destruct (__gt__ b (Decimal_of_int 0)) eqn:Hb; cbn [negb].
  - specialize (Hdiv eq_refl). specialize (Hga eq_refl).
    assert (Hsame :
      (forall v, outcome_of (__truediv__ a b getcontext) = Returned v ->
         exists v', outcome_of (__truediv__ a' b' getcontext) = Returned v'
                    /\ __eq__ v' v = true) /\
      (outcome_of (__truediv__ a b getcontext)
       = Raised (DecimalException Overflow) ->
       outcome_of (__truediv__ a' b' getcontext)
       = Raised (DecimalException Overflow))).
    { destruct (outcome_of (__truediv__ a' b' getcontext)) as [w'|e'],
        (outcome_of (__truediv__ a b getcontext)) as [w|e];
        cbn [same_outcome] in Hdiv; try contradiction.
      - split; [|discriminate]. intros v H. injection H as <-.
        exists w'. split; [reflexivity | exact Hdiv].
      - subst e'. split; [discriminate | trivial]. }
    destruct g; cbn [andb]; [|exact Hsame].
    destruct (__gt__ a (Decimal_of_int 0)) eqn:Ha; cbn [negb].
    + rewrite (Hga eq_refl). cbn [negb]. exact Hsame.
    + split; [discriminate | discriminate].
  - destruct (andb g (negb (__gt__ a (Decimal_of_int 0))));
      split; discriminate.
Qed.

(** X7, witness: 1200000 / 1000000 and 12 / 10. *)
Lemma ratios_depend_on_quotient_only_witness :
  In reserve_replacement_ratio pure_ratios /\
  (0 < to_Q (Decimal_of_int 10))%Q /\
  (to_Q (Decimal_of_int 12) / to_Q (Decimal_of_int 10)
   == to_Q (Decimal_of_int 1200000) / to_Q (Decimal_of_int 1000000))%Q /\
  call (reserve_replacement_ratio (Decimal_of_int 1200000)
          (Decimal_of_int 1000000))
  = Returned (_dec_from_triple false 12 (-1)) /\
  exists v',
    call (reserve_replacement_ratio (Decimal_of_int 12) (Decimal_of_int 10))
    = Returned v' /\
    __eq__ v' (_dec_from_triple false 12 (-1)) = true.
Proof.
  assert (Hin : In reserve_replacement_ratio pure_ratios)
    by (left; reflexivity).
  assert (Hb : (0 < to_Q (Decimal_of_int 10))%Q) by reflexivity.
  assert (E : (to_Q (Decimal_of_int 12) / to_Q (Decimal_of_int 10)
               == to_Q (Decimal_of_int 1200000)
                  / to_Q (Decimal_of_int 1000000))%Q) by reflexivity.
  assert (H : call (reserve_replacement_ratio (Decimal_of_int 1200000)
                      (Decimal_of_int 1000000))
              = Returned (_dec_from_triple false 12 (-1)))
    by (vm_compute; reflexivity).
  split; [exact Hin | split; [exact Hb | split; [exact E | split; [exact H|]]]].
  exact (proj1 (ratios_depend_on_quotient_only _ _ _ _ _ Hin Hb E) _ H).
Defined.

(** X8.  Each ratio is monotone: with the same denominator, a numerator
    that is not lower gives a result that is not lower; with the same
    numerator, zero or positive, a denominator that is not lower gives a
    result that is not higher. *)
Theorem ratios_monotone (f : Decimal -> Decimal -> Exec Decimal) :
  In f pure_ratios ->
  (forall a a' b v v',
     call (f a b) = Returned v -> call (f a' b) = Returned v' ->
     (to_Q a <= to_Q a')%Q -> (to_Q v <= to_Q v')%Q) /\
  (forall a b b' v v',
     call (f a b) = Returned v -> call (f a b') = Returned v' ->
     (0 <= to_Q a)%Q -> (to_Q b <= to_Q b')%Q -> (to_Q v' <= to_Q v)%Q).
Proof.
  intros Hf. split.
  - intros a a' b v v' Hv Hv' Hle.
    destruct (ratio_rounds f a b v Hf Hv) as [Hb Hr].
    destruct (ratio_rounds f a' b v' Hf Hv') as [_ Hr'].
    apply (rounds_to_mono getcontext valid_getcontext _ _ _ _ Hr Hr').
    apply Qmult_le_r; [apply Qinv_lt_0_compat; exact Hb | exact Hle].
  - intros a b b' v v' Hv Hv' Ha Hle.
    destruct (ratio_rounds f a b v Hf Hv) as [Hb Hr].
    destruct (ratio_rounds f a b' v' Hf Hv') as [Hb' Hr'].
    apply (rounds_to_mono getcontext valid_getcontext _ _ _ _ Hr' Hr).
    apply Qle_shift_div_l; [exact Hb|].
    setoid_replace (to_Q a / to_Q b' * to_Q b)%Q
      with (to_Q a * (to_Q b / to_Q b'))%Q by (field; lra).
    assert (H1 : (to_Q b / to_Q b' <= 1)%Q)
      by (apply Qle_shift_div_r; [exact Hb' | lra]).
    nra.
Qed.

(** X8, witness: lifting costs of 20 and of 50 million over 2 million
    BOE. *)
Lemma ratios_monotone_witness :
  In lifting_cost pure_ratios /\
  call (lifting_cost (Decimal_of_int 20000000) (Decimal_of_int 2000000))
  = Returned (Decimal_of_int 10) /\
  call (lifting_cost (Decimal_of_int 50000000) (Decimal_of_int 2000000))
  = Returned (Decimal_of_int 25) /\
  (to_Q (Decimal_of_int 20000000) <= to_Q (Decimal_of_int 50000000))%Q /\
  (to_Q (Decimal_of_int 10) <= to_Q (Decimal_of_int 25))%Q.
Proof.
  assert (Hin : In lifting_cost pure_ratios)
    by (do 3 right; left; reflexivity).
  assert (H : call (lifting_cost (Decimal_of_int 20000000)
                      (Decimal_of_int 2000000))
              = Returned (Decimal_of_int 10)) by (vm_compute; reflexivity).
  assert (H' : call (lifting_cost (Decimal_of_int 50000000)
                       (Decimal_of_int 2000000))
               = Returned (Decimal_of_int 25)) by (vm_compute; reflexivity).
  assert (Hle : (to_Q (Decimal_of_int 20000000)
                 <= to_Q (Decimal_of_int 50000000))%Q)
    by (vm_compute; discriminate).
  split; [exact Hin | split; [exact H | split; [exact H' | split;
    [exact Hle|]]]].
  exact (proj1 (ratios_monotone _ Hin) _ _ _ _ _ H H' Hle).
Defined.

(** X9.  A returned ratio compares with a threshold [t] that fits the
    context (such as 1 or 2) as the exact quotient does: a result above
    [t] means that the numerator exceeds [t] times the denominator, a
    result below [t] that it falls short of it, and a numerator equal to
    [t] times the denominator gives a result equal to [t]. *)
Theorem ratios_compare_with_threshold
  (f : Decimal -> Decimal -> Exec Decimal) (a b v t : Decimal) :
  In f pure_ratios -> fits getcontext t -> call (f a b) = Returned v ->
  ((to_Q t < to_Q v)%Q -> (to_Q t * to_Q b < to_Q a)%Q) /\
  ((to_Q v < to_Q t)%Q -> (to_Q a < to_Q t * to_Q b)%Q) /\
  ((to_Q a == to_Q t * to_Q b)%Q -> (to_Q v == to_Q t)%Q).
Proof.
  intros Hf Ht Hv. destruct (ratio_rounds f a b v Hf Hv) as [Hb Hr].
  pose proof (fits_rounds getcontext valid_getcontext t Ht) as Hrt.
  split; [|split].
  - intros Hlt. destruct (Qlt_le_dec (to_Q t * to_Q b) (to_Q a)) as [|Hle];
      [assumption|exfalso].
    assert (Hx : (to_Q a / to_Q b <= to_Q t)%Q)
      by (apply Qle_shift_div_r; assumption).
    pose proof (rounds_to_mono getcontext valid_getcontext _ _ _ _ Hr Hrt Hx).
    lra.
  - intros Hlt. destruct (Qlt_le_dec (to_Q a) (to_Q t * to_Q b)) as [|Hle];
      [assumption|exfalso].
    assert (Hx : (to_Q t <= to_Q a / to_Q b)%Q)
      by (apply Qle_shift_div_l; assumption).
    pose proof (rounds_to_mono getcontext valid_getcontext _ _ _ _ Hrt Hr Hx).
    lra.
  - intros E. apply (rounds_to_fits getcontext valid_getcontext t v Ht).
    apply (rounds_to_wd getcontext (to_Q a / to_Q b)); [|exact Hr].
    rewrite E. field. lra.
Qed.

(** X9, witness: a reserve replacement ratio of 1.2 against the
    threshold 1. *)
Lemma ratios_compare_with_threshold_witness :
  In reserve_replacement_ratio pure_ratios /\
  fits getcontext (Decimal_of_int 1) /\
  call (reserve_replacement_ratio (Decimal_of_int 1200000)
          (Decimal_of_int 1000000))
  = Returned (_dec_from_triple false 12 (-1)) /\
  ((to_Q (Decimal_of_int 1) < to_Q (_dec_from_triple false 12 (-1)))%Q ->
   (to_Q (Decimal_of_int 1) * to_Q (Decimal_of_int 1000000)
    < to_Q (Decimal_of_int 1200000))%Q).
Proof.
  assert (Hin : In reserve_replacement_ratio pure_ratios)
    by (left; reflexivity).
  assert (Ht : fits getcontext (Decimal_of_int 1))
    by (repeat split; discriminate).
  assert (H : call (reserve_replacement_ratio (Decimal_of_int 1200000)
                      (Decimal_of_int 1000000))
              = Returned (_dec_from_triple false 12 (-1)))
    by (vm_compute; reflexivity).
  split; [exact Hin | split; [exact Ht | split; [exact H|]]].
  exact (proj1 (ratios_compare_with_threshold _ _ _ _ _ Hin Ht H)).
Defined.

(** X10.  A returned ratio carries the sign of its numerator: it is never
    negative for a numerator that is zero or positive, and never positive
    for one that is zero or negative.  It is zero exactly when the
    magnitude of the exact quotient is at most half of [10^Etiny], the
    smallest positive number of the context. *)
Theorem ratios_sign_and_zero
  (f : Decimal -> Decimal -> Exec Decimal) (a b v : Decimal) :
  In f pure_ratios -> call (f a b) = Returned v ->
  _sign v = _sign a /\
  ((0 <= to_Q a)%Q -> (0 <= to_Q v)%Q) /\
  ((to_Q a <= 0)%Q -> (to_Q v <= 0)%Q) /\
  ((to_Q v == 0)%Q <->
   (Qabs (to_Q a / to_Q b) <= (1 # 2) * 10 ^ Etiny getcontext)%Q).
Proof.
  intros Hf Hv. destruct (ratio_returned f a b v Hf Hv) as [Hb Hd].
  destruct (ratio_rounds f a b v Hf Hv) as [_ Hr].
  assert (Hs : _sign v = _sign a).
  { rewrite (truediv_sign _ _ _ _ Hd).
    apply to_Q_pos_iff in Hb. destruct Hb as [-> _].
    apply xorb_false_r. }
  pose proof (fits_rounds getcontext valid_getcontext _ fits_zero) as Hr0.
  assert (E0 : (to_Q (Decimal_of_int 0) == 0)%Q) by reflexivity.
  split; [exact Hs|]. split; [|split].
  - intros Ha. rewrite <- E0.
    apply (rounds_to_mono getcontext valid_getcontext _ _ _ _ Hr0 Hr).
    rewrite E0. apply Qle_shift_div_l; [exact Hb | lra].
  - intros Ha. rewrite <- E0.
    apply (rounds_to_mono getcontext valid_getcontext _ _ _ _ Hr Hr0).
    rewrite E0. apply Qle_shift_div_r; [exact Hb | lra].
  - apply (rounds_to_zero_iff getcontext valid_getcontext). exact Hr.
Qed.

(** X10, witness: [lifting_cost(-5, 2)] is -2.5. *)
Lemma ratios_sign_and_zero_witness :
  In lifting_cost pure_ratios /\
  call (lifting_cost (Decimal_of_int (-5)) (Decimal_of_int 2))
  = Returned (_dec_from_triple true 25 (-1)) /\
  _sign (_dec_from_triple true 25 (-1)) = _sign (Decimal_of_int (-5)).
Proof.
  assert (Hin : In lifting_cost pure_ratios)
    by (do 3 right; left; reflexivity).
  assert (H : call (lifting_cost (Decimal_of_int (-5)) (Decimal_of_int 2))
              = Returned (_dec_from_triple true 25 (-1)))
    by (vm_compute; reflexivity).
  split; [exact Hin | split; [exact H|]].
  exact (proj1 (ratios_sign_and_zero _ _ _ _ Hin H)).
Defined.

(** X11.  A returned ratio is within half a unit in the last place of the
    exact quotient: the error is at most [5 * 10^-28] times the magnitude
    of the quotient, plus half of [10^Etiny] for results in the subnormal
    range. *)
Theorem ratios_accurate_to_half_unit
  (f : Decimal -> Decimal -> Exec Decimal) (a b v : Decimal) :
  In f pure_ratios -> call (f a b) = Returned v ->
  (Qabs (to_Q v - to_Q a / to_Q b)
   <= (1 # 2) * 10 ^ (1 - prec getcontext) * Qabs (to_Q a / to_Q b)
      + (1 # 2) * 10 ^ Etiny getcontext)%Q.
Proof.
  intros Hf Hv. destruct (ratio_rounds f a b v Hf Hv) as [_ Hr].
  apply (rounds_to_error getcontext). exact Hr.
Qed.

(** X11, witness: [recycle_ratio(20.00, 18.00)]. *)
Lemma ratios_accurate_to_half_unit_witness :
  In recycle_ratio pure_ratios /\
  call (recycle_ratio (hundredths 2000) (hundredths 1800))
  = Returned (_dec_from_triple false 1111111111111111111111111111 (-27)) /\
  (Qabs (to_Q (_dec_from_triple false 1111111111111111111111111111 (-27))
         - to_Q (hundredths 2000) / to_Q (hundredths 1800))
   <= (1 # 2) * 10 ^ (1 - prec getcontext)
      * Qabs (to_Q (hundredths 2000) / to_Q (hundredths 1800))
      + (1 # 2) * 10 ^ Etiny getcontext)%Q.
Proof.
  assert (Hin : In recycle_ratio pure_ratios)
    by (do 6 right; left; reflexivity).
  assert (H : call (recycle_ratio (hundredths 2000) (hundredths 1800))
              = Returned (_dec_from_triple false 1111111111111111111111111111
                            (-27))) by (vm_compute; reflexivity).
  split; [exact Hin | split; [exact H|]].
  exact (ratios_accurate_to_half_unit _ _ _ _ Hin H).
Defined.

(** X12.  A call of a ratio that passes validation raises Overflow
    exactly when the magnitude of the exact quotient is at least
    [10^(Emax+1) - 10^(Emax+1-prec) / 2], the least magnitude that rounds
    to [10^(Emax+1)]; below it the call returns. *)
Theorem ratios_overflow_threshold
  (f : Decimal -> Decimal -> Exec Decimal) (a b : Decimal) :
  In f pure_ratios ->
  (forall name value, ~ raises_invalid_input (f a b) name value) ->
  (call (f a b) = Raised (DecimalException Overflow) <->
   (overflow_threshold getcontext <= Qabs (to_Q a / to_Q b))%Q) /\
  ((Qabs (to_Q a / to_Q b) < overflow_threshold getcontext)%Q ->
   exists v, call (f a b) = Returned v).
Proof.
  intros Hf Hvalid. unfold raises_invalid_input in Hvalid.
  destruct (ratio_outcome f Hf) as (g & n1 & n2 & Hcall).
  rewrite Hcall in *.
  destruct (andb g (negb (__gt__ a (Decimal_of_int 0))));
    [exfalso; exact (Hvalid _ _ eq_refl)|].
  destruct (__gt__ b (Decimal_of_int 0)) eqn:Hb; cbn [negb] in *;
    [|exfalso; exact (Hvalid _ _ eq_refl)].
  pose proof (truediv_rounds getcontext valid_getcontext a b
                (gt_zero_nonzero _ Hb)) as Hr.
  pose proof (rounds_to_overflow_iff getcontext valid_getcontext _ _ Hr)
    as Hiff.
  destruct (__truediv__ a b getcontext) as [d|s]; cbn [outcome_of].
  - split.
    + rewrite <- Hiff. split; discriminate.
    + intros _. exists d. reflexivity.
  - assert (s = Overflow) by (destruct Hr as (_ & _ & _ & _ & -> & _);
                              reflexivity).
    subst s. split.
    + rewrite <- Hiff. split; reflexivity.
    + intros Hlt. exfalso. pose proof (proj1 Hiff eq_refl). lra.
Qed.

(** X12, witness: [reserve_replacement_ratio(1E+999999, 1E-999999)]. *)
Lemma ratios_overflow_threshold_witness :
  In reserve_replacement_ratio pure_ratios /\
  (forall name value,
     ~ raises_invalid_input
         (reserve_replacement_ratio (_dec_from_triple false 1 999999)
            (_dec_from_triple false 1 (-999999))) name value) /\
  (call (reserve_replacement_ratio (_dec_from_triple false 1 999999)
           (_dec_from_triple false 1 (-999999)))
   = Raised (DecimalException Overflow) <->
   (overflow_threshold getcontext
    <= Qabs (to_Q (_dec_from_triple false 1 999999)
             / to_Q (_dec_from_triple false 1 (-999999))))%Q).
Proof.
  assert (Hin : In reserve_replacement_ratio pure_ratios)
    by (left; reflexivity).
  assert (Hv : forall name value,
     ~ raises_invalid_input
         (reserve_replacement_ratio (_dec_from_triple false 1 999999)
            (_dec_from_triple false 1 (-999999))) name value)
    by (intros name value H; vm_compute in H; discriminate H).
  split; [exact Hin | split; [exact Hv|]].
  exact (proj1 (ratios_overflow_threshold _ _ _ Hin Hv)).
Defined.

(** ** Netback *)

(** X13.  A value returned by [netback] is the result of three correct
    roundings, one for each subtraction from left to right: the exact
    difference of the operands of each subtraction, rounded half-even to
    28 significant digits. *)
Theorem netback_rounds_each_difference (p r t o v : Decimal) :
  call (netback p r t o) = Returned v ->
  exists d1 d2,
    rounds_to getcontext (to_Q p - to_Q r) (Value d1) /\
    rounds_to getcontext (to_Q d1 - to_Q t) (Value d2) /\
    rounds_to getcontext (to_Q d2 - to_Q o) (Value v).
Proof.
  intros H. destruct (netback_differences p r t o v H)
    as (d1 & d2 & _ & R). exists d1, d2. exact R.
Qed.

(** X13, witness: [netback(70.00, 10.00, 5.00, 15.00)]. *)
Lemma netback_rounds_each_difference_witness :
  call (netback (hundredths 7000) (hundredths 1000) (hundredths 500)
          (hundredths 1500)) = Returned (hundredths 4000) /\
  exists d1 d2,
    rounds_to getcontext (to_Q (hundredths 7000) - to_Q (hundredths 1000))
      (Value d1) /\
    rounds_to getcontext (to_Q d1 - to_Q (hundredths 500)) (Value d2) /\
    rounds_to getcontext (to_Q d2 - to_Q (hundredths 1500))
      (Value (hundredths 4000)).
Proof.
  assert (H : call (netback (hundredths 7000) (hundredths 1000)
                      (hundredths 500) (hundredths 1500))
              = Returned (hundredths 4000)) by (vm_compute; reflexivity).
  split; [exact H|]. exact (netback_rounds_each_difference _ _ _ _ _ H).
Defined.

(** X14.  [netback] is monotone for all arguments: a price that is not
    lower together with royalties, transportation and operating costs that
    are not higher gives a netback that is not lower. *)
Theorem netback_monotone (p r t o p' r' t' o' v v' : Decimal) :
  call (netback p r t o) = Returned v ->
  call (netback p' r' t' o') = Returned v' ->
  (to_Q p <= to_Q p')%Q -> (to_Q r' <= to_Q r)%Q ->
  (to_Q t' <= to_Q t)%Q -> (to_Q o' <= to_Q o)%Q ->
  (to_Q v <= to_Q v')%Q.
Proof.
  intros H H' Hp Hr Ht Ho.
  destruct (netback_differences _ _ _ _ _ H)
    as (d1 & d2 & _ & R1 & R2 & R3).
  destruct (netback_differences _ _ _ _ _ H')
    as (d1' & d2' & _ & R1' & R2' & R3').
  pose proof (rounds_to_mono getcontext valid_getcontext _ _ _ _ R1 R1'
                ltac:(lra)) as H1.
  pose proof (rounds_to_mono getcontext valid_getcontext _ _ _ _ R2 R2'
                ltac:(lra)) as H2.
  apply (rounds_to_mono getcontext valid_getcontext _ _ _ _ R3 R3'). lra.
Qed.

(** X14, witness: the price raised from 50.00 to 70.00, the costs kept. *)
Lemma netback_monotone_witness :
  call (netback (hundredths 5000) (hundredths 1000) (hundredths 500)
          (hundredths 1500)) = Returned (hundredths 2000) /\
  call (netback (hundredths 7000) (hundredths 1000) (hundredths 500)
          (hundredths 1500)) = Returned (hundredths 4000) /\
  (to_Q (hundredths 5000) <= to_Q (hundredths 7000))%Q /\
  (to_Q (hundredths 1000) <= to_Q (hundredths 1000))%Q /\
  (to_Q (hundredths 500) <= to_Q (hundredths 500))%Q /\
  (to_Q (hundredths 1500) <= to_Q (hundredths 1500))%Q /\
  (to_Q (hundredths 2000) <= to_Q (hundredths 4000))%Q.
Proof.
  assert (H : call (netback (hundredths 5000) (hundredths 1000)
                      (hundredths 500) (hundredths 1500))
              = Returned (hundredths 2000)) by (vm_compute; reflexivity).
  assert (H' : call (netback (hundredths 7000) (hundredths 1000)
                       (hundredths 500) (hundredths 1500))
               = Returned (hundredths 4000)) by (vm_compute; reflexivity).
  assert (Hp : (to_Q (hundredths 5000) <= to_Q (hundredths 7000))%Q)
    by (vm_compute; discriminate).
  assert (Hr : (to_Q (hundredths 1000) <= to_Q (hundredths 1000))%Q)
    by (vm_compute; discriminate).
  assert (Ht : (to_Q (hundredths 500) <= to_Q (hundredths 500))%Q)
    by (vm_compute; discriminate).
  assert (Ho : (to_Q (hundredths 1500) <= to_Q (hundredths 1500))%Q)
    by (vm_compute; discriminate).
  split; [exact H | split; [exact H' | split; [exact Hp | split;
    [exact Hr | split; [exact Ht | split; [exact Ho|]]]]]].
  exact (netback_monotone _ _ _ _ _ _ _ _ _ _ H H' Hp Hr Ht Ho).
Defined.

(** X15.  With royalties, transportation and operating costs that are
    zero or positive, the netback returned never exceeds an oil price that
    fits the context (at most 28 significant digits). *)
Theorem netback_at_most_price (p r t o v : Decimal) :
  call (netback p r t o) = Returned v -> fits getcontext p ->
  (0 <= to_Q r)%Q -> (0 <= to_Q t)%Q -> (0 <= to_Q o)%Q ->
  (to_Q v <= to_Q p)%Q.
Proof.
  intros H Hp Hr Ht Ho.
  destruct (netback_differences _ _ _ _ _ H)
    as (d1 & d2 & (F1 & F2) & R1 & R2 & R3).
  pose proof (fits_rounds getcontext valid_getcontext) as Hfit.
  pose proof (rounds_to_mono getcontext valid_getcontext _ _ _ _ R1
                (Hfit p Hp) ltac:(lra)) as H1.
  pose proof (rounds_to_mono getcontext valid_getcontext _ _ _ _ R2
                (Hfit d1 F1) ltac:(lra)) as H2.
  pose proof (rounds_to_mono getcontext valid_getcontext _ _ _ _ R3
                (Hfit d2 F2) ltac:(lra)) as H3.
  lra.
Qed.

(** X15, witness: [netback(70.00, 10.00, 5.00, 15.00)]. *)
Lemma netback_at_most_price_witness :
  call (netback (hundredths 7000) (hundredths 1000) (hundredths 500)
          (hundredths 1500)) = Returned (hundredths 4000) /\
  fits getcontext (hundredths 7000) /\
  (0 <= to_Q (hundredths 1000))%Q /\ (0 <= to_Q (hundredths 500))%Q /\
  (0 <= to_Q (hundredths 1500))%Q /\
  (to_Q (hundredths 4000) <= to_Q (hundredths 7000))%Q.
Proof.
  assert (H : call (netback (hundredths 7000) (hundredths 1000)
                      (hundredths 500) (hundredths 1500))
              = Returned (hundredths 4000)) by (vm_compute; reflexivity).
  assert (Hp : fits getcontext (hundredths 7000))
    by (repeat split; discriminate).
  assert (Hr : (0 <= to_Q (hundredths 1000))%Q) by (vm_compute; discriminate).
  assert (Ht : (0 <= to_Q (hundredths 500))%Q) by (vm_compute; discriminate).
  assert (Ho : (0 <= to_Q (hundredths 1500))%Q) by (vm_compute; discriminate).
  split; [exact H | split; [exact Hp | split; [exact Hr | split;
    [exact Ht | split; [exact Ho|]]]]].
  exact (netback_at_most_price _ _ _ _ _ H Hp Hr Ht Ho).
Defined.

(** X16.  The three costs of [netback] are interchangeable as long as no
    subtraction needs rounding: when the four arguments have at most [q]
    decimal places and their magnitudes add up to at most 28 digits,
    [netback] returns values that are [==] for every order of
    [royalties], [transportation] and [operating_costs]. *)
Theorem netback_costs_interchangeable (q : Z) (p r t o : Decimal) :
  within_precision q [p; r; t; o] ->
  both_return_same (netback p r t o) (netback p r o t) /\
  both_return_same (netback p r t o) (netback p t r o) /\
  both_return_same (netback p r t o) (netback p o t r) /\
  both_return_same (netback p r t o) (netback p t o r) /\
  both_return_same (netback p r t o) (netback p o r t).
Proof.
  intros H.
  destruct (within_precision_4 q p r t o H) as (Hq & (Hp & Hr & Ht & Ho) & Hs).
  repeat match goal with |- _ /\ _ => split end;
    apply (netback_same_total q); try assumption; try tauto; lia.
Qed.

(** X16, witness: the costs of the test suite, passed there as royalty,
    operating cost, transport cost. *)
Lemma netback_costs_interchangeable_witness :
  within_precision 2
    [hundredths 7000; hundredths 1000; hundredths 500; hundredths 1500] /\
  both_return_same
    (netback (hundredths 7000) (hundredths 1000) (hundredths 500)
       (hundredths 1500))
    (netback (hundredths 7000) (hundredths 1000) (hundredths 1500)
       (hundredths 500)).
Proof.
  assert (Hw : within_precision 2
    [hundredths 7000; hundredths 1000; hundredths 500; hundredths 1500])
    by solve_within_precision.
  split; [exact Hw|].
  exact (proj1 (netback_costs_interchangeable 2 _ _ _ _ Hw)).
Defined.

(** X17.  Without costs the netback is the price: for an oil price that
    fits the context and royalties, transportation and operating costs that
    are zero (of any sign and exponent), [netback] raises nothing and
    returns a value that is [==] to the price. *)
Theorem netback_without_costs (p r t o : Decimal) :
  fits getcontext p ->
  (to_Q r == 0)%Q -> (to_Q t == 0)%Q -> (to_Q o == 0)%Q ->
  exists v, call (netback p r t o) = Returned v /\ __eq__ v p = true.
Proof.
  intros Hp Hr Ht Ho.
  destruct (sub_zero_fits p r Hp Hr) as (d1 & E1 & Q1).
  pose proof (operator_fits Sub p r d1 E1) as F1.
  destruct (sub_zero_fits d1 t F1 Ht) as (d2 & E2 & Q2).
  pose proof (operator_fits Sub d1 t d2 E2) as F2.
  destruct (sub_zero_fits d2 o F2 Ho) as (v & E3 & Q3).
  exists v. split.
  - run_exec. unfold apply_operator. rewrite E1. run_exec.
    rewrite E2. run_exec. rewrite E3. reflexivity.
  - apply eq_spec. rewrite Q3, Q2, Q1. reflexivity.
Qed.

(** X17, witness: [netback(70.00, 0, 0.00, 0.00)]. *)
Lemma netback_without_costs_witness :
  fits getcontext (hundredths 7000) /\
  (to_Q (Decimal_of_int 0) == 0)%Q /\ (to_Q (hundredths 0) == 0)%Q /\
  exists v,
    call (netback (hundredths 7000) (Decimal_of_int 0) (hundredths 0)
            (hundredths 0)) = Returned v /\
    __eq__ v (hundredths 7000) = true.
Proof.
  assert (Hp : fits getcontext (hundredths 7000))
    by (repeat split; discriminate).
  assert (H0 : (to_Q (Decimal_of_int 0) == 0)%Q) by reflexivity.
  assert (H1 : (to_Q (hundredths 0) == 0)%Q) by reflexivity.
  split; [exact Hp | split; [exact H0 | split; [exact H1|]]].
  exact (netback_without_costs _ _ _ _ Hp H0 H1 H1).
Defined.

(** ** Operating netback margin *)

(** X18.  For a strictly positive [oil_price], [operating_netback_margin]
    raises Overflow or returns exactly one hundred times the quotient
    [netback / oil_price] rounded half-even to 28 significant digits: the
    multiplication by 100 adds no rounding error. *)
Theorem operating_netback_margin_hundred_quotients
  (netback oil_price : Decimal) :
  (0 < to_Q oil_price)%Q ->
  call (operating_netback_margin netback oil_price)
  = Raised (DecimalException Overflow) \/
  exists quotient margin,
    rounds_to getcontext (to_Q netback / to_Q oil_price) (Value quotient) /\
    call (operating_netback_margin netback oil_price) = Returned margin /\
    (to_Q margin == 100 * to_Q quotient)%Q.
Proof.
  intros Hp. pose proof (pos_nonzero _ Hp) as Hnz.
  pose proof (truediv_rounds getcontext valid_getcontext netback oil_price Hnz)
    as Hr.
  apply gt_zero_true in Hp.
  run_exec. rewrite Hp. run_exec. unfold apply_operator.
  destruct (__truediv__ netback oil_price getcontext) as [quotient|s] eqn:Eq.
  - run_exec.
    destruct (__mul__ quotient (Decimal_of_int 100) getcontext)
      as [margin|s] eqn:Em.
    + right. exists quotient, margin. split; [exact Hr|].
      split; [reflexivity|].
      apply times_hundred_exact; [|exact Em].
      apply (operator_fits TrueDiv netback oil_price). exact Eq.
    + left. apply mul_trap in Em. subst s. reflexivity.
  - left. destruct Hr as (_ & _ & _ & _ & -> & _). reflexivity.
Qed.

(** X18, witness: [operating_netback_margin(40.00, 70.00)]. *)
Lemma operating_netback_margin_hundred_quotients_witness :
  (0 < to_Q (hundredths 7000))%Q /\
  (call (operating_netback_margin (hundredths 4000) (hundredths 7000))
   = Raised (DecimalException Overflow) \/
   exists quotient margin,
     rounds_to getcontext (to_Q (hundredths 4000) / to_Q (hundredths 7000))
       (Value quotient) /\
     call (operating_netback_margin (hundredths 4000) (hundredths 7000))
     = Returned margin /\
     (to_Q margin == 100 * to_Q quotient)%Q).
Proof.
  assert (Hp : (0 < to_Q (hundredths 7000))%Q) by reflexivity.
  split; [exact Hp|].
  exact (operating_netback_margin_hundred_quotients (hundredths 4000)
           (hundredths 7000) Hp).
Defined.

(** X19.  A returned margin stays in the range of the exact percentage: it
    is at most 100 when [netback] does not exceed [oil_price] and at least
    100 when it is not below it, never negative for a netback that is zero
    or positive and never positive for one that is zero or negative. *)
Theorem operating_netback_margin_in_percent_range
  (netback oil_price margin : Decimal) :
  call (operating_netback_margin netback oil_price) = Returned margin ->
  ((0 <= to_Q netback)%Q -> (0 <= to_Q margin)%Q) /\
  ((to_Q netback <= 0)%Q -> (to_Q margin <= 0)%Q) /\
  ((to_Q netback <= to_Q oil_price)%Q -> (to_Q margin <= 100)%Q) /\
  ((to_Q oil_price <= to_Q netback)%Q -> (100 <= to_Q margin)%Q).
Proof.
  intros H.
  destruct (operating_netback_margin_returned _ _ _ H)
    as (Hp & quotient & Hq & Hm).
  pose proof (truediv_rounds getcontext valid_getcontext netback oil_price
                (pos_nonzero _ Hp)) as Hr.
  rewrite Hq in Hr.
  assert (Hf : fits getcontext quotient)
    by (apply (operator_fits TrueDiv netback oil_price); exact Hq).
  rewrite (times_hundred_exact quotient margin Hf Hm).
  pose proof (fits_rounds getcontext valid_getcontext _ fits_zero) as Hr0.
  pose proof (fits_rounds getcontext valid_getcontext _ fits_one) as Hr1.
  assert (E0 : (to_Q (Decimal_of_int 0) == 0)%Q) by reflexivity.
  assert (E1 : (to_Q (Decimal_of_int 1) == 1)%Q) by reflexivity.
  repeat match goal with |- _ /\ _ => split end; intros Hn.
  - assert (to_Q (Decimal_of_int 0) <= to_Q quotient)%Q; [|lra].
    apply (rounds_to_mono getcontext valid_getcontext _ _ _ _ Hr0 Hr).
    rewrite E0. apply Qle_shift_div_l; [exact Hp | lra].
  - assert (to_Q quotient <= to_Q (Decimal_of_int 0))%Q; [|lra].
    apply (rounds_to_mono getcontext valid_getcontext _ _ _ _ Hr Hr0).
    rewrite E0. apply Qle_shift_div_r; [exact Hp | lra].
  - assert (to_Q quotient <= to_Q (Decimal_of_int 1))%Q; [|lra].
    apply (rounds_to_mono getcontext valid_getcontext _ _ _ _ Hr Hr1).
    rewrite E1. apply Qle_shift_div_r; [exact Hp | lra].
  - assert (to_Q (Decimal_of_int 1) <= to_Q quotient)%Q; [|lra].
    apply (rounds_to_mono getcontext valid_getcontext _ _ _ _ Hr1 Hr).
    rewrite E1. apply Qle_shift_div_l; [exact Hp | lra].
Qed.

(** X19, witness: [operating_netback_margin(40.00, 70.00)]. *)
Lemma operating_netback_margin_in_percent_range_witness :
  call (operating_netback_margin (hundredths 4000) (hundredths 7000))
  = Returned (_dec_from_triple false 5714285714285714285714285714 (-26)) /\
  ((to_Q (hundredths 4000) <= to_Q (hundredths 7000))%Q ->
   (to_Q (_dec_from_triple false 5714285714285714285714285714 (-26))
    <= 100)%Q).
Proof.
  assert (H : call (operating_netback_margin (hundredths 4000)
                      (hundredths 7000))
              = Returned (_dec_from_triple false 5714285714285714285714285714
                            (-26))) by (vm_compute; reflexivity).
  split; [exact H|].
  exact (proj1 (proj2 (proj2
           (operating_netback_margin_in_percent_range _ _ _ H)))).
Defined.

(** X20.  A returned margin is within half a unit in the last place of
    the exact percentage [100 * netback / oil_price]: the error is at most
    [5 * 10^-28] times its magnitude, plus fifty times [10^Etiny] for
    quotients in the subnormal range. *)
Theorem operating_netback_margin_accurate
  (netback oil_price margin : Decimal) :
  call (operating_netback_margin netback oil_price) = Returned margin ->
  (Qabs (to_Q margin - 100 * (to_Q netback / to_Q oil_price))
   <= (1 # 2) * 10 ^ (1 - prec getcontext)
      * Qabs (100 * (to_Q netback / to_Q oil_price))
      + 50 * 10 ^ Etiny getcontext)%Q.
Proof.
  intros H.
  destruct (operating_netback_margin_returned _ _ _ H)
    as (Hp & quotient & Hq & Hm).
  pose proof (truediv_rounds getcontext valid_getcontext netback oil_price
                (pos_nonzero _ Hp)) as Hr.
  rewrite Hq in Hr.
  assert (Hf : fits getcontext quotient)
    by (apply (operator_fits TrueDiv netback oil_price); exact Hq).
  pose proof (rounds_to_error getcontext _ _ Hr) as He.
  rewrite (times_hundred_exact quotient margin Hf Hm).
  set (x := (to_Q netback / to_Q oil_price)%Q) in *.
  setoid_replace (100 * to_Q quotient - 100 * x)%Q
    with (100 * (to_Q quotient - x))%Q by ring.
  rewrite !Qabs_Qmult. change (Qabs 100) with 100%Q.
  set (e := Qabs (to_Q quotient - x)) in *. set (ax := Qabs x) in *.
  set (u := (10 ^ (1 - prec getcontext))%Q) in *.
  set (w := (10 ^ Etiny getcontext)%Q) in *.
  lra.
Qed.

(** X20, witness: [operating_netback_margin(40.00, 70.00)]. *)
Lemma operating_netback_margin_accurate_witness :
  call (operating_netback_margin (hundredths 4000) (hundredths 7000))
  = Returned (_dec_from_triple false 5714285714285714285714285714 (-26)) /\
  (Qabs (to_Q (_dec_from_triple false 5714285714285714285714285714 (-26))
         - 100 * (to_Q (hundredths 4000) / to_Q (hundredths 7000)))
   <= (1 # 2) * 10 ^ (1 - prec getcontext)
      * Qabs (100 * (to_Q (hundredths 4000) / to_Q (hundredths 7000)))
      + 50 * 10 ^ Etiny getcontext)%Q.
Proof.
  assert (H : call (operating_netback_margin (hundredths 4000)
                      (hundredths 7000))
              = Returned (_dec_from_triple false 5714285714285714285714285714
                            (-26))) by (vm_compute; reflexivity).
  split; [exact H|].
  exact (operating_netback_margin_accurate _ _ _ H).
Defined.

(** X21.  The margin of a netback: when the price and the three costs have
    at most [q] decimal places and their magnitudes add up to at most 28
    digits, and the price is strictly positive,
    [operating_netback_margin(netback(p, r, t, o), p)] raises nothing and
    returns one hundred times the exact [(p - r - t - o) / p] rounded
    half-even to 28 significant digits. *)
Theorem margin_of_netback (q : Z) (p r t o : Decimal) :
  within_precision q [p; r; t; o] -> (0 < to_Q p)%Q ->
  exists quotient margin,
    call (netback_margin p r t o) = Returned margin /\
    rounds_to getcontext
      ((to_Q p - to_Q r - to_Q t - to_Q o) / to_Q p) (Value quotient) /\
    (to_Q margin == 100 * to_Q quotient)%Q.
Proof.
  intros H Hpos.
  destruct (within_precision_4 q p r t o H) as (Hq & (Hp & Hr & Ht & Ho) & Hs).
  destruct (netback_exact q p r t o [] Hq Hp Hr Ht Ho Hs)
    as (nb & log' & Hrun & He & Hsc).
  pose proof (pos_nonzero _ Hpos) as Hnz.
  pose proof (truediv_rounds getcontext valid_getcontext nb p Hnz) as Hdiv.
  assert (Hpq : (0 < 10 ^ q)%Q) by apply Qp_pos.
  assert (HPu : 1 <= scaled q p).
  { assert (Hlt : (0 < inject_Z (scaled q p))%Q).
    { rewrite (to_Q_scaled q p Hp) in Hpos.
      apply (Qmult_lt_r _ _ _ Hpq) in Hpos.
      setoid_replace (inject_Z (scaled q p) / 10 ^ q * 10 ^ q)%Q
        with (inject_Z (scaled q p)) in Hpos by (field; apply Qp_nonzero).
      lra. }
    apply (Qlt_inject_inv 0) in Hlt. lia. }
  assert (HPq : (1 <= inject_Z (scaled q p))%Q) by (apply (Qle_inject 1); lia).
  assert (Hx : (to_Q nb / to_Q p
                == inject_Z (scaled q nb) / inject_Z (scaled q p))%Q).
  { rewrite (to_Q_scaled q nb He), (to_Q_scaled q p Hp). field.
    split; [lra | apply Qp_nonzero]. }
  assert (Hbound : (Qabs (to_Q nb / to_Q p) <= 10 ^ 28)%Q).
  { rewrite Hx. apply Qabs_Qle_condition.
    assert (HN : - 10 ^ 28 < scaled q nb < 10 ^ 28)
      by (change (prec getcontext) with 28 in Hs; lia).
    assert (HNl : (inject_Z (- 10 ^ 28) <= inject_Z (scaled q nb))%Q)
      by (apply Qle_inject; lia).
    assert (HNu : (inject_Z (scaled q nb) <= inject_Z (10 ^ 28))%Q)
      by (apply Qle_inject; lia).
    rewrite inject_Z_opp in HNl. rewrite Qp_inject in HNl, HNu by lia.
    assert (H28 : (0 < 10 ^ 28)%Q) by apply Qp_pos.
    split.
    - apply Qle_shift_div_l; [lra|]. nra.
    - apply Qle_shift_div_r; [lra|]. nra. }
  destruct (rounds_to_bounded _ 28 _ ltac:(cbn; lia) Hdiv Hbound)
    as (quotient & Equot & Hqb).
  rewrite Equot in Hdiv.
  pose proof (mul_rounds getcontext valid_getcontext quotient
                (Decimal_of_int 100)) as Hmul.
  assert (Hmb : (Qabs (to_Q quotient * to_Q (Decimal_of_int 100))
                 <= 10 ^ 30)%Q).
  { rewrite to_Q_hundred, Qabs_Qmult. change (Qabs 100) with 100%Q.
    change (10 ^ 30)%Q with (10 ^ 28 * 100)%Q.
    apply Qmult_le_r; [reflexivity | exact Hqb]. }
  destruct (rounds_to_bounded _ 30 _ ltac:(cbn; lia) Hmul Hmb)
    as (margin & Emargin & _).
  exists quotient, margin. split; [|split].
  - unfold call, netback_margin, bind. rewrite Hrun.
    apply gt_zero_true in Hpos.
    run_exec. rewrite Hpos. run_exec. unfold apply_operator.
    rewrite Equot. run_exec. rewrite Emargin. reflexivity.
  - apply (rounds_to_wd getcontext (to_Q nb / to_Q p)); [|exact Hdiv].
    rewrite (to_Q_scaled q nb He), (to_Q_scaled q p Hp),
      (to_Q_scaled q r Hr), (to_Q_scaled q t Ht), (to_Q_scaled q o Ho), Hsc.
    push_inject. field. split; [apply Qp_nonzero | lra].
  - apply times_hundred_exact; [|exact Emargin].
    apply (operator_fits TrueDiv nb p). exact Equot.
Qed.

(** X21, witness: the margin of [netback(70.00, 10.00, 5.00, 15.00)]. *)
Lemma margin_of_netback_witness :
  within_precision 2
    [hundredths 7000; hundredths 1000; hundredths 500; hundredths 1500] /\
  (0 < to_Q (hundredths 7000))%Q /\
  exists quotient margin,
    call (netback_margin (hundredths 7000) (hundredths 1000)
            (hundredths 500) (hundredths 1500)) = Returned margin /\
    rounds_to getcontext
      ((to_Q (hundredths 7000) - to_Q (hundredths 1000)
        - to_Q (hundredths 500) - to_Q (hundredths 1500))
       / to_Q (hundredths 7000)) (Value quotient) /\
    (to_Q margin == 100 * to_Q quotient)%Q.
Proof.
  assert (Hw : within_precision 2
    [hundredths 7000; hundredths 1000; hundredths 500; hundredths 1500])
    by solve_within_precision.
  assert (Hp : (0 < to_Q (hundredths 7000))%Q) by reflexivity.
  split; [exact Hw | split; [exact Hp|]].
  exact (margin_of_netback 2 _ _ _ _ Hw Hp).
Defined.
